(** * ODMammogram: pixel normalization ([odm/feature_extractor/normalizations.py])

    A shallow embedding of class [Normalize]: [extract_pixels],
    [_minmax_helper], [minmax] and [get_norm], over a small model of the Python
    store (lists, namespaces, datasets, NumPy array headers and their buffers)
    and of the NumPy arithmetic the helper uses.

    Numbers.  Integer dtypes are [Z] with the wrap-around of the dtype written
    out.  Floating point is IEEE 754 with round-to-nearest-even, through the
    executable specification [SpecFloat] of the Standard Library: binary32 is
    [prec = 24, emax = 128], binary64 is [prec = 53, emax = 1024].

    NumPy.  The casting of an operation between a float32 array and a scalar
    follows NumPy 1.x (value based: the scalar is given the smallest dtype that
    holds its value, and the loop runs in the promotion of float32 with that
    dtype; a float64 loop writes its result back into the float32 array by a
    rounding cast).  On 8 and 16 bit integers and on float32 data, with
    [bins] up to 65536, every loop of the helper is a float32 loop.

    Time.  [time.time()] is not modelled; a log record keeps its message only. *)

From Stdlib Require Import ZArith Bool List String Ascii Lia.
From Stdlib Require Import Floats.SpecFloat.
From stdpp Require Import base option list gmap strings.

Local Open Scope Z_scope.

(** ** Dtypes and scalars *)

Inductive ikind := int8 | int16 | int32 | int64 | uint8 | uint16 | uint32 | uint64.
Inductive fkind := float32 | float64.
Inductive dtype := DInt (k : ikind) | DFloat (k : fkind).

Definition isigned (k : ikind) : bool :=
  match k with
  | int8 | int16 | int32 | int64 => true
  | _ => false
  end.

Definition ibits (k : ikind) : Z :=
  match k with
  | int8 | uint8 => 8
  | int16 | uint16 => 16
  | int32 | uint32 => 32
  | int64 | uint64 => 64
  end.

Definition imin (k : ikind) : Z := if isigned k then - 2 ^ (ibits k - 1) else 0.
Definition imax (k : ikind) : Z :=
  if isigned k then 2 ^ (ibits k - 1) - 1 else 2 ^ ibits k - 1.

(** Integer arithmetic of a dtype wraps modulo [2 ^ ibits]. *)
Definition wrap (k : ikind) (z : Z) : Z :=
  if isigned k
  then (z + 2 ^ (ibits k - 1)) mod 2 ^ ibits k - 2 ^ (ibits k - 1)
  else z mod 2 ^ ibits k.

Definition fprec (k : fkind) : Z := match k with float32 => 24 | float64 => 53 end.
Definition femax (k : fkind) : Z := match k with float32 => 128 | float64 => 1024 end.

(** Conversion of an integer, and of a float of any format, to format [k]. *)
Definition of_Z (k : fkind) (z : Z) : spec_float :=
  binary_normalize (fprec k) (femax k) z 0 false.

Definition fcast (k : fkind) (x : spec_float) : spec_float :=
  match x with
  | S754_finite s m e => binary_round (fprec k) (femax k) s m e
  | _ => x
  end.

(** A float of format [k] taken to format [k']: nothing to do when [k = k']. *)
Definition fconv (k k' : fkind) (x : spec_float) : spec_float :=
  match k, k' with
  | float32, float32 | float64, float64 => x
  | _, _ => fcast k' x
  end.

Definition is_nan (x : spec_float) : bool :=
  match x with S754_nan => true | _ => false end.
Definition is_inf (x : spec_float) : bool :=
  match x with S754_infinity _ => true | _ => false end.
Definition is_finite (x : spec_float) : bool :=
  match x with S754_zero _ | S754_finite _ _ _ => true | _ => false end.

(** A NumPy scalar (what [np.max] returns, what iterating a 1-d array yields). *)
Inductive npscalar :=
  | IntS (k : ikind) (z : Z)
  | FloatS (k : fkind) (f : spec_float).

Definition scalar_dtype (s : npscalar) : dtype :=
  match s with IntS k _ => DInt k | FloatS k _ => DFloat k end.

(** The typed contents of an array. *)
Inductive buffer :=
  | IntBuf (k : ikind) (l : list Z)
  | FloatBuf (k : fkind) (l : list spec_float).


Definition buffer_length (b : buffer) : nat :=
  match b with IntBuf _ l => length l | FloatBuf _ l => length l end.

(** [window off n b]: the [n] elements of [b] from position [off]. *)
Definition window (off n : nat) (b : buffer) : buffer :=
  match b with
  | IntBuf k l => IntBuf k (take n (drop off l))
  | FloatBuf k l => FloatBuf k (take n (drop off l))
  end.

(** ** Reductions [np.max], [np.min]

    [np.maximum] and [np.minimum] propagate NaN.  Two elements tie only when
    they are equal, or the zeros [+0.0] and [-0.0]: of the two the one met
    later is kept.  Which zero NumPy answers depends on how its loop
    walks the buffer; the properties of the results of float arrays below
    do not rest on that choice but on [is_max] and [is_min]. *)
Definition fmaximum (a b : spec_float) : spec_float :=
  match SFcompare a b with
  | None => S754_nan
  | Some Gt => a
  | Some _ => b
  end.

Definition fminimum (a b : spec_float) : spec_float :=
  match SFcompare a b with
  | None => S754_nan
  | Some Lt => a
  | Some _ => b
  end.

Definition amax (b : buffer) : option npscalar :=
  match b with
  | IntBuf k (x :: l) => Some (IntS k (fold_left Z.max l x))
  | FloatBuf k (x :: l) => Some (FloatS k (fold_left fmaximum l x))
  | _ => None
  end.

Definition amin (b : buffer) : option npscalar :=
  match b with
  | IntBuf k (x :: l) => Some (IntS k (fold_left Z.min l x))
  | FloatBuf k (x :: l) => Some (FloatS k (fold_left fminimum l x))
  | _ => None
  end.

(** ** Scalar and array arithmetic *)

Inductive binop := Sub | Div | Mul.

Definition fop (o : binop) (k : fkind) : spec_float -> spec_float -> spec_float :=
  match o with
  | Sub => SFsub (fprec k) (femax k)
  | Div => SFdiv (fprec k) (femax k)
  | Mul => SFmul (fprec k) (femax k)
  end.

(** The second operand of an operation: a NumPy scalar or a Python int. *)
Inductive operand :=
  | NpS (s : npscalar)
  | PyI (z : Z).

(** [promote_types(float k, dtype)]: 8 and 16 bit integers fit a float32. *)
Definition promote_int (k : fkind) (i : ikind) : fkind :=
  if ibits i <=? 16 then k else float64.

Definition promote_float (k k' : fkind) : fkind :=
  match k, k' with float32, float32 => float32 | _, _ => float64 end.

(** [np.min_scalar_type] of an integer value, then its promotion with
    float32; [None] when the value fits no integer dtype (an object array). *)
Definition int_value_loop (z : Z) : option fkind :=
  if (-32768 <=? z) && (z <=? 65535) then Some float32
  else if (- 2 ^ 63 <=? z) && (z <=? 2 ^ 64 - 1) then Some float64
  else None.

(** [np.min_scalar_type] of a float value: float32 (or float16) unless the
    value is finite and outside (-3.4e38, 3.4e38). *)
Definition float32_limit : spec_float := of_Z float64 (34 * 10 ^ 37).

Definition float_value_loop (f : spec_float) : fkind :=
  if negb (is_finite f) then float32
  else if SFltb (SFopp float32_limit) f && SFltb f float32_limit then float32
  else float64.

(** The loop of a ufunc on a float32 array and a scalar operand. *)
Definition array_loop (y : operand) : option fkind :=
  match y with
  | NpS (IntS _ z) => int_value_loop z
  | PyI z => int_value_loop z
  | NpS (FloatS float32 _) => Some float32
  | NpS (FloatS float64 f) => Some (float_value_loop f)
  end.

Definition operand_float (k : fkind) (y : operand) : spec_float :=
  match y with
  | NpS (IntS _ z) => of_Z k z
  | PyI z => of_Z k z
  | NpS (FloatS k' f) => fconv k' k f
  end.

(** One element of [a op= y] on a float32 array, in the loop [k]. *)
Definition elem_op (o : binop) (k : fkind) (fy : spec_float) (x : spec_float) : spec_float :=
  match k with
  | float32 => fop o float32 x fy
  | float64 => fcast float32 (fop o float64 (fcast float64 x) fy)
  end.

Definition array_op (o : binop) (y : operand) (xs : list spec_float)
  : option (list spec_float) :=
  match array_loop y with
  | Some k => Some (map (elem_op o k (operand_float k y)) xs)
  | None => None
  end.

(** [a op b] on NumPy scalars of one dtype (as [max_val - min_val]): integer
    arithmetic wraps in the dtype, float arithmetic rounds in it.  Mixed
    operands are promoted to a float format. *)
Definition scalar_op (o : binop) (a b : npscalar) : npscalar :=
  match a, b with
  | IntS k x, IntS _ y =>
      match o with
      | Sub => IntS k (wrap k (x - y))
      | Mul => IntS k (wrap k (x * y))
      | Div => FloatS float64 (fop Div float64 (of_Z float64 x) (of_Z float64 y))
      end
  | FloatS k x, FloatS k' y =>
      let r := promote_float k k' in FloatS r (fop o r (fconv k r x) (fconv k' r y))
  | FloatS k x, IntS i y =>
      let r := promote_int k i in FloatS r (fop o r (fconv k r x) (of_Z r y))
  | IntS i x, FloatS k y =>
      let r := promote_int k i in FloatS r (fop o r (of_Z r x) (fconv k r y))
  end.

(** [s op= y] on a NumPy scalar [s] (a rebinding: scalars are immutable).  A
    Python int counts as an int64 (uint64 above its range). *)
Definition scalar_iop (o : binop) (s : npscalar) (y : operand) : option npscalar :=
  match y with
  | NpS t => Some (scalar_op o s t)
  | PyI z =>
      if (- 2 ^ 63 <=? z) && (z <=? 2 ^ 63 - 1) then Some (scalar_op o s (IntS int64 z))
      else if (2 ^ 63 <=? z) && (z <=? 2 ^ 64 - 1) then Some (scalar_op o s (IntS uint64 z))
      else None
  end.

(** [astype(np.float32)] on the elements. *)
Definition astype_float32 (b : buffer) : list spec_float :=
  match b with
  | IntBuf _ l => map (of_Z float32) l
  | FloatBuf float32 l => l
  | FloatBuf float64 l => map (fcast float32) l
  end.

Definition scalar_astype_float32 (s : npscalar) : spec_float :=
  match s with
  | IntS _ z => of_Z float32 z
  | FloatS float32 f => f
  | FloatS float64 f => fcast float32 f
  end.

(** ** The Python store *)

Abbreviation loc := nat (only parsing).

(** A Python value: an immediate, a NumPy scalar, or a reference to an object
    of the store. *)
Inductive value :=
  | VNone
  | VInt (z : Z)
  | VStr (s : string)
  | VNp (s : npscalar)
  | VRef (l : loc).

(** The header of an [np.ndarray]: its shape and the block of a buffer it
    covers (C order).  A view shares the buffer of its base array. *)
Record ndarray := Ndarray { shape : list nat; base : loc; offset : nat }.

Definition size_of (sh : list nat) : nat := fold_right Nat.mul 1%nat sh.

Inductive obj :=
  | OList (items : list value)
  | OTuple (items : list value)
  | ONdarray (a : ndarray)
  | OBuffer (b : buffer)
  | ONamespace (attrs : gmap string value)      (* types.SimpleNamespace *)
  | ODataset (pixel_array : option value).      (* pydicom FileDataset *)

Record state := State { heap : list obj; log : list string }.

(** [BadStore] is not a Python exception: it is the answer of the model on a
    store that no Python program builds (a dangling reference, a header whose
    buffer is not a buffer). *)
Inductive exn := TypeError | ValueError | AttributeError | BadStore.

Inductive outcome (A : Type) :=
  | Ok (a : A) (s : state)
  | Raise (e : exn) (s : state).
Arguments Ok {A} a s.
Arguments Raise {A} e s.

Definition final {A} (r : outcome A) : state :=
  match r with Ok _ s => s | Raise _ s => s end.

Definition M (A : Type) : Type := state -> outcome A.

#[global] Instance M_ret : MRet M := fun A a s => Ok a s.
#[global] Instance M_bind : MBind M := fun A B f m s =>
  match m s with
  | Ok a s' => f a s'
  | Raise e s' => Raise e s'
  end.

Definition raise {A} (e : exn) : M A := fun s => Raise e s.

Definition alloc (o : obj) : M loc := fun s =>
  Ok (length (heap s)) {| heap := heap s ++ [o]; log := log s |}.

Definition load (l : loc) : M obj := fun s =>
  match heap s !! l with
  | Some o => Ok o s
  | None => Raise BadStore s
  end.

Definition store (l : loc) (o : obj) : M unit := fun s =>
  Ok tt {| heap := <[l := o]> (heap s); log := log s |}.

Definition logger_info (msg : string) : M unit := fun s =>
  Ok tt {| heap := heap s; log := log s ++ [msg] |}.

Definition of_option {A} (e : exn) (o : option A) : M A :=
  match o with Some a => mret a | None => raise e end.

Fixpoint mapM {A B} (f : A -> M B) (l : list A) : M (list B) :=
  match l with
  | [] => mret []
  | x :: l' => y ← f x; ys ← mapM f l'; mret (y :: ys)
  end.

(** *** Arrays in the store *)

Definition load_buffer (l : loc) : M buffer :=
  o ← load l;
  match o with
  | OBuffer b => mret b
  | _ => raise BadStore
  end.

(** The elements of an array, read through its header. *)
Definition contents (a : ndarray) : M buffer :=
  b ← load_buffer (base a);
  mret (window (offset a) (size_of (shape a)) b).

Definition load_ndarray (v : value) : M (option ndarray) :=
  match v with
  | VRef l =>
      o ← load l;
      match o with
      | ONdarray a => mret (Some a)
      | _ => mret None
      end
  | _ => mret None
  end.

Definition new_array (sh : list nat) (b : buffer) : M value :=
  lb ← alloc (OBuffer b);
  la ← alloc (ONdarray {| shape := sh; base := lb; offset := 0 |});
  mret (VRef la).

(** [np.max(pixels)], [np.min(pixels)]: an empty array has no maximum.  A value
    with no [astype] (neither an array nor a NumPy scalar) makes the helper
    fail; the model reports the [AttributeError] of [astype] already here
    (NumPy may reject such a value earlier, with another exception). *)
Definition np_reduce (red : buffer -> option npscalar) (pixels : value) : M npscalar :=
  match pixels with
  | VNp s => mret s
  | _ =>
      oa ← load_ndarray pixels;
      match oa with
      | Some a => b ← contents a; of_option ValueError (red b)
      | None => raise AttributeError
      end
  end.

Definition np_max := np_reduce amax.
Definition np_min := np_reduce amin.

(** [pixels.astype(np.float32)]: always a new array with its own buffer. *)
Definition astype_f32 (pixels : value) : M value :=
  match pixels with
  | VNp s => mret (VNp (FloatS float32 (scalar_astype_float32 s)))
  | _ =>
      oa ← load_ndarray pixels;
      match oa with
      | Some a => b ← contents a; new_array (shape a) (FloatBuf float32 (astype_float32 b))
      | None => raise AttributeError
      end
  end.

(** [a.copy()]. *)
Definition copy (v : value) : M value :=
  match v with
  | VNp s => mret (VNp s)
  | _ =>
      oa ← load_ndarray v;
      match oa with
      | Some a => b ← contents a; new_array (shape a) b
      | None => raise AttributeError
      end
  end.

(** Writing [xs] over the block of the buffer that the header [a] covers. *)
Definition splice (a : ndarray) (xs : list spec_float) (l : list spec_float)
  : list spec_float :=
  take (offset a) l ++ xs ++ drop (offset a + size_of (shape a)) l.

(** [target op= y].  On an array the elements are overwritten in place and
    the name stays bound to the same object; on a NumPy scalar the name is
    rebound to the result.  The only arrays the code updates are float32. *)
Definition inplace (o : binop) (target : value) (y : operand) : M value :=
  match target with
  | VNp s => r ← of_option TypeError (scalar_iop o s y); mret (VNp r)
  | _ =>
      oa ← load_ndarray target;
      match oa with
      | Some a =>
          b ← load_buffer (base a);
          match b with
          | FloatBuf float32 l =>
              xs ← of_option TypeError
                     (array_op o y (take (size_of (shape a)) (drop (offset a) l)));
              store (base a) (OBuffer (FloatBuf float32 (splice a xs l)));;
              mret target
          | _ => raise BadStore
          end
      | None => raise TypeError
      end
  end.

(** ** [Normalize] *)

(** The type tests of [extract_pixels]. *)
Inductive pytype := TList | TNdarray | TSimpleNamespace | TFileDataset | TOther.

Definition type_of (v : value) : M pytype :=
  match v with
  | VRef l =>
      o ← load l;
      mret match o with
           | OList _ => TList
           | ONdarray _ => TNdarray
           | ONamespace _ => TSimpleNamespace
           | ODataset _ => TFileDataset
           | _ => TOther
           end
  | _ => mret TOther
  end.

(** [image.pixels] on a [SimpleNamespace], [image.pixel_array] on a dataset. *)
Definition get_pixels (image : value) : M value :=
  match image with
  | VRef l =>
      o ← load l;
      match o with
      | ONamespace attrs => of_option AttributeError (attrs !! "pixels"%string)
      | _ => raise AttributeError
      end
  | _ => raise AttributeError
  end.

Definition get_pixel_array (image : value) : M value :=
  match image with
  | VRef l =>
      o ← load l;
      match o with
      | ODataset pa => of_option AttributeError pa
      | _ => raise AttributeError
      end
  | _ => raise AttributeError
  end.

Definition list_items (v : value) : M (list value) :=
  match v with
  | VRef l =>
      o ← load l;
      match o with
      | OList items => mret items
      | _ => raise BadStore
      end
  | _ => raise BadStore
  end.

Definition when (b : bool) (m : M unit) : M unit := if b then m else mret tt.

(** [lst.append(x)]: the list object is updated in place. *)
Definition list_append (lst : value) (x : value) : M unit :=
  items ← list_items lst;
  match lst with
  | VRef l => store l (OList (items ++ [x]))
  | _ => raise BadStore
  end.

(** The pixels of one image of the list ([image.pixels], [image.pixel_array]
    or the array itself), as the loop of [extract_pixels] selects them. *)
Definition extract_one (image : value) : M value :=
  t ← type_of image;
  match t with
  | TNdarray => mret image
  | TSimpleNamespace => get_pixels image
  | TFileDataset => get_pixel_array image
  | _ => raise TypeError
  end.

Definition extract_pixels (images : value) (timing : bool) : M value :=
  l ← alloc (OList []);
  let pixels := VRef l in
  pixels ← (t ← type_of images;
            match t with
            | TList =>
                items ← list_items images;
                mapM (fun image => p ← extract_one image; list_append pixels p) items;;
                mret pixels
            | TNdarray =>
                l' ← alloc (OList [images]);
                mret (VRef l')
            | TSimpleNamespace =>
                p ← get_pixels images;
                l' ← alloc (OList [p]);
                mret (VRef l')
            | _ => raise TypeError
            end);
  when timing (logger_info "Extract pixels: %s");;
  mret pixels.

Definition _minmax_helper (pixels : value) (kwargs : gmap string Z) : M value :=
  let bins := default 256 (kwargs !! "bins"%string) in
  max_val ← np_max pixels;
  min_val ← np_min pixels;
  normalized_pixels ← (a ← astype_f32 pixels; copy a);
  normalized_pixels ← inplace Sub normalized_pixels (NpS min_val);
  normalized_pixels ← inplace Div normalized_pixels (NpS (scalar_op Sub max_val min_val));
  normalized_pixels ← inplace Mul normalized_pixels (PyI (bins - 1));
  mret normalized_pixels.

(** [for p in pixels]: the values a [for] loop meets, each handed to [body].
    A list or tuple yields its items.  An array of two or more dimensions
    yields one view per index of its first axis (a new header on the same
    buffer); a 1-d array yields its elements as NumPy scalars; a 0-d array is
    not iterable.  A string yields its characters.  A dataset yields data
    elements, none of which the helper accepts: the model stops there with
    the [AttributeError] of the first one. *)
Definition buffer_scalars (b : buffer) : list value :=
  match b with
  | IntBuf k l => map (fun z => VNp (IntS k z)) l
  | FloatBuf k l => map (fun f => VNp (FloatS k f)) l
  end.

Fixpoint chars (s : string) : list value :=
  match s with
  | EmptyString => []
  | String c s' => VStr (String c EmptyString) :: chars s'
  end.

Definition for_each {B} (pixels : value) (body : value -> M B) : M (list B) :=
  match pixels with
  | VRef l =>
      o ← load l;
      match o with
      | OList items | OTuple items => mapM body items
      | ONdarray a =>
          match shape a with
          | [] => raise TypeError
          | [_] => b ← contents a; mapM body (buffer_scalars b)
          | n :: rest =>
              mapM (fun i =>
                      p ← alloc (ONdarray {| shape := rest; base := base a;
                                             offset := offset a + i * size_of rest |});
                      body (VRef p))
                   (seq 0 n)
          end
      | ONamespace _ => raise TypeError
      | ODataset _ => raise AttributeError
      | OBuffer _ => raise BadStore
      end
  | VStr s => mapM body (chars s)
  | _ => raise TypeError
  end.

(** [minmax] returns the pair [(normalized_pixels, None)]. *)
Definition minmax (pixels : value) (timing : bool) (kwargs : gmap string Z)
  : M (value * value) :=
  ps ← for_each pixels (fun p => _minmax_helper p kwargs);
  l ← alloc (OList ps);
  let normalized_pixels := VRef l in
  when timing (logger_info "minmax: %s");;
  mret (normalized_pixels, VNone).

(** [str.lower()] on code points below 256: A-Z, and the capital letters of
    Latin-1 (all of U+00C0..U+00DE but the multiplication sign U+00D7). *)
Definition lower_char (c : ascii) : ascii :=
  let n := N_of_ascii c in
  if ((65 <=? n) && (n <=? 90)
      || (192 <=? n) && (n <=? 222) && negb (n =? 215))%N
  then ascii_of_N (n + 32)
  else c.

Fixpoint lower (s : string) : string :=
  match s with
  | EmptyString => EmptyString
  | String c s' => String (lower_char c) (lower s')
  end.

Definition norm_registry
  : gmap string (value -> bool -> gmap string Z -> M (value * value)) :=
  <["minmax"%string := minmax]> (<["min-max"%string := minmax]> ∅).

Definition get_norm (pixels : value) (norm_type : string) (timing : bool)
    (kwargs : gmap string Z) : M (value * value) :=
  pixels ← extract_pixels pixels false;
  match norm_registry !! lower norm_type with
  | None => raise ValueError
  | Some norm_func =>
      r ← norm_func pixels timing kwargs;
      let normalized_pixels := r.1 in
      when timing (logger_info "get_norm: %s");;
      mret (normalized_pixels, VNone)
  end.

(** ** Reading results back *)

(** The dtype, shape and elements of the array a value refers to. *)
Definition read_array (s : state) (v : value) : option (list nat * buffer) :=
  match v with
  | VRef l =>
      match heap s !! l with
      | Some (ONdarray a) =>
          match heap s !! base a with
          | Some (OBuffer b) => Some (shape a, window (offset a) (size_of (shape a)) b)
          | _ => None
          end
      | _ => None
      end
  | _ => None
  end.

Definition read_list (s : state) (v : value) : option (list value) :=
  match v with
  | VRef l =>
      match heap s !! l with
      | Some (OList items) => Some items
      | _ => None
      end
  | _ => None
  end.

(** The items of the list a computation returns. *)
Definition read_list_of (r : outcome value) : outcome (list value) :=
  match r with
  | Ok v s =>
      match read_list s v with
      | Some items => Ok items s
      | None => Raise BadStore s
      end
  | Raise e s => Raise e s
  end.

(** A store holding one array: its buffer at 0 and its header at 1. *)
Definition one_array (sh : list nat) (b : buffer) : state :=
  {| heap := [OBuffer b; ONdarray {| shape := sh; base := 0%nat; offset := 0 |}];
     log := [] |}.

Definition result_of {A} (r : outcome A) : option A :=
  match r with Ok a _ => Some a | Raise _ _ => None end.

(** The result of the helper on a single array, read back from the store. *)
Definition run_helper (sh : list nat) (b : buffer) (kwargs : gmap string Z)
  : option (list nat * buffer) :=
  match _minmax_helper (VRef 1%nat) kwargs (one_array sh b) with
  | Ok v s => read_array s v
  | Raise _ _ => None
  end.

(** The helper applied twice: to an array, then to its own result, in the
    store the first call leaves.  Both results are read back at the end. *)
Definition run_helper_twice (sh : list nat) (b : buffer) (kwargs : gmap string Z)
  : option ((list nat * buffer) * (list nat * buffer)) :=
  match _minmax_helper (VRef 1%nat) kwargs (one_array sh b) with
  | Ok v s =>
      match _minmax_helper v kwargs s with
      | Ok v' s' =>
          match read_array s' v, read_array s' v' with
          | Some r, Some r' => Some (r, r')
          | _, _ => None
          end
      | Raise _ _ => None
      end
  | Raise _ _ => None
  end.

(** ** The arithmetic of the helper on the elements

    What [_minmax_helper] computes from the elements [b] of its argument:
    [None] when the array is empty or an operand fits no loop. *)
Definition divisor (b : buffer) : option npscalar :=
  match amax b, amin b with
  | Some max_val, Some min_val => Some (scalar_op Sub max_val min_val)
  | _, _ => None
  end.

Definition normalize (bins : Z) (b : buffer) : option (list spec_float) :=
  match amax b, amin b with
  | Some max_val, Some min_val =>
      xs ← array_op Sub (NpS min_val) (astype_float32 b);
      ys ← array_op Div (NpS (scalar_op Sub max_val min_val)) xs;
      array_op Mul (PyI (bins - 1)) ys
  | _, _ => None
  end.

(** * The vocabulary of the statements

    Stores, predicates and auxiliary functions that the properties below are
    stated with. *)

(** ** Stores *)

Definition empty_store : state := {| heap := []; log := [] |}.

(** [grow s ext]: the store [s] with the objects [ext] allocated after it. *)
Definition grow (s : state) (ext : list obj) : state :=
  {| heap := heap s ++ ext; log := log s |}.

(** [fresh_array s sh b]: the store [s] with a new array allocated after it,
    its buffer first and then the header that covers it. *)
Definition fresh_array (s : state) (sh : list nat) (b : buffer) : state :=
  grow s [OBuffer b; ONdarray {| shape := sh; base := length (heap s); offset := 0 |}].

(** A store with two arrays, a namespace on the second, and the list
    [[array, namespace]]. *)
Definition two_arrays : state :=
  {| heap := [OBuffer (IntBuf uint8 [0; 10; 20; 30]);
              ONdarray {| shape := [2%nat; 2%nat]; base := 0%nat; offset := 0 |};
              OBuffer (IntBuf uint16 [5; 9]);
              ONdarray {| shape := [2%nat]; base := 2%nat; offset := 0 |};
              ONamespace (<["pixels"%string := VRef 3%nat]> ∅);
              OList [VRef 1%nat; VRef 4%nat]];
     log := [] |}.

(** The buffer of an array built from integer literals, in a given dtype. *)
Definition buffer_of (d : dtype) (l : list Z) : buffer :=
  match d with
  | DInt k => IntBuf k l
  | DFloat k => FloatBuf k (map (of_Z k) l)
  end.

(** ** What the helper returns and leaves *)

(** [kwargs.get("bins", 256)]. *)
Definition helper_bins (kwargs : gmap string Z) : Z :=
  default 256 (kwargs !! "bins"%string).

(** The store after a call of the helper that returns the elements [ys]: the
    array of [astype], then the array of [copy] with its final elements. *)
Definition helper_final (s : state) (sh : list nat) (b : buffer) (ys : list spec_float)
  : state :=
  fresh_array (fresh_array s sh (FloatBuf float32 (astype_float32 b))) sh
    (FloatBuf float32 ys).

(** The array the helper returns: the fourth object it allocates. *)
Definition helper_result (s : state) : value := VRef (length (heap s) + 3)%nat.

(** What [get_norm] does once [norm_type] has resolved to [minmax]. *)
Definition get_norm_minmax (pixels : value) (timing : bool) (kwargs : gmap string Z)
  : M (value * value) :=
  pixels ← extract_pixels pixels false;
  r ← minmax pixels timing kwargs;
  when timing (logger_info "get_norm: %s");;
  mret (r.1, VNone).

(** Numeric equality of two arrays, as [np.array_equal]: same shape and
    [==] on every pair of elements. *)
Definition array_equal (r r' : list nat * buffer) : bool :=
  match r, r' with
  | (sh, FloatBuf _ xs), (sh', FloatBuf _ ys) =>
      bool_decide (sh = sh') && bool_decide (length xs = length ys)
      && forallb (fun p => SFeqb p.1 p.2) (zip xs ys)
  | (sh, IntBuf _ xs), (sh', IntBuf _ ys) =>
      bool_decide (sh = sh') && bool_decide (xs = ys)
  | _, _ => false
  end.

(** ** Well-formed arrays and scalars *)

Definition in_range (k : ikind) (z : Z) : Prop := imin k <= z <= imax k.

(** The integers of a buffer are values of its dtype. *)
Definition buffer_wf (b : buffer) : Prop :=
  match b with
  | IntBuf k l => Forall (in_range k) l
  | FloatBuf _ _ => True
  end.

Definition scalar_wf (x : npscalar) : Prop :=
  match x with
  | IntS k z => in_range k z
  | FloatS _ _ => True
  end.

(** A Python int that NumPy takes as a 64 bit integer. *)
Definition int_operand (z : Z) : Prop := - 2 ^ 63 <= z <= 2 ^ 64 - 1.

(** [x == y] on NumPy scalars. *)
Definition scalar_eqb (x y : npscalar) : bool :=
  match x, y with
  | IntS _ a, IntS _ b => a =? b
  | FloatS _ a, FloatS _ b => SFeqb a b
  | _, _ => false
  end.

Definition scalar_finite (x : npscalar) : bool :=
  match x with
  | IntS _ _ => true
  | FloatS _ f => is_finite f
  end.

Definition scalar_is_zero (x : npscalar) : bool :=
  match x with
  | IntS _ z => z =? 0
  | FloatS _ (S754_zero _) => true
  | FloatS _ _ => false
  end.

Definition nan_or_inf (x : spec_float) : bool := is_nan x || is_inf x.

(** ** Frame *)

(** [extends s s']: every object of [s] is in [s'], at its address and
    unchanged; [s'] may hold new objects after them, and new log records. *)
Definition extends (s s' : state) : Prop :=
  exists ext msgs, heap s' = heap s ++ ext /\ log s' = log s ++ msgs.

(** [frames m]: the computation [m] only allocates and logs. *)
Definition frames {A} (m : M A) : Prop := forall s, extends s (final (m s)).

(** [still m]: the computation [m] reads the store and changes nothing. *)
Definition still {A} (m : M A) : Prop := forall s, final (m s) = s.

(** [fresh_in s s' v]: the value [v] is a NumPy scalar, or an array of [s']
    whose header and buffer were both allocated after [s]. *)
Definition fresh_in (s s' : state) (v : value) : Prop :=
  match v with
  | VNp _ => True
  | VRef l =>
      exists a, heap s' !! l = Some (ONdarray a)
                /\ (length (heap s) <= l)%nat /\ (length (heap s) <= base a)%nat
  | _ => False
  end.

Definition is_list (o : obj) : Prop := exists items, o = OList items.

Definition is_ndarray (s : state) (v : value) : Prop :=
  exists l a, v = VRef l /\ heap s !! l = Some (ONdarray a).

(** ** What [np.max] and [np.min] answer *)

(** [is_max b r]: the scalar [r] has the dtype of the elements [b], is one of
    them, and none of them is greater; among floats with a NaN it is NaN.
    [is_min] likewise, with none smaller.  The zeros [+0.0] and [-0.0]
    compare equal: where both are extreme, either is a maximum (a minimum). *)
Definition is_max (b : buffer) (r : npscalar) : Prop :=
  match b, r with
  | IntBuf k l, IntS k' z => k' = k /\ z ∈ l /\ Forall (fun x => x <= z) l
  | FloatBuf k l, FloatS k' f =>
      k' = k /\ f ∈ l /\ (f = S754_nan \/ Forall (fun x => SFleb x f = true) l)
  | _, _ => False
  end.

Definition is_min (b : buffer) (r : npscalar) : Prop :=
  match b, r with
  | IntBuf k l, IntS k' z => k' = k /\ z ∈ l /\ Forall (fun x => z <= x) l
  | FloatBuf k l, FloatS k' f =>
      k' = k /\ f ∈ l /\ (f = S754_nan \/ Forall (fun x => SFleb f x = true) l)
  | _, _ => False
  end.

(** The three in-place operations of the helper on float32 elements [xs],
    with the maximum [max_val] and the minimum [min_val]: minus [min_val],
    divided by [max_val - min_val], times [bins - 1]. *)
Definition steps (bins : Z) (max_val min_val : npscalar) (xs : list spec_float)
  : option (list spec_float) :=
  xs ← array_op Sub (NpS min_val) xs;
  ys ← array_op Div (NpS (scalar_op Sub max_val min_val)) xs;
  array_op Mul (PyI (bins - 1)) ys.

(** The steps on the elements [b] of an array, taken to float32. *)
Definition rescaled (bins : Z) (max_val min_val : npscalar) (b : buffer)
  : option (list spec_float) :=
  steps bins max_val min_val (astype_float32 b).

(** [normalized bins b ys]: [ys] are the elements [b] rescaled with a maximum
    and a minimum of [b] itself, and of no other elements. *)
Definition normalized (bins : Z) (b : buffer) (ys : list spec_float) : Prop :=
  exists max_val min_val,
    is_max b max_val /\ is_min b min_val /\ rescaled bins max_val min_val b = Some ys.

(** ** Slices along the first axis *)

(** The [i]-th slice of an array along its first axis, and its elements. *)
Definition view (a : ndarray) (i : nat) : ndarray :=
  {| shape := tail (shape a); base := base a;
     offset := offset a + i * size_of (tail (shape a)) |}.

Definition row (a : ndarray) (buf : buffer) (i : nat) : buffer :=
  window (offset (view a i)) (size_of (tail (shape a))) buf.

(** The body of the loop of [minmax] on the [i]-th slice. *)
Definition on_slice (a : ndarray) (kwargs : gmap string Z) (i : nat) : M value :=
  p ← alloc (ONdarray (view a i));
  _minmax_helper (VRef p) kwargs.

(** [p] is a float32 array of the shape of a slice, holding the elements of
    the [i]-th slice rescaled with the maximum and minimum of that slice. *)
Definition row_result (a : ndarray) (buf : buffer) (kwargs : gmap string Z)
    (s : state) (i : nat) (p : value) : Prop :=
  exists ys, normalized (helper_bins kwargs) (row a buf i) ys
             /\ read_array s p = Some (tail (shape a), FloatBuf float32 ys).

(** [minmax] applied to a single array (not to a list holding it): the
    arrays of the list it returns, read back from the store. *)
Definition run_minmax_direct (sh : list nat) (b : buffer) (kwargs : gmap string Z)
  : option (list (option (list nat * buffer))) :=
  match minmax (VRef 1%nat) false kwargs (one_array sh b) with
  | Ok r s =>
      match read_list s r.1 with
      | Some ps => Some (map (read_array s) ps)
      | None => None
      end
  | Raise _ _ => None
  end.

(** ** The order of floats *)

(** A key whose lexicographic order is the order of the floats that are no
    NaN: the class of the number first (an infinity, a finite number by its
    sign, zero), then exponent and mantissa, reversed below zero. *)
Definition fkey (x : spec_float) : Z * Z * Z :=
  match x with
  | S754_zero _ | S754_nan => (0, 0, 0)
  | S754_infinity false => (2, 0, 0)
  | S754_infinity true => (-2, 0, 0)
  | S754_finite false m e => (1, e, Zpos m)
  | S754_finite true m e => (-1, - e, - Zpos m)
  end.

Definition lex_compare (p q : Z * Z * Z) : comparison :=
  match p.1.1 ?= q.1.1 with
  | Eq => match p.1.2 ?= q.1.2 with
          | Eq => p.2 ?= q.2
          | c => c
          end
  | c => c
  end.

Definition lex_le (p q : Z * Z * Z) : Prop :=
  p.1.1 < q.1.1
  \/ (p.1.1 = q.1.1 /\ (p.1.2 < q.1.2 \/ (p.1.2 = q.1.2 /\ p.2 <= q.2))).

(** ** binary32 *)

(** The number of binary digits of a mantissa. *)
Definition digits (m : positive) : Z := Zpos (digits2_pos m).

(** A shift record that has lost no bit. *)
Definition is_exact (x : shr_record) : Prop := shr_r x = false /\ shr_s x = false.

(** [shifted n x y]: the record [y] is [x] shifted right by [n] bits. *)
Definition shifted (n : Z) (x y : shr_record) : Prop :=
  shr_m y = shr_m x / 2 ^ n
  /\ (is_exact x -> shr_m x mod 2 ^ n = 0 -> is_exact y).

(** The outcomes of rounding [mx * 2 ^ ex] when [mx] has [n] digits more than
    [prec] and the result is in the normal range: the mantissa [mx / 2 ^ n],
    or the next one, with a carry into the exponent when that is [2 ^ prec]. *)
Definition rounded (prec : Z) (mx : positive) (ex n : Z) (M : positive) (E : Z) : Prop :=
  (Zpos M = Zpos mx / 2 ^ n /\ E = ex + n)
  \/ (Zpos M = Zpos mx / 2 ^ n + 1 /\ E = ex + n)
  \/ (Zpos M = 2 ^ (prec - 1) /\ E = ex + n + 1 /\ Zpos mx / 2 ^ n + 1 = 2 ^ prec).

(** [F32 z]: the float32 of the integer [z]. *)
Abbreviation F32 := (of_Z float32).

(** The normal mantissa of a positive integer of at most 24 bits. *)
Definition norm (z : positive) : positive := Z.to_pos (Zpos z * 2 ^ (24 - digits z)).

(** A normal float32 in (0, 1]: what the division by the range yields. *)
Definition unit_float (q : spec_float) : Prop :=
  exists M E, q = S754_finite false M E /\ digits M = 24 /\ -47 <= E
              /\ (E < -23 \/ (E = -23 /\ Zpos M = 2 ^ 23)).

(** The order of two positive normal numbers: by exponent, then by mantissa. *)
Definition le_float (M : positive) (E : Z) (Mb : positive) (Eb : Z) : Prop :=
  E < Eb \/ (E = Eb /\ Zpos M <= Zpos Mb).

(** The floats between 0 and [b]: zero, or positive and at most [F32 b]. *)
Definition below (b : positive) (x : spec_float) : Prop :=
  x = S754_zero false
  \/ exists M E, x = S754_finite false M E /\ le_float M E (norm b) (digits b - 24).

Definition nonneg (x : spec_float) : Prop :=
  x = S754_zero false \/ exists M E, x = S754_finite false M E.

(** One element of the normalization in float32 loops: [z] minus the minimum
    [mn], divided by the range [d], times [b]. *)
Definition rescale (mn d b z : Z) : spec_float :=
  SFmul 24 128 (SFdiv 24 128 (SFsub 24 128 (F32 z) (F32 mn)) (F32 d)) (F32 b).

(** ** Rounding to nearest, ties to even

    The rounding of [SpecFloat] works on a mantissa and the position of what
    was cut from it.  For a quotient [N / D] of integers ([0 <= N], [0 < D])
    these are the integer part and the place of the remainder: none, below
    the half of [D], at it, above it. *)
Definition locate (N D : Z) : location :=
  if N mod D =? 0 then loc_Exact else loc_Inexact (2 * (N mod D) ?= D).

Definition shr_rec (N D : Z) : shr_record := shr_record_of_loc (N / D) (locate N D).

(** [rne N D]: the integer nearest to [N / D], the even one on a tie. *)
Definition rne (N D : Z) : Z := round_nearest_even (N / D) (locate N D).

(** The mantissa [m] at exponent [e], brought to the exponent [e + n]: rounded
    when [0 <= n], exact otherwise. *)
Definition rnd_shift (m n : Z) : Z := if 0 <=? n then rne m (2 ^ n) else m * 2 ^ (- n).

(** The last step of a rounding to [prec] bits: the nonnegative mantissa [m]
    at exponent [E].  A mantissa [2 ^ prec] carries into the exponent; an
    exponent above [emax - prec] overflows. *)
Definition finish (prec emax : Z) (s : bool) (m E : Z) : spec_float :=
  if m =? 0 then S754_zero s
  else if m =? 2 ^ prec then
    if E + 1 <=? emax - prec then S754_finite s (Z.to_pos (2 ^ (prec - 1))) (E + 1)
    else S754_infinity s
  else if E <=? emax - prec then S754_finite s (Z.to_pos m) E
  else S754_infinity s.

(** [canon prec emax M E]: the mantissa [M] at exponent [E] is the one way a
    positive number is written in the format: at most [prec] bits, and
    [prec] bits exactly above the least exponent. *)
Definition canon (prec emax : Z) (M E : Z) : Prop :=
  0 < M < 2 ^ prec /\ emin prec emax <= E /\ (E = emin prec emax \/ 2 ^ (prec - 1) <= M).

(** The range of a rounded mantissa [M] at exponent [E], before the carry. *)
Definition in_format (prec emax : Z) (M E : Z) : Prop :=
  0 <= M <= 2 ^ prec /\ emin prec emax <= E
  /\ (E = emin prec emax \/ 2 ^ (prec - 1) <= M).

(** A mantissa of [prec + 1] bits carries into the exponent. *)
Definition carry (prec : Z) (M E : Z) : Z * Z :=
  if M =? 2 ^ prec then (2 ^ (prec - 1), E + 1) else (M, E).

(** A float is a value of the format ([valid_binary]). *)
Definition is_valid (k : fkind) (x : spec_float) : Prop :=
  valid_binary (fprec k) (femax k) x = true.

(** ** Values of a float format *)

(** The floats of a buffer, the float of a scalar, are values of its dtype. *)
Definition float_wf (b : buffer) : Prop :=
  match b with
  | IntBuf _ _ => True
  | FloatBuf k l => Forall (is_valid k) l
  end.

Definition scalar_valid (x : npscalar) : Prop :=
  match x with
  | IntS _ _ => True
  | FloatS k f => is_valid k f
  end.

Definition operand_valid (y : operand) : Prop :=
  match y with
  | NpS x => scalar_valid x
  | PyI _ => True
  end.

(** [nearest k x]: the value of the format [k] nearest to the float [x], the
    one with an even mantissa on a tie, an infinity beyond the largest. *)
Definition nearest (k : fkind) (x : spec_float) : spec_float :=
  match x with
  | S754_finite s m e =>
      let E := fexp (fprec k) (femax k) (digits m + e) in
      finish (fprec k) (femax k) s (rnd_shift (Zpos m) (E - e)) E
  | _ => x
  end.

(** The elements of an array as float32, by the dtype of the array: exact
    conversion of an integer that float32 holds, nearest float32 of a
    float64, the element itself in a float32 array. *)
Definition downcast (b : buffer) : list spec_float :=
  match b with
  | IntBuf _ l => map (of_Z float32) l
  | FloatBuf float32 l => l
  | FloatBuf float64 l => map (nearest float32) l
  end.

(** The array that [astype] allocates in a call of the helper on the store
    [s]: its header is the second object of the call. *)
Definition cast_result (s : state) : value := VRef (S (length (heap s))).

(** ** What [extract_pixels] selects *)

(** The pixels of an image of a list, read from the store: the array itself,
    the attribute [pixels] of a namespace, the [pixel_array] of a dataset. *)
Definition pixels_of (s : state) (image : value) : option value :=
  match image with
  | VRef l =>
      match heap s !! l with
      | Some (ONdarray _) => Some image
      | Some (ONamespace attrs) => attrs !! "pixels"%string
      | Some (ODataset pa) => pa
      | _ => None
      end
  | _ => None
  end.

(** [has_pixels s v]: [v] is a [SimpleNamespace] of [s] with an attribute
    [pixels]. *)
Definition has_pixels (s : state) (v : value) : Prop :=
  exists l attrs p,
    v = VRef l /\ heap s !! l = Some (ONamespace attrs)
    /\ attrs !! "pixels"%string = Some p.

(** What [extract_pixels] raises on a single input of type [t] it cannot
    take: a [SimpleNamespace] passes the type test of line 52 and fails on
    [images.pixels]; any other type reaches the [raise] of line 61. *)
Definition rejection (t : pytype) : exn :=
  match t with
  | TSimpleNamespace => AttributeError
  | _ => TypeError
  end.

(** [selects s items ps]: [ps] are the pixels of the images [items], one for
    one and in their order. *)
Definition selects (s : state) (items ps : list value) : Prop :=
  Forall2 (fun image p => pixels_of s image = Some p) items ps.

(** ** Log records *)

(** [with_log s msgs]: the store [s] after the records [msgs] were logged. *)
Definition with_log (s : state) (msgs : list string) : state :=
  {| heap := heap s; log := log s ++ msgs |}.

(** What a timed call adds to the log when it returns. *)
Definition timed {A} (msgs : list string) (r : outcome A) : outcome A :=
  match r with
  | Ok a s => Ok a (with_log s msgs)
  | Raise e s => Raise e s
  end.

(** [quiet m]: the computation [m] logs nothing. *)
Definition quiet {A} (m : M A) : Prop := forall s, log (final (m s)) = log s.

(** ** Images and their normalization *)

(** [is_image s v]: [v] is an array of [s] with at least one element, whose
    integers are values of its dtype. *)
Definition is_image (s : state) (v : value) : Prop :=
  exists sh b, read_array s v = Some (sh, b) /\ buffer_wf b /\ buffer_length b <> 0%nat.

(** [image_result kwargs s s' image p]: in [s'] the value [p] is a float32
    array of the shape of the array [image] of [s], allocated after [s]
    with a buffer of its own, holding the elements of [image] rescaled with
    the maximum and minimum of [image] itself. *)
Definition image_result (kwargs : gmap string Z) (s s' : state) (image p : value) : Prop :=
  exists sh b ys,
    read_array s image = Some (sh, b)
    /\ normalized (helper_bins kwargs) b ys
    /\ read_array s' p = Some (sh, FloatBuf float32 ys)
    /\ fresh_in s s' p.

(** The names [get_norm] resolves to [minmax]. *)
Definition is_minmax (norm_type : string) : Prop :=
  lower norm_type = "minmax"%string \/ lower norm_type = "min-max"%string.

(** An array with a NaN among its elements. *)
Definition has_nan (b : buffer) : Prop :=
  match b with
  | FloatBuf _ l => S754_nan ∈ l
  | IntBuf _ _ => False
  end.

(** A NumPy float scalar that is NaN. *)
Definition nan_scalar (v : value) : Prop := exists k, v = VNp (FloatS k S754_nan).

(** The dtypes whose scalars meet a float32 in float32: float32 itself and
    the integers of 8 and 16 bits. *)
Definition narrow (b : buffer) : Prop :=
  match b with
  | IntBuf k l => ibits k <= 16 /\ Forall (in_range k) l
  | FloatBuf k _ => k = float32
  end.

(** ** What the helper returns *)

(** [helper_returns s pixels kwargs sh ys]: on the store [s] the helper
    returns a new float32 array of shape [sh] with the elements [ys]. *)
Definition helper_returns (s : state) (pixels : value) (kwargs : gmap string Z)
    (sh : list nat) (ys : list spec_float) : Prop :=
  exists v s',
    _minmax_helper pixels kwargs s = Ok v s'
    /\ read_array s' v = Some (sh, FloatBuf float32 ys).

(** Integers of 8 and 16 bit pixel data. *)
Definition small (z : Z) : Prop := -32768 <= z <= 65535.

(** ** The value of a float32 *)

(** [scaled x]: the value of the finite float [x] times [2 ^ 149], an integer
    for every float32 (whose exponents are at least [-149]). *)
Definition scaled (x : spec_float) : Z :=
  match x with
  | S754_finite s m e => cond_Zopp s (Zpos m * 2 ^ (e + 149))
  | _ => 0
  end.

(** [approximates y num den]: the finite float [y] is the quotient
    [num / den] of two integers ([0 <= num], [0 < den]) up to a relative
    error of two roundings: it lies between [num / den / (1 + u) ^ 2] and
    [num / den * (1 + u) ^ 2] with [u = 2 ^ -23]. *)
Definition approximates (y : spec_float) (num den : Z) : Prop :=
  is_finite y = true
  /\ 2 ^ 46 * (num * 2 ^ 149) <= scaled y * den * (2 ^ 23 + 1) ^ 2
  /\ scaled y * den * 2 ^ 46 <= (2 ^ 23 + 1) ^ 2 * (num * 2 ^ 149).

(** A float below zero. *)
Definition negative (x : spec_float) : Prop := exists M E, x = S754_finite true M E.

(** * Properties *)

(** [SpecFloat] is stated over the integer operations of the core library;
    [stdz] restates them as the ones the lemmas of [ZArith] are about. *)
Ltac stdz :=
  change IntDef.Z.sub with Z.sub in *;
  change IntDef.Z.add with Z.add in *;
  change IntDef.Z.mul with Z.mul in *;
  change IntDef.Z.opp with Z.opp in *;
  change IntDef.Z.min with Z.min in *;
  change IntDef.Z.max with Z.max in *;
  change IntDef.Z.leb with Z.leb in *;
  change IntDef.Z.eqb with Z.eqb in *;
  change IntDef.Z.compare with Z.compare in *;
  change IntDef.Z.even with Z.even in *;
  change IntDef.Z.div_eucl with Z.div_eucl in *;
  change IntDef.Z.shiftl with Z.shiftl in *;
  change PosDef.Pos.mul with Pos.mul in *;
  change @PosDef.Pos.iter with @Pos.iter in *.

(** ** Running the monad *)

Lemma bind_unfold {A B} (m : M A) (f : A -> M B) (s : state) :
  (m ≫= f) s = match m s with Ok a s' => f a s' | Raise e s' => Raise e s' end.
Proof. reflexivity. Qed.

Lemma bind_ok {A B} (m : M A) (f : A -> M B) s a s' :
  m s = Ok a s' -> (m ≫= f) s = f a s'.
Proof. intros H. rewrite bind_unfold, H. reflexivity. Qed.

Lemma bind_raise {A B} (m : M A) (f : A -> M B) s e s' :
  m s = Raise e s' -> (m ≫= f) s = Raise e s'.
Proof. intros H. rewrite bind_unfold, H. reflexivity. Qed.

Lemma ret_unfold {A} (a : A) (s : state) : (mret a : M A) s = Ok a s.
Proof. reflexivity. Qed.

Lemma grow_nil s : grow s [] = s.
Proof. destruct s. unfold grow. simpl. by rewrite app_nil_r. Qed.

Lemma grow_grow s e1 e2 : grow (grow s e1) e2 = grow s (e1 ++ e2).
Proof. unfold grow. simpl. by rewrite app_assoc. Qed.

Lemma alloc_grow o s : alloc o s = Ok (length (heap s)) (grow s [o]).
Proof. reflexivity. Qed.

Lemma load_grow_old s ext l o :
  heap s !! l = Some o -> load l (grow s ext) = Ok o (grow s ext).
Proof.
  intros H. unfold load, grow. simpl.
  rewrite (lookup_app_l_Some _ _ _ _ H). reflexivity.
Qed.

Lemma load_some s l o : heap s !! l = Some o -> load l s = Ok o s.
Proof. intros H. unfold load. by rewrite H. Qed.

Lemma window_length off n b : (buffer_length (window off n b) <= n)%nat.
Proof. destruct b; simpl; rewrite length_take; lia. Qed.

Lemma take_window {A} n (xs : list A) : (length xs <= n)%nat -> take n (drop 0 xs) = xs.
Proof. intros H. rewrite drop_0. by apply take_ge. Qed.

Lemma astype_float32_length b : length (astype_float32 b) = buffer_length b.
Proof. destruct b as [k l|[] l]; simpl; by rewrite ?length_map. Qed.

Lemma array_op_length o y xs ys : array_op o y xs = Some ys -> length ys = length xs.
Proof.
  unfold array_op. destruct (array_loop y); [|done].
  intros [= <-]. by rewrite length_map.
Qed.

(** ** The primitives on an array of the store *)

Section ArrayInStore.
Variables (s : state) (l : loc) (sh : list nat) (b : buffer).
Hypothesis Hread : read_array s (VRef l) = Some (sh, b).

Lemma read_array_header :
  exists a buf, heap s !! l = Some (ONdarray a) /\ heap s !! base a = Some (OBuffer buf)
                /\ shape a = sh /\ window (offset a) (size_of sh) buf = b.
Proof.
  unfold read_array in Hread.
  destruct (heap s !! l) as [[| |a| | |]|] eqn:Hl; try discriminate.
  destruct (heap s !! base a) as [[| | |buf| |]|] eqn:Hb; try discriminate.
  injection Hread as <- <-. by exists a, buf.
Qed.

Lemma load_ndarray_array :
  exists a, load_ndarray (VRef l) s = Ok (Some a) s /\ shape a = sh
            /\ contents a s = Ok b s.
Proof.
  destruct read_array_header as (a & buf & Hl & Hb & Hsh & Hw).
  exists a. split; [|split; [done|]].
  - unfold load_ndarray. rewrite (bind_ok _ _ _ _ _ (load_some _ _ _ Hl)). done.
  - unfold contents, load_buffer.
    rewrite bind_unfold, (bind_ok _ _ _ _ _ (load_some _ _ _ Hb)).
    rewrite ret_unfold, ret_unfold. by rewrite Hsh, Hw.
Qed.

Lemma np_reduce_array red :
  np_reduce red (VRef l) s =
    match red b with Some x => Ok x s | None => Raise ValueError s end.
Proof.
  destruct load_ndarray_array as (a & Ha & _ & Hc).
  unfold np_reduce. rewrite (bind_ok _ _ _ _ _ Ha), (bind_ok _ _ _ _ _ Hc).
  by destruct (red b).
Qed.

Lemma astype_f32_array :
  astype_f32 (VRef l) s =
    Ok (VRef (S (length (heap s))))
       (grow s [OBuffer (FloatBuf float32 (astype_float32 b));
                ONdarray {| shape := sh; base := length (heap s); offset := 0 |}]).
Proof.
  destruct load_ndarray_array as (a & Ha & Hsh & Hc).
  unfold astype_f32. rewrite (bind_ok _ _ _ _ _ Ha), (bind_ok _ _ _ _ _ Hc).
  unfold new_array. rewrite bind_unfold, alloc_grow, bind_unfold, alloc_grow.
  rewrite ret_unfold, grow_grow, Hsh. simpl.
  by rewrite length_app, Nat.add_1_r.
Qed.

Lemma copy_array :
  copy (VRef l) s =
    Ok (VRef (S (length (heap s))))
       (grow s [OBuffer b;
                ONdarray {| shape := sh; base := length (heap s); offset := 0 |}]).
Proof.
  destruct load_ndarray_array as (a & Ha & Hsh & Hc).
  unfold copy. rewrite (bind_ok _ _ _ _ _ Ha), (bind_ok _ _ _ _ _ Hc).
  unfold new_array. rewrite bind_unfold, alloc_grow, bind_unfold, alloc_grow.
  rewrite ret_unfold, grow_grow, Hsh. simpl.
  by rewrite length_app, Nat.add_1_r.
Qed.
End ArrayInStore.

Lemma fresh_array_lookup_header s sh b :
  heap (fresh_array s sh b) !! S (length (heap s))
  = Some (ONdarray {| shape := sh; base := length (heap s); offset := 0 |}).
Proof.
  unfold fresh_array, grow. simpl.
  rewrite lookup_app_r by lia. by replace (S _ - _)%nat with 1%nat by lia.
Qed.

Lemma fresh_array_lookup_buffer s sh b :
  heap (fresh_array s sh b) !! length (heap s) = Some (OBuffer b).
Proof.
  unfold fresh_array, grow. simpl.
  rewrite lookup_app_r by lia. by rewrite Nat.sub_diag.
Qed.

Lemma read_fresh_array s sh b :
  (buffer_length b <= size_of sh)%nat ->
  read_array (fresh_array s sh b) (VRef (S (length (heap s)))) = Some (sh, b).
Proof.
  intros Hlen. unfold read_array.
  rewrite fresh_array_lookup_header. simpl base.
  rewrite fresh_array_lookup_buffer. simpl.
  f_equal. f_equal. destruct b; simpl in *; by rewrite take_window.
Qed.

Lemma read_array_grow s ext v r :
  read_array s v = Some r -> read_array (grow s ext) v = Some r.
Proof.
  destruct v as [| | | |l]; try done. unfold read_array, grow. simpl.
  destruct (heap s !! l) as [[| |a| | |]|] eqn:Hl; try done.
  destruct (heap s !! base a) as [[| | |buf| |]|] eqn:Hb; try done.
  intros H. by rewrite (lookup_app_l_Some _ _ _ _ Hl), (lookup_app_l_Some _ _ _ _ Hb).
Qed.

Lemma inplace_fresh_array o y s sh xs :
  (length xs <= size_of sh)%nat ->
  inplace o (VRef (S (length (heap s)))) y (fresh_array s sh (FloatBuf float32 xs)) =
    match array_op o y xs with
    | Some ys => Ok (VRef (S (length (heap s)))) (fresh_array s sh (FloatBuf float32 ys))
    | None => Raise TypeError (fresh_array s sh (FloatBuf float32 xs))
    end.
Proof.
  intros Hlen. unfold inplace.
  unfold load_ndarray.
  rewrite bind_unfold, (bind_ok _ _ _ _ _ (load_some _ _ _ (fresh_array_lookup_header _ _ _))).
  rewrite ret_unfold. simpl base.
  unfold load_buffer.
  rewrite bind_unfold, (bind_ok _ _ _ _ _ (load_some _ _ _ (fresh_array_lookup_buffer _ _ _))).
  rewrite ret_unfold. simpl shape. simpl offset.
  rewrite take_window by done.
  rewrite bind_unfold.
  destruct (array_op o y xs) as [ys|] eqn:Hop; simpl; [|done].
  rewrite bind_unfold. unfold store, fresh_array, grow. simpl.
  rewrite ret_unfold. do 2 f_equal.
  unfold splice. simpl.
  rewrite drop_ge by lia. rewrite app_nil_r.
  rewrite insert_app_r_alt by lia. by rewrite Nat.sub_diag.
Qed.

(** ** [_minmax_helper] on an array of the store

    The helper leaves the store it was given as it is and allocates four
    objects after it: the buffer and header of [astype], and the buffer and
    header of [copy], which the three in-place steps then overwrite. *)

Lemma helper_array_outcome s l sh b kwargs :
  read_array s (VRef l) = Some (sh, b) ->
  _minmax_helper (VRef l) kwargs s =
    match amax b, amin b with
    | Some max_val, Some min_val =>
        let xs0 := astype_float32 b in
        match array_op Sub (NpS min_val) xs0 with
        | None => Raise TypeError (helper_final s sh b xs0)
        | Some xs1 =>
            match array_op Div (NpS (scalar_op Sub max_val min_val)) xs1 with
            | None => Raise TypeError (helper_final s sh b xs1)
            | Some xs2 =>
                match array_op Mul (PyI (helper_bins kwargs - 1)) xs2 with
                | None => Raise TypeError (helper_final s sh b xs2)
                | Some ys => Ok (helper_result s) (helper_final s sh b ys)
                end
            end
        end
    | _, _ => Raise ValueError s
    end.
Proof.
  intros Hread.
  assert (Hlen : (buffer_length b <= size_of sh)%nat).
  { destruct (read_array_header _ _ _ _ Hread) as (a & buf & _ & _ & _ & <-).
    apply window_length. }
  unfold _minmax_helper, np_max, np_min.
  rewrite bind_unfold, (np_reduce_array _ _ _ _ Hread).
  destruct (amax b) as [max_val|] eqn:Hmax; [|done].
  rewrite bind_unfold, (np_reduce_array _ _ _ _ Hread).
  destruct (amin b) as [min_val|] eqn:Hmin.
  2:{ destruct b as [k [|]|k [|]]; discriminate. }
  rewrite bind_unfold, bind_unfold, (astype_f32_array _ _ _ _ Hread).
  set (xs0 := astype_float32 b).
  assert (Hxs0 : (length xs0 <= size_of sh)%nat)
    by (unfold xs0; by rewrite astype_float32_length).
  change (grow s _) with (fresh_array s sh (FloatBuf float32 xs0)).
  set (s1 := fresh_array s sh (FloatBuf float32 xs0)).
  assert (Hs1 : length (heap s1) = (length (heap s) + 2)%nat).
  { unfold s1, fresh_array, grow. simpl. rewrite length_app. simpl. lia. }
  rewrite (copy_array s1 _ sh (FloatBuf float32 xs0)).
  2:{ unfold s1. by apply read_fresh_array. }
  change (grow s1 _) with (fresh_array s1 sh (FloatBuf float32 xs0)).
  assert (Hres : helper_result s = VRef (S (length (heap s1)))).
  { unfold helper_result. rewrite Hs1. f_equal. lia. }
  rewrite Hres. unfold helper_final. fold xs0. fold s1.
  rewrite bind_unfold, inplace_fresh_array by done.
  destruct (array_op Sub (NpS min_val) xs0) as [xs1|] eqn:H1; [|done].
  pose proof (array_op_length _ _ _ _ H1) as L1.
  rewrite bind_unfold, inplace_fresh_array by lia.
  destruct (array_op Div _ xs1) as [xs2|] eqn:H2; [|done].
  pose proof (array_op_length _ _ _ _ H2) as L2.
  rewrite bind_unfold, inplace_fresh_array by lia.
  fold (helper_bins kwargs).
  destruct (array_op Mul _ xs2) as [ys|] eqn:H3; [|done].
  by rewrite ret_unfold.
Qed.

Lemma normalize_length bins b ys :
  normalize bins b = Some ys -> length ys = buffer_length b.
Proof.
  unfold normalize. destruct (amax b), (amin b); try done.
  destruct (array_op Sub _ _) as [xs1|] eqn:H1; [|done]. simpl.
  destruct (array_op Div _ _) as [xs2|] eqn:H2; [|done]. simpl.
  intros H3.
  rewrite (array_op_length _ _ _ _ H3), (array_op_length _ _ _ _ H2),
    (array_op_length _ _ _ _ H1). apply astype_float32_length.
Qed.

(** When the arithmetic goes through, the helper returns a new float32 array
    of the shape of its argument, holding [normalize bins] of its elements. *)
Lemma helper_array s l sh b kwargs ys :
  read_array s (VRef l) = Some (sh, b) ->
  normalize (helper_bins kwargs) b = Some ys ->
  _minmax_helper (VRef l) kwargs s = Ok (helper_result s) (helper_final s sh b ys)
  /\ read_array (helper_final s sh b ys) (helper_result s)
     = Some (sh, FloatBuf float32 ys).
Proof.
  intros Hread Hnorm.
  assert (Hlen : (buffer_length b <= size_of sh)%nat).
  { destruct (read_array_header _ _ _ _ Hread) as (a & buf & _ & _ & _ & <-).
    apply window_length. }
  pose proof (normalize_length _ _ _ Hnorm) as Hys.
  split.
  - rewrite (helper_array_outcome _ _ _ _ _ Hread). cbv zeta.
    unfold normalize in Hnorm.
    destruct (amax b), (amin b); try done.
    destruct (array_op Sub _ _) as [xs1|]; [|done]. simpl in Hnorm.
    destruct (array_op Div _ _) as [xs2|]; [|done]. simpl in Hnorm.
    by rewrite Hnorm.
  - unfold helper_final, helper_result.
    set (s1 := fresh_array s sh _).
    replace (length (heap s) + 3)%nat with (S (length (heap s1))).
    + apply read_fresh_array. simpl. lia.
    + unfold s1, fresh_array, grow. simpl. rewrite length_app. simpl. lia.
Qed.

(** ** [get_norm]: the dispatch on [norm_type] *)

Lemma registry_miss (name : string) :
  name <> "minmax"%string -> name <> "min-max"%string -> norm_registry !! name = None.
Proof.
  intros H1 H2. unfold norm_registry.
  rewrite lookup_insert_ne by done. rewrite lookup_insert_ne by done.
  apply lookup_empty.
Qed.

Lemma registry_hit (name : string) :
  name = "minmax"%string \/ name = "min-max"%string ->
  norm_registry !! name = Some minmax.
Proof.
  unfold norm_registry. intros [-> | ->].
  - by rewrite lookup_insert_eq.
  - rewrite lookup_insert_ne by done. by rewrite lookup_insert_eq.
Qed.

Lemma get_norm_hit pixels norm_type timing kwargs s :
  lower norm_type = "minmax"%string \/ lower norm_type = "min-max"%string ->
  get_norm pixels norm_type timing kwargs s = get_norm_minmax pixels timing kwargs s.
Proof.
  intros H. unfold get_norm, get_norm_minmax.
  rewrite !bind_unfold. destruct (extract_pixels pixels false s); [|done].
  by rewrite (registry_hit _ H).
Qed.

Lemma get_norm_miss pixels norm_type timing kwargs s :
  lower norm_type <> "minmax"%string -> lower norm_type <> "min-max"%string ->
  get_norm pixels norm_type timing kwargs s =
    match extract_pixels pixels false s with
    | Ok _ s' => Raise ValueError s'
    | Raise e s' => Raise e s'
    end.
Proof.
  intros H1 H2. unfold get_norm.
  rewrite bind_unfold. destruct (extract_pixels pixels false s); [|done].
  by rewrite (registry_miss _ H1 H2).
Qed.

(** C3 (as stated, refuted): [get_norm(42, "bogus")] does not fail with the
    [ValueError] of an invalid normalization type: [extract_pixels] runs first
    and rejects [42] with a [TypeError]. *)
Lemma C3_get_norm_bogus_counterexample :
  get_norm (VInt 42) "bogus" false ∅ empty_store
  = Raise TypeError (grow empty_store [OList []])
  /\ forall s', get_norm (VInt 42) "bogus" false ∅ empty_store <> Raise ValueError s'.
Proof. split; [reflexivity | intros s'; discriminate]. Qed.

(** C3 (amended): with a [norm_type] that is no case-insensitive match of
    "minmax" or "min-max", [get_norm] never returns: it fails with the error of
    [extract_pixels] when that rejects the input, and with [ValueError]
    (the invalid normalization type) for every input [extract_pixels]
    accepts. *)
Theorem C3_get_norm_invalid_type pixels norm_type timing kwargs s :
  lower norm_type <> "minmax"%string -> lower norm_type <> "min-max"%string ->
  (forall p s', extract_pixels pixels false s = Ok p s' ->
                get_norm pixels norm_type timing kwargs s = Raise ValueError s')
  /\ (forall e s', extract_pixels pixels false s = Raise e s' ->
                   get_norm pixels norm_type timing kwargs s = Raise e s')
  /\ result_of (get_norm pixels norm_type timing kwargs s) = None.
Proof.
  intros H1 H2. rewrite (get_norm_miss _ _ _ _ _ H1 H2).
  repeat split.
  - by intros p s' ->.
  - by intros e s' ->.
  - by destruct (extract_pixels pixels false s).
Qed.

Lemma C3_get_norm_invalid_type_witness :
  get_norm (VRef 1%nat) "bogus" true ∅ (one_array [2%nat] (IntBuf uint8 [3; 4]))
  = Raise ValueError
      (grow (one_array [2%nat] (IntBuf uint8 [3; 4])) [OList []; OList [VRef 1%nat]]).
Proof.
  refine (proj1 (C3_get_norm_invalid_type (VRef 1%nat) "bogus" true ∅
                   (one_array [2%nat] (IntBuf uint8 [3; 4])) _ _) (VRef 3%nat) _ _).
  - vm_compute. discriminate.
  - vm_compute. discriminate.
  - reflexivity.
Defined.

(** C6: the lookup of [norm_type] is case-insensitive and both registered
    names resolve to [minmax]: for every input, store and options,
    [get_norm] with a [norm_type] whose lower-case form is "minmax" or
    "min-max" — in particular "minmax", "MinMax", "MIN-MAX" and "min-max" —
    is the one computation [extract_pixels] then [minmax], so all of them
    return the same result. *)
Theorem C6_get_norm_case_insensitive pixels timing kwargs s norm_type :
  lower norm_type = "minmax"%string \/ lower norm_type = "min-max"%string ->
  get_norm pixels norm_type timing kwargs s = get_norm_minmax pixels timing kwargs s
  /\ get_norm pixels "minmax" timing kwargs s = get_norm_minmax pixels timing kwargs s
  /\ get_norm pixels "MinMax" timing kwargs s = get_norm_minmax pixels timing kwargs s
  /\ get_norm pixels "MIN-MAX" timing kwargs s = get_norm_minmax pixels timing kwargs s
  /\ get_norm pixels "min-max" timing kwargs s = get_norm_minmax pixels timing kwargs s.
Proof.
  intros H. split; [by apply get_norm_hit|].
  repeat split; apply get_norm_hit; vm_compute; auto.
Qed.

Lemma C6_get_norm_case_insensitive_witness :
  get_norm (VRef 1%nat) "Min-Max" true ∅ (one_array [2%nat] (IntBuf uint8 [3; 4]))
  = get_norm (VRef 1%nat) "MINMAX" true ∅ (one_array [2%nat] (IntBuf uint8 [3; 4])).
Proof.
  etransitivity.
  - apply (C6_get_norm_case_insensitive (VRef 1%nat) true ∅
             (one_array [2%nat] (IntBuf uint8 [3; 4])) "Min-Max").
    right. reflexivity.
  - symmetry.
    apply (C6_get_norm_case_insensitive (VRef 1%nat) true ∅
             (one_array [2%nat] (IntBuf uint8 [3; 4])) "MINMAX").
    left. reflexivity.
Defined.

(** ** [extract_pixels]: the type tests *)

Lemma type_of_grow v s ext t :
  type_of v s = Ok t s -> type_of v (grow s ext) = Ok t (grow s ext).
Proof.
  destruct v as [| | | |l]; try by intros [= <-].
  unfold type_of, load. rewrite !bind_unfold.
  destruct (heap s !! l) as [o|] eqn:Hl; [|done].
  unfold grow at 1. cbn [heap]. rewrite (lookup_app_l_Some _ _ _ _ Hl).
  by intros [= <-].
Qed.

(** C8, as the claim states it, fails: a [SimpleNamespace] without the
    attribute [pixels] is a single input that is neither a list, nor an
    array, nor a record with a [pixels] field, and [extract_pixels] raises
    [AttributeError] on it, never [TypeError]. *)
Lemma C8_extract_pixels_namespace_counterexample :
  let s := {| heap := [ONamespace ∅]; log := [] |} in
  type_of (VRef 0%nat) s = Ok TSimpleNamespace s
  /\ ~ has_pixels s (VRef 0%nat)
  /\ forall timing,
       extract_pixels (VRef 0%nat) timing s = Raise AttributeError (grow s [OList []])
       /\ forall s', extract_pixels (VRef 0%nat) timing s <> Raise TypeError s'.
Proof.
  simpl. split; [done|]. split.
  - intros (l & attrs & p & [= <-] & [= <-] & Hp). by rewrite lookup_empty in Hp.
  - by intros [|].
Qed.

(** C8: a single input that is neither a list, nor an array, nor a
    [SimpleNamespace] with an attribute [pixels] makes [extract_pixels]
    fail, whatever [timing] is: with [TypeError] (the unsupported type) when
    it is no [SimpleNamespace] at all — a scalar such as [42], a bare
    dataset, [None], a string, a tuple — and with [AttributeError] when it is
    a [SimpleNamespace] that lacks [pixels].  Nothing is returned and nothing
    is logged; the store holds the objects it held and the empty list of
    [pixels = []]. *)
Theorem C8_extract_pixels_unsupported images timing s t :
  type_of images s = Ok t s ->
  t <> TList -> t <> TNdarray -> ~ has_pixels s images ->
  extract_pixels images timing s = Raise (rejection t) (grow s [OList []]).
Proof.
  intros Ht Hlist Harray Hpixels. unfold extract_pixels.
  rewrite bind_unfold, alloc_grow, bind_unfold, bind_unfold.
  rewrite (type_of_grow _ _ [OList []] _ Ht).
  destruct t; try done.
  destruct images as [| | | |l]; try done.
  unfold type_of, load in Ht. rewrite !bind_unfold in Ht.
  destruct (heap s !! l) as [o|] eqn:Hl; [|done].
  unfold get_pixels, load. rewrite !bind_unfold.
  unfold grow at 1. cbn [heap]. rewrite (lookup_app_l_Some _ _ _ _ Hl).
  destruct o as [| | | |attrs|]; try done.
  destruct (attrs !! "pixels"%string) as [p|] eqn:Hp; [|done].
  destruct Hpixels. by exists l, attrs, p.
Qed.

Lemma C8_extract_pixels_unsupported_witness :
  extract_pixels (VInt 42) true empty_store = Raise TypeError (grow empty_store [OList []])
  /\ extract_pixels (VRef 2%nat) true
       (grow (one_array [1%nat] (IntBuf uint16 [7])) [ODataset (Some (VRef 1%nat))])
     = Raise TypeError
         (grow (one_array [1%nat] (IntBuf uint16 [7]))
            [ODataset (Some (VRef 1%nat)); OList []])
  /\ extract_pixels (VRef 0%nat) true {| heap := [ONamespace ∅]; log := [] |}
     = Raise AttributeError {| heap := [ONamespace ∅; OList []]; log := [] |}.
Proof.
  split; [|split].
  - apply (C8_extract_pixels_unsupported (VInt 42) true empty_store TOther);
      [reflexivity | done | done |].
    by intros (l & attrs & p & [=] & _).
  - apply (C8_extract_pixels_unsupported (VRef 2%nat) true
             (grow (one_array [1%nat] (IntBuf uint16 [7])) [ODataset (Some (VRef 1%nat))])
             TFileDataset);
      [reflexivity | done | done |].
    by intros (l & attrs & p & [= <-] & [=] & _).
  - apply (C8_extract_pixels_unsupported (VRef 0%nat) true
             {| heap := [ONamespace ∅]; log := [] |} TSimpleNamespace);
      [reflexivity | done | done |].
    intros (l & attrs & p & [= <-] & [= <-] & Hp). by rewrite lookup_empty in Hp.
Defined.

(** A [SimpleNamespace] with no [pixels] attribute passes the type test and
    fails on the attribute. *)
Example extract_pixels_namespace_without_pixels :
  extract_pixels (VRef 0%nat) false {| heap := [ONamespace ∅]; log := [] |}
  = Raise AttributeError {| heap := [ONamespace ∅; OList []]; log := [] |}.
Proof. reflexivity. Qed.

(** A dataset is accepted as an item of a list: its [pixel_array] is taken. *)
Example extract_pixels_dataset_in_list :
  result_of (read_list_of (extract_pixels (VRef 3%nat) false
     (grow (one_array [1%nat] (IntBuf uint16 [7]))
        [ODataset (Some (VRef 1%nat)); OList [VRef 2%nat]])))
  = Some [VRef 1%nat].
Proof. reflexivity. Qed.

(** ** Concrete runs of the helper *)

(** C5: on [A = [[0,10],[20,30]]] with [bins = 256] (given, or by default),
    whatever the dtype of [A], the helper returns the float32 array
    [[0,85],[170,255]]: the float32 results of [(v-0)/(30-0)*255] are these
    integers exactly. *)
Theorem C5_minmax_example (d : dtype) :
  run_helper [2%nat; 2%nat] (buffer_of d [0; 10; 20; 30]) (<["bins"%string := 256]> ∅)
  = Some ([2%nat; 2%nat], FloatBuf float32 (map (of_Z float32) [0; 85; 170; 255]))
  /\ run_helper [2%nat; 2%nat] (buffer_of d [0; 10; 20; 30]) ∅
     = Some ([2%nat; 2%nat], FloatBuf float32 (map (of_Z float32) [0; 85; 170; 255])).
Proof. destruct d as [[]|[]]; split; vm_compute; reflexivity. Qed.

(** The usual case is a fixed point: normalizing [[0,85],[170,255]] again gives
    the same array. *)
Example minmax_example_again :
  run_helper_twice [2%nat; 2%nat] (IntBuf uint8 [0; 10; 20; 30]) ∅
  = Some (([2%nat; 2%nat], FloatBuf float32 (map (of_Z float32) [0; 85; 170; 255])),
          ([2%nat; 2%nat], FloatBuf float32 (map (of_Z float32) [0; 85; 170; 255]))).
Proof. vm_compute. reflexivity. Qed.

(** C2: min-max normalization is not idempotent.  With the same [bins] in
    both calls, the int32 array [[16777216, 16777217]] (its two elements are
    one float32) normalizes to [[0, 0]], and that normalizes to
    [[nan, nan]]; the two results differ. *)
Theorem C2_minmax_not_idempotent :
  exists sh b kwargs r r',
    run_helper_twice sh b kwargs = Some (r, r')
    /\ array_equal r' r = false
    /\ r' <> r.
Proof.
  exists [2%nat], (IntBuf int32 [16777216; 16777217]), ∅,
    ([2%nat], FloatBuf float32 [S754_zero false; S754_zero false]),
    ([2%nat], FloatBuf float32 [S754_nan; S754_nan]).
  split; [vm_compute; reflexivity|]. split; [reflexivity | discriminate].
Qed.

(** Another array on which a second normalization changes the result: an
    int8 array whose range does not fit int8. *)
Example minmax_not_idempotent_int8 :
  run_helper_twice [2%nat] (IntBuf int8 [-128; 127]) ∅
  = Some (([2%nat], FloatBuf float32 [S754_zero true; of_Z float32 (-65025)]),
          ([2%nat], FloatBuf float32 [of_Z float32 255; S754_zero false])).
Proof. vm_compute. reflexivity. Qed.

(** ** Well-formed arrays: the helper returns *)

Lemma in_range_int_operand k z : in_range k z -> int_operand z.
Proof. unfold in_range, int_operand. destruct k; cbn; lia. Qed.

Lemma wrap_in_range k z : in_range k (wrap k z).
Proof.
  unfold in_range, wrap, imin, imax.
  destruct k; cbn [isigned ibits];
    match goal with
    | |- context [Z.modulo ?a ?m] => pose proof (Z.mod_pos_bound a m ltac:(lia))
    end; lia.
Qed.

Lemma int_value_loop_some z : int_operand z -> is_Some (int_value_loop z).
Proof.
  unfold int_operand, int_value_loop. intros H.
  destruct (_ && _); [by eexists|].
  replace ((- 2 ^ 63 <=? z) && (z <=? 2 ^ 64 - 1)) with true; [by eexists|].
  symmetry. apply andb_true_iff. split; apply Z.leb_le; lia.
Qed.

Lemma array_loop_some_scalar x : scalar_wf x -> is_Some (array_loop (NpS x)).
Proof.
  destruct x as [k z|[] f]; simpl; intros H; try by eexists.
  apply int_value_loop_some. by eapply in_range_int_operand.
Qed.

Lemma array_op_some o y xs :
  is_Some (array_loop y) -> is_Some (array_op o y xs).
Proof. intros [k Hk]. unfold array_op. rewrite Hk. by eexists. Qed.

Lemma fold_max_in_range k l x :
  Forall (in_range k) l -> in_range k x -> in_range k (fold_left Z.max l x).
Proof.
  intros Hl. revert x. induction Hl as [|y l Hy _ IH]; intros x Hx; [done|].
  simpl. apply IH. unfold in_range in *. lia.
Qed.

Lemma fold_min_in_range k l x :
  Forall (in_range k) l -> in_range k x -> in_range k (fold_left Z.min l x).
Proof.
  intros Hl. revert x. induction Hl as [|y l Hy _ IH]; intros x Hx; [done|].
  simpl. apply IH. unfold in_range in *. lia.
Qed.

Lemma amax_wf b : buffer_wf b -> buffer_length b <> 0%nat ->
  exists x, amax b = Some x /\ scalar_wf x.
Proof.
  destruct b as [k [|x l]|k [|x l]]; simpl; intros Hwf Hlen; try done.
  - inversion Hwf; subst. eexists. split; [done|]. by apply fold_max_in_range.
  - by eexists.
Qed.

Lemma amin_wf b : buffer_wf b -> buffer_length b <> 0%nat ->
  exists x, amin b = Some x /\ scalar_wf x.
Proof.
  destruct b as [k [|x l]|k [|x l]]; simpl; intros Hwf Hlen; try done.
  - inversion Hwf; subst. eexists. split; [done|]. by apply fold_min_in_range.
  - by eexists.
Qed.

Lemma scalar_sub_wf x y : scalar_wf (scalar_op Sub x y).
Proof. destruct x, y; simpl; try done. apply wrap_in_range. Qed.

Lemma normalize_total bins b :
  buffer_wf b -> buffer_length b <> 0%nat -> int_operand (bins - 1) ->
  is_Some (normalize bins b).
Proof.
  intros Hwf Hlen Hbins. unfold normalize.
  destruct (amax_wf b Hwf Hlen) as (mx & -> & Hmx).
  destruct (amin_wf b Hwf Hlen) as (mn & -> & Hmn).
  destruct (array_op_some Sub (NpS mn) (astype_float32 b)
              (array_loop_some_scalar _ Hmn)) as [xs1 ->]. simpl.
  destruct (array_op_some Div (NpS (scalar_op Sub mx mn)) xs1
              (array_loop_some_scalar _ (scalar_sub_wf _ _))) as [xs2 ->]. simpl.
  apply array_op_some. simpl. by apply int_value_loop_some.
Qed.

(** ** A constant array: the zero divisor *)

Lemma SFsub_eq_zero prec emax x y :
  is_finite x = true -> SFeqb x y = true ->
  exists s, SFsub prec emax x y = S754_zero s.
Proof.
  destruct x as [sx|sx| |sx mx ex], y as [sy|sy| |sy my ey];
    unfold SFeqb; simpl; try discriminate; intros _ Heq.
  - destruct sx, sy; by eexists.
  - by destruct sy.
  - by destruct sy.
  - by destruct sx.
  - by destruct sy.
  - assert (ex = ey /\ mx = my /\ sx = sy) as (-> & -> & ->).
    { destruct sx, sy; try discriminate;
        destruct (ex ?= ey) eqn:He; try discriminate;
        apply Z.compare_eq in He;
        change (Pos.compare_cont Eq mx my) with (mx ?= my)%positive in Heq;
        destruct (mx ?= my)%positive eqn:Hm; try discriminate;
        apply Pos.compare_eq in Hm; by subst. }
    exists false. rewrite Z.min_id. unfold shl_align. stdz.
    by rewrite Z.sub_diag.
Qed.

Lemma wrap_zero k : wrap k 0 = 0.
Proof. by destruct k. Qed.

(** The divisor [max_val - min_val] of an array with [max_val == min_val]. *)
Lemma divisor_zero b max_val min_val :
  amax b = Some max_val -> amin b = Some min_val ->
  scalar_eqb max_val min_val = true -> scalar_finite max_val = true ->
  scalar_is_zero (scalar_op Sub max_val min_val) = true.
Proof.
  destruct b as [k [|x l]|k [|x l]]; simpl; try discriminate;
    intros [= <-] [= <-]; simpl.
  - intros Heq%Z.eqb_eq _. by rewrite Heq, Z.sub_diag, wrap_zero.
  - intros Heq Hfin.
    assert (promote_float k k = k) as -> by by destruct k.
    assert (forall y, fconv k k y = y) as Hconv by by destruct k.
    rewrite !Hconv.
    by destruct (SFsub_eq_zero (fprec k) (femax k) _ _ Hfin Heq) as [s ->].
Qed.

(** Dividing by a zero scalar: the float32 loop, with a zero operand. *)
Lemma array_loop_zero d :
  scalar_is_zero d = true ->
  array_loop (NpS d) = Some float32
  /\ exists s, operand_float float32 (NpS d) = S754_zero s.
Proof.
  destruct d as [k z|[] [s| | |]]; simpl; try discriminate.
  - intros ->%Z.eqb_eq. split; [done|]. by exists false.
  - intros _. split; [done|]. by exists s.
  - intros _. split; [by destruct s|]. by exists s.
Qed.

Lemma SFdiv_by_zero prec emax x s :
  nan_or_inf (SFdiv prec emax x (S754_zero s)) = true.
Proof. by destruct x. Qed.

Lemma SFmul_nan_or_inf prec emax x y :
  nan_or_inf x = true -> nan_or_inf (SFmul prec emax x y) = true.
Proof. by destruct x, y. Qed.

Lemma fcast_nan_or_inf k x : nan_or_inf x = true -> nan_or_inf (fcast k x) = true.
Proof. by destruct x. Qed.

Lemma elem_mul_nan_or_inf k fy x :
  nan_or_inf x = true -> nan_or_inf (elem_op Mul k fy x) = true.
Proof.
  intros H. destruct k; simpl.
  - by apply SFmul_nan_or_inf.
  - apply fcast_nan_or_inf, SFmul_nan_or_inf. by apply (fcast_nan_or_inf float64).
Qed.

Lemma array_div_by_zero d xs ys :
  scalar_is_zero d = true -> array_op Div (NpS d) xs = Some ys ->
  Forall (fun y => nan_or_inf y = true) ys.
Proof.
  intros Hz. destruct (array_loop_zero d Hz) as [Hloop [s Hop]].
  unfold array_op. rewrite Hloop, Hop. intros [= <-].
  apply Forall_map, Forall_true. intros x. apply SFdiv_by_zero.
Qed.

Lemma array_mul_nan_or_inf y xs ys :
  Forall (fun x => nan_or_inf x = true) xs -> array_op Mul y xs = Some ys ->
  Forall (fun x => nan_or_inf x = true) ys.
Proof.
  intros Hxs. unfold array_op. destruct (array_loop y) as [k|]; [|done].
  intros [= <-]. apply Forall_map. eapply Forall_impl; [exact Hxs|].
  intros x Hx. by apply elem_mul_nan_or_inf.
Qed.

(** C4: on an array whose maximum and minimum are equal (a constant image of
    integers or of finite floats), the divisor [max_val - min_val] is zero,
    nothing guards the division, and the helper raises no exception: it
    returns a float32 array of the same shape in which every element is NaN
    or an infinity. *)
Theorem C4_constant_array_divides_by_zero s l sh b kwargs max_val min_val :
  read_array s (VRef l) = Some (sh, b) ->
  buffer_wf b -> int_operand (helper_bins kwargs - 1) ->
  amax b = Some max_val -> amin b = Some min_val ->
  scalar_eqb max_val min_val = true -> scalar_finite max_val = true ->
  exists d v s' ys,
    divisor b = Some d /\ scalar_is_zero d = true
    /\ _minmax_helper (VRef l) kwargs s = Ok v s'
    /\ read_array s' v = Some (sh, FloatBuf float32 ys)
    /\ Forall (fun y => nan_or_inf y = true) ys.
Proof.
  intros Hread Hwf Hbins Hmax Hmin Heq Hfin.
  assert (Hlen : buffer_length b <> 0%nat)
    by (destruct b as [k [|]|k [|]]; discriminate).
  destruct (normalize_total _ _ Hwf Hlen Hbins) as [ys Hys].
  destruct (helper_array s l sh b kwargs ys Hread Hys) as [Hrun Hout].
  pose proof (divisor_zero b _ _ Hmax Hmin Heq Hfin) as Hzero.
  exists (scalar_op Sub max_val min_val), (helper_result s),
    (helper_final s sh b ys), ys.
  repeat split; try done.
  - unfold divisor. by rewrite Hmax, Hmin.
  - unfold normalize in Hys. rewrite Hmax, Hmin in Hys.
    destruct (array_op Sub _ _) as [xs1|]; [|done]. simpl in Hys.
    destruct (array_op Div _ _) as [xs2|] eqn:H2; [|done]. simpl in Hys.
    eapply array_mul_nan_or_inf; [|exact Hys].
    by eapply array_div_by_zero.
Qed.

Lemma C4_constant_array_divides_by_zero_witness :
  exists d,
    divisor (IntBuf uint8 [7; 7; 7; 7]) = Some d /\ scalar_is_zero d = true
    /\ run_helper [2%nat; 2%nat] (IntBuf uint8 [7; 7; 7; 7]) ∅
       = Some ([2%nat; 2%nat], FloatBuf float32 [S754_nan; S754_nan; S754_nan; S754_nan]).
Proof.
  destruct (C4_constant_array_divides_by_zero
              (one_array [2%nat; 2%nat] (IntBuf uint8 [7; 7; 7; 7])) 1%nat
              [2%nat; 2%nat] (IntBuf uint8 [7; 7; 7; 7]) ∅
              (IntS uint8 7) (IntS uint8 7))
    as (d & v & s' & ys & Hd & Hz & Hrun & Hout & Hall);
    try reflexivity.
  - repeat constructor; vm_compute; discriminate.
  - vm_compute. split; discriminate.
  - exists d. split; [exact Hd|]. split; [exact Hz|]. vm_compute. reflexivity.
Defined.

(** A constant array of an infinity: the divisor is NaN, not zero, and the
    result is NaN again. *)
Example constant_infinity :
  divisor (FloatBuf float32 [S754_infinity false; S754_infinity false])
  = Some (FloatS float32 S754_nan)
  /\ run_helper [2%nat] (FloatBuf float32 [S754_infinity false; S754_infinity false]) ∅
     = Some ([2%nat], FloatBuf float32 [S754_nan; S754_nan]).
Proof. split; vm_compute; reflexivity. Qed.

(** A constant array of an integer that float32 does not hold: the float64
    loop of the subtraction leaves -1, and the division yields infinities. *)
Example constant_large_integer :
  run_helper [2%nat] (IntBuf int32 [16777217; 16777217]) ∅
  = Some ([2%nat], FloatBuf float32 [S754_infinity true; S754_infinity true]).
Proof. vm_compute. reflexivity. Qed.

(** ** Frame: what a call leaves of the store it was given *)

Lemma extends_refl s : extends s s.
Proof. exists [], []. by rewrite !app_nil_r. Qed.

Lemma extends_trans s1 s2 s3 : extends s1 s2 -> extends s2 s3 -> extends s1 s3.
Proof.
  intros (e1 & m1 & H1 & L1) (e2 & m2 & H2 & L2).
  exists (e1 ++ e2), (m1 ++ m2). rewrite H2, L2, H1, L1. by rewrite !app_assoc.
Qed.

Lemma extends_grow s ext : extends s (grow s ext).
Proof. exists ext, []. by rewrite app_nil_r. Qed.

Lemma extends_lookup s s' l o :
  extends s s' -> heap s !! l = Some o -> heap s' !! l = Some o.
Proof. intros (ext & _ & -> & _) H. by apply lookup_app_l_Some. Qed.

Lemma extends_length s s' : extends s s' -> (length (heap s) <= length (heap s'))%nat.
Proof. intros (ext & _ & -> & _). rewrite length_app. lia. Qed.

Lemma frames_ret {A} (a : A) : frames (mret a : M A).
Proof. intros s. apply extends_refl. Qed.

Lemma frames_raise {A} e : frames (raise e : M A).
Proof. intros s. apply extends_refl. Qed.

Lemma frames_bind {A B} (m : M A) (f : A -> M B) :
  frames m -> (forall a, frames (f a)) -> frames (m ≫= f).
Proof.
  intros Hm Hf s. rewrite bind_unfold. specialize (Hm s).
  destruct (m s) as [a s'|e s']; [|done].
  eapply extends_trans; [exact Hm | apply Hf].
Qed.

Lemma frames_alloc o : frames (alloc o).
Proof. intros s. apply extends_grow. Qed.

Lemma frames_load l : frames (load l).
Proof. intros s. unfold load. destruct (heap s !! l); apply extends_refl. Qed.

Lemma frames_logger_info msg : frames (logger_info msg).
Proof. intros s. exists [], [msg]. by rewrite app_nil_r. Qed.

Lemma frames_of_option {A} e (o : option A) : frames (of_option e o).
Proof. destruct o; [apply frames_ret | apply frames_raise]. Qed.

Lemma frames_when b m : frames m -> frames (when b m).
Proof. destruct b; [done | intros _; apply frames_ret]. Qed.

Lemma frames_mapM {A B} (f : A -> M B) l : (forall x, frames (f x)) -> frames (mapM f l).
Proof.
  intros Hf. induction l as [|x l IH]; simpl; [apply frames_ret|].
  apply frames_bind; [done|]. intros y.
  apply frames_bind; [done|]. intros ys. apply frames_ret.
Qed.

Create HintDb frames.

#[local] Hint Resolve frames_ret frames_raise frames_alloc frames_load
  frames_logger_info frames_of_option frames_when frames_mapM : frames.

Ltac frames_step :=
  repeat first
    [ apply frames_bind; [|intros ?]
    | progress auto with frames
    | match goal with
      | |- frames (match ?x with _ => _ end) => destruct x
      end ].

Lemma frames_type_of v : frames (type_of v).
Proof. unfold type_of. destruct v; frames_step. Qed.

Lemma frames_get_pixels v : frames (get_pixels v).
Proof. unfold get_pixels. destruct v; frames_step. Qed.

Lemma frames_get_pixel_array v : frames (get_pixel_array v).
Proof. unfold get_pixel_array. destruct v; frames_step. Qed.

Lemma frames_list_items v : frames (list_items v).
Proof. unfold list_items. destruct v; frames_step. Qed.

#[local] Hint Resolve frames_type_of frames_get_pixels frames_get_pixel_array
  frames_list_items : frames.

Lemma frames_extract_one v : frames (extract_one v).
Proof. unfold extract_one. frames_step. Qed.

#[local] Hint Resolve frames_extract_one : frames.

Lemma frames_load_buffer l : frames (load_buffer l).
Proof. unfold load_buffer. frames_step. Qed.

#[local] Hint Resolve frames_load_buffer : frames.

Lemma frames_contents a : frames (contents a).
Proof. unfold contents. frames_step. Qed.

#[local] Hint Resolve frames_contents : frames.

Lemma inplace_scalar o x y s :
  inplace o (VNp x) y s =
    match scalar_iop o x y with
    | Some r => Ok (VNp r) s
    | None => Raise TypeError s
    end.
Proof. unfold inplace. rewrite bind_unfold. by destruct (scalar_iop o x y). Qed.

(** The helper on a NumPy scalar touches nothing: scalars are immutable. *)
Lemma helper_scalar sc kwargs s :
  final (_minmax_helper (VNp sc) kwargs s) = s
  /\ forall v s', _minmax_helper (VNp sc) kwargs s = Ok v s' -> exists sc', v = VNp sc'.
Proof.
  unfold _minmax_helper.
  rewrite (bind_ok _ _ s sc s) by reflexivity.
  rewrite (bind_ok _ _ s sc s) by reflexivity.
  rewrite (bind_ok _ _ s (VNp (FloatS float32 (scalar_astype_float32 sc))) s)
    by reflexivity.
  rewrite bind_unfold, inplace_scalar.
  destruct (scalar_iop Sub _ _) as [x1|]; [|split; [done|discriminate]].
  rewrite bind_unfold, inplace_scalar.
  destruct (scalar_iop Div _ _) as [x2|]; [|split; [done|discriminate]].
  rewrite bind_unfold, inplace_scalar.
  destruct (scalar_iop Mul _ _) as [x3|]; [|split; [done|discriminate]].
  split; [done|]. intros v s' [= <- _]. by eexists.
Qed.

(** On a value that is neither an array nor a NumPy scalar the helper raises
    at once. *)
Lemma helper_no_array pixels kwargs s :
  read_array s pixels = None -> (forall sc, pixels <> VNp sc) ->
  exists e, _minmax_helper pixels kwargs s = Raise e s.
Proof.
  intros Hread Hsc. unfold _minmax_helper, np_max, np_reduce.
  destruct pixels as [| | |sc|l]; try (by eexists); [by destruct (Hsc sc)|].
  unfold read_array in Hread. unfold load_ndarray, load.
  rewrite !bind_unfold.
  destruct (heap s !! l) as [[| |a| | |]|] eqn:Hl; try (by eexists).
  rewrite ret_unfold. unfold contents, load_buffer, load.
  rewrite !bind_unfold.
  destruct (heap s !! base a) as [[| | |buf| |]|] eqn:Hb;
    try discriminate; by eexists.
Qed.

Lemma helper_final_extends s sh b ys : extends s (helper_final s sh b ys).
Proof.
  unfold helper_final. eapply extends_trans; apply extends_grow.
Qed.

Lemma helper_result_fresh s sh b ys :
  fresh_in s (helper_final s sh b ys) (helper_result s).
Proof.
  unfold helper_final, helper_result, fresh_in.
  set (s1 := fresh_array s sh _).
  assert (Hs1 : length (heap s1) = (length (heap s) + 2)%nat).
  { unfold s1, fresh_array, grow. simpl. rewrite length_app. simpl. lia. }
  eexists. split.
  - replace (length (heap s) + 3)%nat with (S (length (heap s1))) by lia.
    apply fresh_array_lookup_header.
  - split; [lia|]. cbn [base]. lia.
Qed.

(** The helper, on any value and any store: it leaves the store it was given
    unchanged, and what it returns is new. *)
Lemma helper_frame pixels kwargs s :
  extends s (final (_minmax_helper pixels kwargs s))
  /\ forall v s', _minmax_helper pixels kwargs s = Ok v s' -> fresh_in s s' v.
Proof.
  destruct (read_array s pixels) as [[sh b]|] eqn:Hread.
  - destruct pixels as [| | | |l]; try discriminate.
    rewrite (helper_array_outcome _ _ _ _ _ Hread). cbv zeta.
    destruct (amax b), (amin b);
      try (split; [apply extends_refl | discriminate]).
    repeat match goal with
           | |- context [match array_op ?o ?y ?xs with _ => _ end] =>
               destruct (array_op o y xs)
           end;
      (split; [apply helper_final_extends|]); try discriminate.
    intros v s' [= <- <-]. apply helper_result_fresh.
  - destruct pixels as [| | |sc|l].
    4:{ destruct (helper_scalar sc kwargs s) as [Hfin Hres].
        rewrite Hfin. split; [apply extends_refl|].
        intros v s' Hrun. by destruct (Hres v s' Hrun) as [sc' ->]. }
    all: destruct (helper_no_array _ kwargs s Hread ltac:(discriminate)) as [e ->];
      split; [apply extends_refl | discriminate].
Qed.

Lemma frames_helper pixels kwargs : frames (_minmax_helper pixels kwargs).
Proof. intros s. apply helper_frame. Qed.

#[local] Hint Resolve frames_helper : frames.

Lemma frames_for_each {B} pixels (body : value -> M B) :
  (forall p, frames (body p)) -> frames (for_each pixels body).
Proof.
  intros Hbody. unfold for_each. destruct pixels; frames_step.
  destruct (shape a) as [|d0 [|d1 rest]]; frames_step.
  all: apply frames_mapM; intros i; frames_step.
Qed.

Lemma frames_minmax pixels timing kwargs : frames (minmax pixels timing kwargs).
Proof.
  unfold minmax. apply frames_bind; [apply frames_for_each; auto with frames|].
  intros ps. frames_step.
Qed.

Lemma registry_lookup name f : norm_registry !! name = Some f -> f = minmax.
Proof.
  unfold norm_registry. rewrite lookup_insert. case_decide; [congruence|].
  rewrite lookup_insert. case_decide; [congruence|]. by rewrite lookup_empty.
Qed.

Lemma still_ret {A} (a : A) : still (mret a : M A).
Proof. done. Qed.

Lemma still_raise {A} e : still (raise e : M A).
Proof. done. Qed.

Lemma still_bind {A B} (m : M A) (f : A -> M B) :
  still m -> (forall a, still (f a)) -> still (m ≫= f).
Proof.
  intros Hm Hf s. rewrite bind_unfold. specialize (Hm s).
  destruct (m s) as [a s'|e s']; simpl in Hm; subst; [apply Hf | done].
Qed.

Lemma still_load l : still (load l).
Proof. intros s. unfold load. by destruct (heap s !! l). Qed.

Lemma still_of_option {A} e (o : option A) : still (of_option e o).
Proof. by destruct o. Qed.

Lemma still_mapM {A B} (f : A -> M B) l : (forall x, still (f x)) -> still (mapM f l).
Proof.
  intros Hf. induction l as [|x l IH]; simpl; [done|].
  apply still_bind; [done|]. intros y.
  apply still_bind; [done|]. intros ys. done.
Qed.

Create HintDb still.
#[local] Hint Resolve still_ret still_raise still_load still_of_option still_mapM : still.

Ltac still_step :=
  repeat first
    [ apply still_bind; [|intros ?]
    | progress auto with still
    | match goal with
      | |- still (match ?x with _ => _ end) => destruct x
      end ].

Lemma still_type_of v : still (type_of v).
Proof. unfold type_of. destruct v; still_step. Qed.

Lemma still_get_pixels v : still (get_pixels v).
Proof. unfold get_pixels. destruct v; still_step. Qed.

Lemma still_get_pixel_array v : still (get_pixel_array v).
Proof. unfold get_pixel_array. destruct v; still_step. Qed.

Lemma still_list_items v : still (list_items v).
Proof. unfold list_items. destruct v; still_step. Qed.

#[local] Hint Resolve still_type_of still_get_pixels still_get_pixel_array
  still_list_items : still.

Lemma still_extract_one v : still (extract_one v).
Proof. unfold extract_one. still_step. Qed.

Lemma still_ok {A} (m : M A) s a s' : still m -> m s = Ok a s' -> s' = s.
Proof. intros Hm Hrun. specialize (Hm s). by rewrite Hrun in Hm. Qed.

(** *** [extract_pixels]: the list it builds *)

(** Appending to the list allocated last. *)
Lemma list_append_last s acc x :
  list_append (VRef (length (heap s))) x (grow s [OList acc])
  = Ok tt (grow s [OList (acc ++ [x])]).
Proof.
  assert (Hl : heap (grow s [OList acc]) !! length (heap s) = Some (OList acc)).
  { unfold grow. cbn [heap]. rewrite lookup_app_r by lia. by rewrite Nat.sub_diag. }
  unfold list_append, list_items.
  rewrite bind_unfold, (bind_ok _ _ _ _ _ (load_some _ _ _ Hl)), ret_unfold.
  unfold store, grow. cbn [heap log]. do 2 f_equal.
  rewrite insert_app_r_alt by lia. by rewrite Nat.sub_diag.
Qed.

(** The loop of [extract_pixels] only grows the list [pixels]. *)
Lemma extract_loop_frame s items acc :
  exists acc',
    final (mapM (fun image => p ← extract_one image;
                              list_append (VRef (length (heap s))) p)
             items (grow s [OList acc]))
    = grow s [OList acc'].
Proof.
  revert acc. induction items as [|image items IH]; intros acc; simpl.
  - by exists acc.
  - rewrite !bind_unfold.
    destruct (extract_one image (grow s [OList acc])) as [p s1|e s1] eqn:Hp.
    + apply (still_ok _ _ _ _ (still_extract_one image)) in Hp as ->.
      rewrite list_append_last, bind_unfold.
      destruct (IH (acc ++ [p])) as [acc' Hacc'].
      exists acc'. by destruct (mapM _ items _).
    + pose proof (still_extract_one image (grow s [OList acc])) as Hs.
      rewrite Hp in Hs. simpl in Hs. subst s1. by exists acc.
Qed.

Lemma extract_one_array s ext l a :
  heap s !! l = Some (ONdarray a) ->
  extract_one (VRef l) (grow s ext) = Ok (VRef l) (grow s ext).
Proof.
  intros Hl. unfold extract_one, type_of.
  rewrite bind_unfold, (bind_ok _ _ _ _ _ (load_grow_old _ _ _ _ Hl)). done.
Qed.

Lemma extract_loop_arrays s items acc :
  Forall (is_ndarray s) items ->
  exists us,
    mapM (fun image => p ← extract_one image; list_append (VRef (length (heap s))) p)
      items (grow s [OList acc])
    = Ok us (grow s [OList (acc ++ items)]).
Proof.
  intros Hitems. revert acc.
  induction Hitems as [|x items (l & a & -> & Hl) _ IH]; intros acc; simpl.
  - exists []. by rewrite app_nil_r.
  - rewrite bind_unfold, (bind_ok _ _ _ _ _ (extract_one_array _ _ _ _ Hl)).
    rewrite list_append_last, bind_unfold.
    destruct (IH (acc ++ [VRef l])) as [us Hus]. rewrite Hus.
    exists (() :: us). by rewrite <- app_assoc.
Qed.

(** What [extract_pixels] leaves: the store it was given, followed by lists
    only; and what it returns is one of these lists. *)
Lemma extract_pixels_outcome images timing s :
  exists ext msgs,
    heap (final (extract_pixels images timing s)) = heap s ++ ext
    /\ log (final (extract_pixels images timing s)) = log s ++ msgs
    /\ Forall is_list ext
    /\ forall v s', extract_pixels images timing s = Ok v s' ->
         exists l ps, v = VRef l /\ (length (heap s) <= l)%nat
                      /\ heap s' !! l = Some (OList ps).
Proof.
  unfold extract_pixels. rewrite bind_unfold, alloc_grow.
  set (n := length (heap s)). set (s1 := grow s [OList []]).
  set (inner := type_of images ≫= _).
  assert (Hinner : exists ext,
             heap (final (inner s1)) = heap s ++ ext
             /\ log (final (inner s1)) = log s
             /\ Forall is_list ext
             /\ forall v s', inner s1 = Ok v s' ->
                  exists l ps, v = VRef l /\ (n <= l)%nat
                               /\ heap s' !! l = Some (OList ps)).
  { unfold inner. rewrite bind_unfold.
    assert (Hlists : forall x, Forall is_list [OList []; OList [x]]).
    { intros x. repeat constructor; by eexists. }
    assert (Hstop : forall e,
               exists ext,
                 heap (final (Raise e s1 : outcome value)) = heap s ++ ext
                 /\ log (final (Raise e s1 : outcome value)) = log s
                 /\ Forall is_list ext
                 /\ forall v s', (Raise e s1 : outcome value) = Ok v s' ->
                      exists l ps, v = VRef l /\ (n <= l)%nat
                                   /\ heap s' !! l = Some (OList ps)).
    { intros e. exists [OList []].
      split; [done|]. split; [done|]. split; [|discriminate].
      repeat constructor. by eexists. }
    destruct (type_of images s1) as [t s0|e s0] eqn:Ht.
    2:{ pose proof (still_type_of images s1) as Hs. rewrite Ht in Hs. simpl in Hs.
        subst s0. apply Hstop. }
    apply (still_ok _ _ _ _ (still_type_of images)) in Ht as ->.
    destruct t; try apply Hstop.
    - (* a list *)
      rewrite bind_unfold.
      destruct (list_items images s1) as [items s0|e s0] eqn:Hi.
      2:{ pose proof (still_list_items images s1) as Hs. rewrite Hi in Hs. simpl in Hs.
          subst s0. apply Hstop. }
      apply (still_ok _ _ _ _ (still_list_items images)) in Hi as ->.
      rewrite bind_unfold.
      destruct (extract_loop_frame s items []) as [acc Hacc]. fold n s1 in Hacc.
      assert (Hacc_list : Forall is_list [OList acc]) by (repeat constructor; by eexists).
      destruct (mapM _ items s1) as [us s2|e s2]; simpl in Hacc; subst s2;
        exists [OList acc]; (split; [done|]); (split; [done|]); (split; [done|]);
        [|discriminate].
      rewrite ret_unfold. intros v s' [= <- <-]. exists n, acc.
      split; [done|]. split; [lia|].
      unfold grow. cbn [heap]. rewrite lookup_app_r by (fold n; lia).
      fold n. by rewrite Nat.sub_diag.
    - (* an array *)
      rewrite bind_unfold, alloc_grow, ret_unfold.
      exists [OList []; OList [images]]. unfold s1. rewrite grow_grow.
      split; [done|]. split; [done|]. split; [apply Hlists|].
      intros v s' [= <- <-]. exists (S n), [images].
      split; [unfold grow; cbn [heap]; rewrite length_app; simpl; f_equal; lia|].
      split; [lia|].
      unfold grow. cbn [heap]. rewrite lookup_app_r by (fold n; lia).
      fold n. by replace (S n - n)%nat with 1%nat by lia.
    - (* a SimpleNamespace *)
      rewrite bind_unfold.
      destruct (get_pixels images s1) as [p s0|e s0] eqn:Hp.
      2:{ pose proof (still_get_pixels images s1) as Hs. rewrite Hp in Hs. simpl in Hs.
          subst s0. apply Hstop. }
      apply (still_ok _ _ _ _ (still_get_pixels images)) in Hp as ->.
      rewrite bind_unfold, alloc_grow, ret_unfold.
      exists [OList []; OList [p]]. unfold s1. rewrite grow_grow.
      split; [done|]. split; [done|]. split; [apply Hlists|].
      intros v s' [= <- <-]. exists (S n), [p].
      split; [unfold grow; cbn [heap]; rewrite length_app; simpl; f_equal; lia|].
      split; [lia|].
      unfold grow. cbn [heap]. rewrite lookup_app_r by (fold n; lia).
      fold n. by replace (S n - n)%nat with 1%nat by lia. }
  destruct Hinner as (ext & Hheap & Hlog & Hext & Hres).
  rewrite bind_unfold.
  destruct (inner s1) as [p s2|e s2]; simpl in Hheap, Hlog.
  - destruct (Hres p s2 eq_refl) as (l & ps & -> & Hl & Hlook).
    destruct timing; simpl.
    + exists ext, ["Extract pixels: %s"%string].
      split; [done|]. split; [by rewrite Hlog|]. split; [done|].
      intros v s' [= <- <-]. by exists l, ps.
    + exists ext, [].
      split; [done|]. split; [by rewrite app_nil_r|]. split; [done|].
      intros v s' [= <- <-]. by exists l, ps.
  - exists ext, [].
    split; [done|]. split; [by rewrite app_nil_r|]. split; [done|]. done.
Qed.

Lemma frames_extract_pixels images timing : frames (extract_pixels images timing).
Proof.
  intros s. destruct (extract_pixels_outcome images timing s) as (ext & msgs & H1 & H2 & _).
  by exists ext, msgs.
Qed.

(** On a list of arrays the new list holds the references it was given. *)
Lemma extract_pixels_list_of_arrays s l items :
  heap s !! l = Some (OList items) -> Forall (is_ndarray s) items ->
  extract_pixels (VRef l) false s = Ok (VRef (length (heap s))) (grow s [OList items]).
Proof.
  intros Hl Hitems. unfold extract_pixels.
  rewrite bind_unfold, alloc_grow, bind_unfold, bind_unfold.
  assert (Ht : type_of (VRef l) (grow s [OList []]) = Ok TList (grow s [OList []])).
  { unfold type_of. rewrite (bind_ok _ _ _ _ _ (load_grow_old _ _ _ _ Hl)). done. }
  rewrite Ht, bind_unfold.
  assert (Hi : list_items (VRef l) (grow s [OList []]) = Ok items (grow s [OList []])).
  { unfold list_items. rewrite (bind_ok _ _ _ _ _ (load_grow_old _ _ _ _ Hl)). done. }
  rewrite Hi, bind_unfold.
  destruct (extract_loop_arrays s items [] Hitems) as [us ->].
  done.
Qed.

Lemma frames_get_norm pixels norm_type timing kwargs :
  frames (get_norm pixels norm_type timing kwargs).
Proof.
  unfold get_norm. apply frames_bind; [apply frames_extract_pixels|]. intros p.
  destruct (norm_registry !! lower norm_type) as [f|] eqn:Hf; [|auto with frames].
  apply registry_lookup in Hf as ->.
  apply frames_bind; [apply frames_minmax|]. intros r. frames_step.
Qed.

Lemma fresh_in_mono s0 s1 s2 s3 v :
  extends s0 s1 -> fresh_in s1 s2 v -> extends s2 s3 -> fresh_in s0 s3 v.
Proof.
  intros H01 Hv H23. destruct v as [| | |sc|l]; try done.
  destruct Hv as (a & Ha & Hl & Hb). exists a.
  pose proof (extends_length _ _ H01).
  split; [by eapply extends_lookup|]. lia.
Qed.

Lemma mapM_fresh {A} (f : A -> M value) l s vs s' :
  (forall x s v s', f x s = Ok v s' -> extends s s' /\ fresh_in s s' v) ->
  mapM f l s = Ok vs s' -> extends s s' /\ Forall (fresh_in s s') vs.
Proof.
  intros Hf. revert s vs s'. induction l as [|x l IH]; intros s vs s'; simpl.
  - intros [= <- <-]. split; [apply extends_refl | constructor].
  - rewrite bind_unfold. destruct (f x s) as [v s1|] eqn:Hx; [|done].
    rewrite bind_unfold. destruct (mapM f l s1) as [vs' s2|] eqn:Hl; [|done].
    intros [= <- <-].
    destruct (Hf _ _ _ _ Hx) as [E1 F1]. destruct (IH _ _ _ Hl) as [E2 F2].
    split; [by eapply extends_trans|]. constructor.
    + eapply fresh_in_mono; [apply extends_refl | exact F1 | exact E2].
    + eapply Forall_impl; [exact F2|]. intros w Hw.
      eapply fresh_in_mono; [exact E1 | exact Hw | apply extends_refl].
Qed.

Lemma helper_fresh kwargs p s v s' :
  _minmax_helper p kwargs s = Ok v s' -> extends s s' /\ fresh_in s s' v.
Proof.
  intros Hrun. destruct (helper_frame p kwargs s) as [E F].
  rewrite Hrun in E. split; [exact E | by apply F].
Qed.

Lemma for_each_helper_fresh pixels kwargs s ps s' :
  for_each pixels (fun p => _minmax_helper p kwargs) s = Ok ps s' ->
  extends s s' /\ Forall (fresh_in s s') ps.
Proof.
  unfold for_each.
  destruct pixels as [| |str|sc|l]; try done.
  { apply mapM_fresh. intros x. apply helper_fresh. }
  rewrite bind_unfold. unfold load.
  destruct (heap s !! l) as [[items|items|a|buf|attrs|pa]|]; try done.
  1,2: apply mapM_fresh; intros x; apply helper_fresh.
  destruct (shape a) as [|d0 [|d1 rest]]; [done| |].
  - rewrite bind_unfold.
    destruct (contents a s) as [b s0|] eqn:Hc; [|done].
    pose proof (frames_contents a s) as Hs0. rewrite Hc in Hs0. simpl in Hs0.
    intros Hrun.
    destruct (mapM_fresh _ _ _ _ _ (fun x => helper_fresh kwargs x) Hrun) as [E F].
    split; [by eapply extends_trans|].
    eapply Forall_impl; [exact F|]. intros v Hv.
    eapply fresh_in_mono; [exact Hs0 | exact Hv | apply extends_refl].
  - apply mapM_fresh. intros i s1 v s2. rewrite bind_unfold, alloc_grow.
    intros [E F]%helper_fresh. split.
    + eapply extends_trans; [apply extends_grow | exact E].
    + eapply fresh_in_mono; [apply extends_grow | exact F | apply extends_refl].
Qed.

(** What [minmax] returns: a new list of new arrays (or NumPy scalars), and
    [None]. *)
Lemma minmax_fresh pixels timing kwargs s r s' :
  minmax pixels timing kwargs s = Ok r s' ->
  exists l ps, r = (VRef l, VNone) /\ (length (heap s) <= l)%nat
               /\ heap s' !! l = Some (OList ps) /\ Forall (fresh_in s s') ps.
Proof.
  unfold minmax. rewrite bind_unfold.
  destruct (for_each _ _ s) as [ps s1|] eqn:Hfor; [|done].
  destruct (for_each_helper_fresh _ _ _ _ _ Hfor) as [E F].
  rewrite bind_unfold, alloc_grow.
  set (s2 := grow s1 [OList ps]).
  assert (Hl : heap s2 !! length (heap s1) = Some (OList ps)).
  { unfold s2, grow. simpl. rewrite lookup_app_r by lia. by rewrite Nat.sub_diag. }
  intros Hrun.
  assert (Hs' : extends s2 s' /\ r = (VRef (length (heap s1)), VNone)).
  { destruct timing; simpl in Hrun; injection Hrun as <- <-; split; try done.
    - apply (frames_logger_info "minmax: %s" s2).
    - apply extends_refl. }
  destruct Hs' as [E' ->]. exists (length (heap s1)), ps.
  pose proof (extends_length _ _ E).
  repeat split; [lia | by eapply extends_lookup |].
  eapply Forall_impl; [exact F|]. intros v Hv.
  eapply fresh_in_mono; [apply extends_refl | exact Hv |].
  eapply extends_trans; [apply extends_grow | exact E'].
Qed.

(** C7: no operation changes an object it was given.  Whatever the arguments
    and the store, every object of the store before a call to
    [extract_pixels], [_minmax_helper], [minmax] or [get_norm] is in the store
    after it, at its address and unchanged (arrays, buffers and lists alike),
    also when the call raises.  What the helper returns is an array whose
    header and buffer are both new, and so is every array in the list that
    [minmax] returns.  [extract_pixels] allocates lists only, one of which
    it returns: on a list of arrays that list holds the very references it
    was given, not copies. *)
Theorem C7_inputs_not_mutated :
  (forall images timing s, extends s (final (extract_pixels images timing s)))
  /\ (forall pixels kwargs s, extends s (final (_minmax_helper pixels kwargs s)))
  /\ (forall pixels timing kwargs s, extends s (final (minmax pixels timing kwargs s)))
  /\ (forall pixels norm_type timing kwargs s,
        extends s (final (get_norm pixels norm_type timing kwargs s)))
  /\ (forall pixels kwargs s v s',
        _minmax_helper pixels kwargs s = Ok v s' -> fresh_in s s' v)
  /\ (forall pixels timing kwargs s r s',
        minmax pixels timing kwargs s = Ok r s' ->
        exists l ps, r = (VRef l, VNone) /\ (length (heap s) <= l)%nat
                     /\ heap s' !! l = Some (OList ps) /\ Forall (fresh_in s s') ps)
  /\ (forall images timing s,
        exists ext, heap (final (extract_pixels images timing s)) = heap s ++ ext
                    /\ Forall is_list ext)
  /\ (forall images timing s v s',
        extract_pixels images timing s = Ok v s' ->
        exists l ps, v = VRef l /\ (length (heap s) <= l)%nat
                     /\ heap s' !! l = Some (OList ps))
  /\ (forall s l items,
        heap s !! l = Some (OList items) -> Forall (is_ndarray s) items ->
        extract_pixels (VRef l) false s
        = Ok (VRef (length (heap s))) (grow s [OList items])).
Proof.
  repeat split.
  - intros. apply frames_extract_pixels.
  - intros. apply frames_helper.
  - intros. apply frames_minmax.
  - intros. apply frames_get_norm.
  - intros pixels kwargs s v s' Hrun. by apply (helper_frame pixels kwargs s).
  - intros. by eapply minmax_fresh.
  - intros images timing s.
    destruct (extract_pixels_outcome images timing s) as (ext & _ & H1 & _ & H3 & _).
    by exists ext.
  - intros images timing s.
    destruct (extract_pixels_outcome images timing s) as (_ & _ & _ & _ & _ & H4).
    exact H4.
  - intros. by apply extract_pixels_list_of_arrays.
Qed.

Lemma C7_inputs_not_mutated_witness :
  take 6 (heap (final (get_norm (VRef 5%nat) "minmax" true ∅ two_arrays)))
  = heap two_arrays.
Proof.
  destruct (proj1 (proj2 (proj2 (proj2 C7_inputs_not_mutated)))
              (VRef 5%nat) "minmax"%string true ∅ two_arrays)
    as (ext & msgs & Hheap & _).
  rewrite Hheap. apply (take_app_length (heap two_arrays) ext).
Defined.

(** * The order of floats, maximum and minimum *)

Lemma SFcompare_key x y :
  x <> S754_nan -> y <> S754_nan -> SFcompare x y = Some (lex_compare (fkey x) (fkey y)).
Proof.
  intros Hx Hy. destruct x as [sx|sx| |sx mx ex], y as [sy|sy| |sy my ey]; try done;
    try (by destruct sx); try (by destruct sy); try (by destruct sx, sy).
  destruct sx, sy; try done; unfold SFcompare, fkey, lex_compare; cbn [fst snd];
    change (-1 ?= -1) with Eq; change (1 ?= 1) with Eq; cbv iota.
  rewrite (Z.compare_opp ex ey).
  rewrite (Z.compare_antisym ex ey).
  by destruct (ex ?= ey).
Qed.

Lemma lex_compare_le p q : lex_compare p q <> Gt <-> lex_le p q.
Proof.
  unfold lex_compare, lex_le.
  destruct (Z.compare_spec p.1.1 q.1.1), (Z.compare_spec p.1.2 q.1.2),
    (Z.compare_spec p.2 q.2); split; try done; try lia.
Qed.

Lemma lex_compare_gt p q : lex_compare p q = Gt -> lex_le q p.
Proof.
  unfold lex_compare, lex_le.
  destruct (Z.compare_spec p.1.1 q.1.1), (Z.compare_spec p.1.2 q.1.2),
    (Z.compare_spec p.2 q.2); try done; lia.
Qed.

Lemma lex_compare_eq p q : lex_compare p q = Eq -> lex_le q p.
Proof.
  unfold lex_compare, lex_le.
  destruct (Z.compare_spec p.1.1 q.1.1), (Z.compare_spec p.1.2 q.1.2),
    (Z.compare_spec p.2 q.2); try done; lia.
Qed.

Lemma lex_le_trans p q r : lex_le p q -> lex_le q r -> lex_le p r.
Proof. unfold lex_le. lia. Qed.

Lemma SFleb_nan_l x : SFleb S754_nan x = false.
Proof. done. Qed.

Lemma SFleb_nan_r x : SFleb x S754_nan = false.
Proof. by destruct x as [[]|[]| |[]]. Qed.

Lemma SFleb_key x y :
  SFleb x y = true <-> x <> S754_nan /\ y <> S754_nan /\ lex_le (fkey x) (fkey y).
Proof.
  split.
  - intros H.
    assert (Hx : x <> S754_nan) by (intros ->; by rewrite SFleb_nan_l in H).
    assert (Hy : y <> S754_nan) by (intros ->; by rewrite SFleb_nan_r in H).
    split; [done|]. split; [done|]. apply lex_compare_le.
    unfold SFleb in H. rewrite (SFcompare_key x y Hx Hy) in H.
    by destruct (lex_compare (fkey x) (fkey y)).
  - intros (Hx & Hy & H). apply lex_compare_le in H.
    unfold SFleb. rewrite (SFcompare_key x y Hx Hy).
    by destruct (lex_compare (fkey x) (fkey y)).
Qed.

Lemma SFleb_trans x y z : SFleb x y = true -> SFleb y z = true -> SFleb x z = true.
Proof.
  rewrite !SFleb_key. intros (Hx & _ & H1) (_ & Hz & H2).
  split; [done|]. split; [done|]. by eapply lex_le_trans.
Qed.

Lemma SFleb_refl x : x <> S754_nan -> SFleb x x = true.
Proof. intros Hx. apply SFleb_key. unfold lex_le. split; [done|]. split; [done|]. lia. Qed.

Lemma nan_or_not x : x = S754_nan \/ x <> S754_nan.
Proof. destruct x; (by left) || (by right). Qed.

(** The greater and the smaller of two floats. *)
Lemma fmaximum_cases x y :
  (fmaximum x y = S754_nan /\ (x = S754_nan \/ y = S754_nan))
  \/ ((fmaximum x y = x \/ fmaximum x y = y)
      /\ SFleb x (fmaximum x y) = true /\ SFleb y (fmaximum x y) = true).
Proof.
  destruct (nan_or_not x) as [->|Hx]; [left; by split; [|left]|].
  destruct (nan_or_not y) as [->|Hy];
    [left; split; [by destruct x as [[]|[]| |[]] | by right]|].
  right. unfold fmaximum. rewrite (SFcompare_key x y Hx Hy).
  destruct (lex_compare (fkey x) (fkey y)) eqn:Hc.
  - split; [by right|]. split; [|by apply SFleb_refl].
    apply SFleb_key. split; [done|]. split; [done|]. apply lex_compare_le. by rewrite Hc.
  - split; [by right|]. split; [|by apply SFleb_refl].
    apply SFleb_key. split; [done|]. split; [done|]. apply lex_compare_le. by rewrite Hc.
  - split; [by left|]. split; [by apply SFleb_refl|].
    apply SFleb_key. split; [done|]. split; [done|]. by apply lex_compare_gt.
Qed.

Lemma fminimum_cases x y :
  (fminimum x y = S754_nan /\ (x = S754_nan \/ y = S754_nan))
  \/ ((fminimum x y = x \/ fminimum x y = y)
      /\ SFleb (fminimum x y) x = true /\ SFleb (fminimum x y) y = true).
Proof.
  destruct (nan_or_not x) as [->|Hx]; [left; by split; [|left]|].
  destruct (nan_or_not y) as [->|Hy];
    [left; split; [by destruct x as [[]|[]| |[]] | by right]|].
  right. unfold fminimum. rewrite (SFcompare_key x y Hx Hy).
  destruct (lex_compare (fkey x) (fkey y)) eqn:Hc.
  - split; [by right|]. split; [|by apply SFleb_refl].
    apply SFleb_key. split; [done|]. split; [done|]. by apply lex_compare_eq.
  - split; [by left|]. split; [by apply SFleb_refl|].
    apply SFleb_key. split; [done|]. split; [done|]. apply lex_compare_le. by rewrite Hc.
  - split; [by right|]. split; [|by apply SFleb_refl].
    apply SFleb_key. split; [done|]. split; [done|]. by apply lex_compare_gt.
Qed.

Lemma fold_max_spec l x0 :
  fold_left Z.max l x0 ∈ x0 :: l /\ Forall (fun z => z <= fold_left Z.max l x0) (x0 :: l).
Proof.
  revert x0. induction l as [|y l IH]; intros x0; simpl.
  - split; [apply list_elem_of_singleton; done | repeat constructor; lia].
  - destruct (IH (Z.max x0 y)) as [Hin Hall]. split.
    + apply elem_of_cons in Hin as [Heq|Hin].
      * rewrite Heq. destruct (Z.max_spec x0 y) as [[_ ->]|[_ ->]].
        -- apply elem_of_cons. right. apply elem_of_cons. by left.
        -- apply elem_of_cons. by left.
      * apply elem_of_cons. right. apply elem_of_cons. by right.
    + inversion Hall as [|? ? H0 Hl]; subst.
      constructor; [lia|]. constructor; [lia|done].
Qed.

Lemma fold_min_spec l x0 :
  fold_left Z.min l x0 ∈ x0 :: l /\ Forall (fun z => fold_left Z.min l x0 <= z) (x0 :: l).
Proof.
  revert x0. induction l as [|y l IH]; intros x0; simpl.
  - split; [apply list_elem_of_singleton; done | repeat constructor; lia].
  - destruct (IH (Z.min x0 y)) as [Hin Hall]. split.
    + apply elem_of_cons in Hin as [Heq|Hin].
      * rewrite Heq. destruct (Z.min_spec x0 y) as [[_ ->]|[_ ->]].
        -- apply elem_of_cons. by left.
        -- apply elem_of_cons. right. apply elem_of_cons. by left.
      * apply elem_of_cons. right. apply elem_of_cons. by right.
    + inversion Hall as [|? ? H0 Hl]; subst.
      constructor; [lia|]. constructor; [lia|done].
Qed.

Lemma fold_fmaximum_spec l x0 :
  fold_left fmaximum l x0 ∈ x0 :: l
  /\ (fold_left fmaximum l x0 = S754_nan
      \/ Forall (fun x => SFleb x (fold_left fmaximum l x0) = true) (x0 :: l)).
Proof.
  revert x0. induction l as [|y l IH]; intros x0; simpl.
  - split; [by apply list_elem_of_singleton|].
    destruct (nan_or_not x0) as [->|Hx]; [by left|].
    right. constructor; [by apply SFleb_refl | constructor].
  - destruct (IH (fmaximum x0 y)) as [Hin Hall].
    set (r := fold_left fmaximum l (fmaximum x0 y)) in *.
    destruct (fmaximum_cases x0 y) as [[Hf Hnan]|[Hf [Hx Hy]]].
    + split.
      * apply elem_of_cons in Hin as [Hr|Hin]; [|by do 2 (apply elem_of_cons; right)].
        rewrite Hr, Hf. destruct Hnan as [->| ->]; apply elem_of_cons; [by left|].
        right. apply elem_of_cons. by left.
      * destruct Hall as [Hr|Hall]; [by left|].
        inversion Hall as [|? ? Hle _]; subst. rewrite Hf in Hle.
        by rewrite SFleb_nan_l in Hle.
    + split.
      * apply elem_of_cons in Hin as [Hr|Hin]; [|by do 2 (apply elem_of_cons; right)].
        rewrite Hr. destruct Hf as [-> | ->]; apply elem_of_cons; [by left|].
        right. apply elem_of_cons. by left.
      * destruct Hall as [Hr|Hall]; [by left|]. right.
        inversion Hall as [|? ? Hle Hl]; subst.
        constructor; [by eapply SFleb_trans|].
        constructor; [by eapply SFleb_trans | done].
Qed.

Lemma fold_fminimum_spec l x0 :
  fold_left fminimum l x0 ∈ x0 :: l
  /\ (fold_left fminimum l x0 = S754_nan
      \/ Forall (fun x => SFleb (fold_left fminimum l x0) x = true) (x0 :: l)).
Proof.
  revert x0. induction l as [|y l IH]; intros x0; simpl.
  - split; [by apply list_elem_of_singleton|].
    destruct (nan_or_not x0) as [->|Hx]; [by left|].
    right. constructor; [by apply SFleb_refl | constructor].
  - destruct (IH (fminimum x0 y)) as [Hin Hall].
    set (r := fold_left fminimum l (fminimum x0 y)) in *.
    destruct (fminimum_cases x0 y) as [[Hf Hnan]|[Hf [Hx Hy]]].
    + split.
      * apply elem_of_cons in Hin as [Hr|Hin]; [|by do 2 (apply elem_of_cons; right)].
        rewrite Hr, Hf. destruct Hnan as [->| ->]; apply elem_of_cons; [by left|].
        right. apply elem_of_cons. by left.
      * destruct Hall as [Hr|Hall]; [by left|].
        inversion Hall as [|? ? Hle _]; subst. rewrite Hf in Hle.
        by rewrite SFleb_nan_r in Hle.
    + split.
      * apply elem_of_cons in Hin as [Hr|Hin]; [|by do 2 (apply elem_of_cons; right)].
        rewrite Hr. destruct Hf as [-> | ->]; apply elem_of_cons; [by left|].
        right. apply elem_of_cons. by left.
      * destruct Hall as [Hr|Hall]; [by left|]. right.
        inversion Hall as [|? ? Hle Hl]; subst.
        constructor; [by eapply SFleb_trans|].
        constructor; [by eapply SFleb_trans | done].
Qed.

(** [np.max] answers a maximum of the elements, [np.min] a minimum. *)
Lemma amax_is_max b r : amax b = Some r -> is_max b r.
Proof.
  destruct b as [k [|x l]|k [|x l]]; try done; intros [= <-]; simpl.
  - split; [done|]. apply fold_max_spec.
  - split; [done|]. apply fold_fmaximum_spec.
Qed.

Lemma amin_is_min b r : amin b = Some r -> is_min b r.
Proof.
  destruct b as [k [|x l]|k [|x l]]; try done; intros [= <-]; simpl.
  - split; [done|]. apply fold_min_spec.
  - split; [done|]. apply fold_fminimum_spec.
Qed.

Lemma normalize_normalized bins b ys : normalize bins b = Some ys -> normalized bins b ys.
Proof.
  unfold normalize, normalized.
  destruct (amax b) as [max_val|] eqn:Hmax; [|done].
  destruct (amin b) as [min_val|] eqn:Hmin; [|done].
  intros H. exists max_val, min_val.
  split; [by apply amax_is_max|]. split; [by apply amin_is_min | done].
Qed.

(** ** [minmax] handed a single array of two or more dimensions *)

Lemma read_array_extends s s' v r :
  extends s s' -> read_array s v = Some r -> read_array s' v = Some r.
Proof.
  intros E. destruct v as [| | | |l]; try done. unfold read_array.
  destruct (heap s !! l) as [[| |a| | |]|] eqn:Hl; try done.
  destruct (heap s !! base a) as [[| | |buf| |]|] eqn:Hb; try done.
  intros H. by rewrite (extends_lookup _ _ _ _ E Hl), (extends_lookup _ _ _ _ E Hb).
Qed.

Section Rows.
Variables (a : ndarray) (buf : buffer) (kwargs : gmap string Z).

Lemma on_slice_row s i ys :
  heap s !! base a = Some (OBuffer buf) ->
  normalize (helper_bins kwargs) (row a buf i) = Some ys ->
  exists p s', on_slice a kwargs i s = Ok p s' /\ extends s s'
               /\ read_array s' p = Some (tail (shape a), FloatBuf float32 ys).
Proof.
  intros Hbuf Hys. unfold on_slice. rewrite bind_unfold, alloc_grow.
  set (s1 := grow s [ONdarray (view a i)]).
  assert (Hread : read_array s1 (VRef (length (heap s)))
                  = Some (tail (shape a), row a buf i)).
  { unfold read_array, s1, grow. simpl heap.
    rewrite lookup_app_r by lia. rewrite Nat.sub_diag. simpl.
    by rewrite (lookup_app_l_Some _ _ _ _ Hbuf). }
  destruct (helper_array s1 _ _ _ kwargs ys Hread Hys) as [Hrun Hout].
  eexists _, _. split; [exact Hrun|]. split; [|exact Hout].
  eapply extends_trans; [apply extends_grow | apply helper_final_extends].
Qed.

Lemma mapM_on_slice (idx : list nat) s :
  heap s !! base a = Some (OBuffer buf) ->
  Forall (fun i => is_Some (normalize (helper_bins kwargs) (row a buf i))) idx ->
  exists ps s', mapM (on_slice a kwargs) idx s = Ok ps s' /\ extends s s'
                /\ Forall2 (row_result a buf kwargs s') idx ps.
Proof.
  intros Hbuf Hidx. revert s Hbuf.
  induction Hidx as [|i idx [ys Hys] _ IH]; intros s Hbuf; simpl.
  - exists [], s. split; [done|]. split; [apply extends_refl | constructor].
  - destruct (on_slice_row s i ys Hbuf Hys) as (p & s1 & Hp & E1 & Hout).
    destruct (IH s1 (extends_lookup _ _ _ _ E1 Hbuf)) as (ps & s2 & Hps & E2 & Hall).
    exists (p :: ps), s2.
    rewrite (bind_ok _ _ _ _ _ Hp), (bind_ok _ _ _ _ _ Hps), ret_unfold.
    split; [done|]. split; [by eapply extends_trans|].
    constructor; [|done]. exists ys. split; [by apply normalize_normalized|].
    by eapply read_array_extends.
Qed.
End Rows.

(** C10: [minmax] called on a single array of two or more dimensions walks
    its first axis and normalizes every slice on its own: the [i]-th array of
    the list it returns has the shape of a slice and holds the elements of
    the [i]-th slice as float32, minus a minimum of that slice, divided by a
    maximum of that slice minus that minimum, times [bins - 1].  The minimum
    is an element of the slice that no element of the slice is below, the
    maximum one that no element of the slice is above (NaN when the slice
    holds one): they are those of the slice, not of the whole array.  On an
    empty list [minmax] returns a new empty list, paired with [None]. *)
Theorem C10_minmax_on_single_array :
  (forall s l a buf d0 d1 rest timing kwargs,
      heap s !! l = Some (ONdarray a) -> shape a = d0 :: d1 :: rest ->
      heap s !! base a = Some (OBuffer buf) ->
      Forall (fun i => is_Some (normalize (helper_bins kwargs) (row a buf i))) (seq 0 d0) ->
      exists lst ps s',
        minmax (VRef l) timing kwargs s = Ok (VRef lst, VNone) s'
        /\ heap s' !! lst = Some (OList ps)
        /\ Forall2 (row_result a buf kwargs s') (seq 0 d0) ps)
  /\ (forall s l timing kwargs,
        heap s !! l = Some (OList []) ->
        exists s',
          minmax (VRef l) timing kwargs s = Ok (VRef (length (heap s)), VNone) s'
          /\ heap s' = heap s ++ [OList []]).
Proof.
  split.
  - intros s l a buf d0 d1 rest timing kwargs Hl Hsh Hbuf Hrows.
    destruct (mapM_on_slice a buf kwargs (seq 0 d0) s Hbuf Hrows)
      as (ps & s1 & Hps & E & Hall).
    assert (Hfor : for_each (VRef l) (fun p => _minmax_helper p kwargs) s = Ok ps s1).
    { unfold for_each. rewrite (bind_ok _ _ _ _ _ (load_some _ _ _ Hl)).
      rewrite Hsh. rewrite <- Hps. unfold on_slice, view. by rewrite Hsh. }
    unfold minmax. rewrite (bind_ok _ _ _ _ _ Hfor), bind_unfold, alloc_grow.
    set (s2 := grow s1 [OList ps]).
    assert (Hlst : heap s2 !! length (heap s1) = Some (OList ps)).
    { unfold s2, grow. simpl. rewrite lookup_app_r by lia. by rewrite Nat.sub_diag. }
    assert (Hall2 : Forall2 (row_result a buf kwargs s2) (seq 0 d0) ps).
    { eapply Forall2_impl; [exact Hall|]. intros i p (ys & Hys & Hout).
      exists ys. split; [done|]. eapply read_array_extends; [apply extends_grow | done]. }
    destruct timing; simpl.
    + eexists _, _, _. split; [reflexivity|]. split; [exact Hlst|].
      eapply Forall2_impl; [exact Hall2|]. intros i p (ys & Hys & Hout).
      exists ys. split; [done|].
      eapply read_array_extends; [apply (frames_logger_info "minmax: %s" s2) | done].
    + eexists _, _, _. split; [reflexivity|]. split; [exact Hlst | exact Hall2].
  - intros s l timing kwargs Hl. unfold minmax.
    assert (Hfor : for_each (VRef l) (fun p => _minmax_helper p kwargs) s = Ok [] s).
    { unfold for_each. rewrite (bind_ok _ _ _ _ _ (load_some _ _ _ Hl)). done. }
    rewrite (bind_ok _ _ _ _ _ Hfor), bind_unfold, alloc_grow.
    destruct timing; eexists; split; reflexivity.
Qed.

Lemma C10_minmax_on_single_array_witness :
  run_minmax_direct [2%nat; 2%nat] (IntBuf uint8 [0; 10; 20; 30]) ∅
  = Some [Some ([2%nat], FloatBuf float32 [of_Z float32 0; of_Z float32 255]);
          Some ([2%nat], FloatBuf float32 [of_Z float32 0; of_Z float32 255])].
Proof.
  destruct (proj1 C10_minmax_on_single_array
              (one_array [2%nat; 2%nat] (IntBuf uint8 [0; 10; 20; 30])) 1%nat
              {| shape := [2%nat; 2%nat]; base := 0%nat; offset := 0 |}
              (IntBuf uint8 [0; 10; 20; 30]) 2%nat 2%nat [] false ∅
              eq_refl eq_refl eq_refl)
    as (lst & ps & s' & Hrun & Hlst & Hrows).
  - repeat constructor; vm_compute; eexists; reflexivity.
  - vm_compute. reflexivity.
Defined.

(** * binary32 arithmetic on small integers

    What the three float32 loops of the helper compute on integers of at most
    24 bits: the conversion and the subtraction are exact, the quotient by the
    range is at most 1, and the product by [bins - 1] is at most [bins - 1].
    [F32 z] is the float32 of the integer [z]. *)

(** ** Binary digits *)

Lemma digits_pos m : 1 <= digits m.
Proof. unfold digits. lia. Qed.

Lemma digits_bounds m : 2 ^ (digits m - 1) <= Zpos m < 2 ^ digits m.
Proof.
  unfold digits. induction m as [p IH|p IH|]; simpl digits2_pos.
  - rewrite Pos2Z.inj_succ.
    replace (Z.succ (Z.pos (digits2_pos p)) - 1) with (Z.succ (Z.pos (digits2_pos p) - 1)) by lia.
    rewrite !Z.pow_succ_r by lia. lia.
  - rewrite Pos2Z.inj_succ.
    replace (Z.succ (Z.pos (digits2_pos p)) - 1) with (Z.succ (Z.pos (digits2_pos p) - 1)) by lia.
    rewrite !Z.pow_succ_r by lia. lia.
  - simpl. lia.
Qed.

Lemma digits_unique m d : 2 ^ (d - 1) <= Zpos m < 2 ^ d -> digits m = d.
Proof.
  intros [Hlo Hhi]. pose proof (digits_bounds m) as [Dlo Dhi].
  pose proof (digits_pos m).
  destruct (Z.lt_trichotomy (digits m) d) as [Hlt|[Heq|Hgt]]; [|done|].
  - assert (2 ^ digits m <= 2 ^ (d - 1)) by (apply Z.pow_le_mono_r; lia). lia.
  - assert (2 ^ d <= 2 ^ (digits m - 1)).
    { destruct (Z.le_gt_cases 0 d).
      - apply Z.pow_le_mono_r; lia.
      - rewrite (Z.pow_neg_r 2 d) by lia. apply Z.pow_nonneg. lia. }
    lia.
Qed.

(** ** Shifting right *)

Lemma shr_1_nonneg m r s :
  0 <= m -> shr_1 (Build_shr_record m r s) = Build_shr_record (m / 2) (Z.odd m) (r || s).
Proof.
  intros Hm. destruct m as [|[p|p|]|]; try lia; simpl; try reflexivity.
  - f_equal. rewrite Pos2Z.inj_xI.
    apply (Z.div_unique_pos _ _ _ 1); lia.
  - f_equal. rewrite Pos2Z.inj_xO.
    apply (Z.div_unique_pos _ _ _ 0); lia.
Qed.

Lemma shifted_1 x : 0 <= shr_m x -> shifted 1 x (shr_1 x).
Proof.
  destruct x as [m r s]. cbn [shr_m]. intros Hm. rewrite shr_1_nonneg by done.
  unfold shifted, is_exact. cbn [shr_m shr_r shr_s].
  split; [by rewrite Z.pow_1_r|]. intros [-> ->] Hmod. split; [|done]. rewrite Z.pow_1_r in Hmod. rewrite <- Z.negb_even.
  apply negb_false_iff. apply Z.even_spec. exists (m / 2).
  pose proof (Z.div_mod m 2). lia.
Qed.

Lemma shifted_trans a b x y z :
  0 <= a -> 0 <= b -> 0 <= shr_m x ->
  shifted a x y -> shifted b y z -> shifted (a + b) x z.
Proof.
  intros Ha Hb Hx [Hy Ey] [Hz Ez]. split.
  - rewrite Hz, Hy, Z.pow_add_r by done. apply Z.div_div; try apply Z.pow_pos_nonneg; lia.
  - intros Hex Hmod. rewrite Z.pow_add_r in Hmod by done.
    assert (A : 0 < 2 ^ a) by (apply Z.pow_pos_nonneg; lia).
    assert (B : 0 < 2 ^ b) by (apply Z.pow_pos_nonneg; lia).
    apply Z.mod_divide in Hmod; [|lia]. destruct Hmod as [c Hc].
    apply Ez.
    + apply Ey; [done|]. rewrite Hc. replace (c * (2 ^ a * 2 ^ b)) with (c * 2 ^ b * 2 ^ a) by lia.
      apply Z.mod_mul. lia.
    + rewrite Hy, Hc. replace (c * (2 ^ a * 2 ^ b)) with (c * 2 ^ b * 2 ^ a) by lia.
      rewrite Z.div_mul by lia. apply Z.mod_mul. lia.
Qed.

Lemma shifted_nonneg n x y : 0 <= n -> 0 <= shr_m x -> shifted n x y -> 0 <= shr_m y.
Proof.
  intros Hn Hx [Hy _]. rewrite Hy. apply Z.div_pos; [done|]. apply Z.pow_pos_nonneg; lia.
Qed.

Lemma iter_pos_shifted p x :
  0 <= shr_m x -> shifted (Zpos p) x (SpecFloat.iter_pos shr_1 p x).
Proof.
  revert x. induction p as [p IH|p IH|]; intros x Hx; simpl.
  - pose proof (shifted_1 x Hx) as H1.
    pose proof (shifted_nonneg 1 _ _ ltac:(lia) Hx H1) as N1.
    pose proof (IH _ N1) as H2.
    pose proof (shifted_nonneg (Zpos p) _ _ ltac:(lia) N1 H2) as N2.
    pose proof (IH _ N2) as H3.
    replace (Z.pos p~1) with (1 + (Z.pos p + Z.pos p)) by lia.
    eapply shifted_trans; [lia|lia|done|exact H1|].
    eapply shifted_trans; [lia|lia|done|exact H2|exact H3].
  - pose proof (IH _ Hx) as H2.
    pose proof (shifted_nonneg (Zpos p) _ _ ltac:(lia) Hx H2) as N2.
    pose proof (IH _ N2) as H3.
    replace (Z.pos p~0) with (Z.pos p + Z.pos p) by lia.
    eapply shifted_trans; [lia|lia|done|exact H2|exact H3].
  - by apply shifted_1.
Qed.

Lemma shr_shifted x e n :
  0 <= n -> 0 <= shr_m x ->
  exists y, shr x e n = (y, e + n) /\ shifted n x y.
Proof.
  intros Hn Hx. destruct n as [|p|p]; [| |lia].
  - exists x. split; [simpl; f_equal; lia|]. split.
    + by rewrite Z.pow_0_r, Z.div_1_r.
    + done.
  - exists (SpecFloat.iter_pos shr_1 p x). split; [done|]. by apply iter_pos_shifted.
Qed.

(** ** Rounding to a normal number *)

Lemma shr_m_of_loc m l : shr_m (shr_record_of_loc m l) = m.
Proof. by destruct l as [|[]]. Qed.

Lemma exact_of_loc m : is_exact (shr_record_of_loc m loc_Exact).
Proof. done. Qed.

Lemma loc_of_exact y : is_exact y -> loc_of_shr_record y = loc_Exact.
Proof. destruct y as [m r s]. unfold is_exact. simpl. by intros [-> ->]. Qed.

Lemma round_nearest_even_cases m l :
  round_nearest_even m l = m \/ round_nearest_even m l = m + 1.
Proof. destruct l as [|[]]; simpl; stdz; try destruct (Z.even m); auto. Qed.

Section Round.
Variables prec emax : Z.
Hypothesis Hprec : 1 < prec.

Lemma fexp_normal e : emin prec emax <= e - prec -> fexp prec emax e = e - prec.
Proof. intros H. unfold fexp. stdz. lia. Qed.

Lemma binary_round_aux_normal s mx ex lx :
  let n := digits mx - prec in
  0 <= n -> emin prec emax <= ex + n -> ex + n + 1 <= emax - prec ->
  exists M E,
    binary_round_aux prec emax s (Zpos mx) ex lx = S754_finite s M E
    /\ digits M = prec
    /\ rounded prec mx ex n M E
    /\ (lx = loc_Exact -> Zpos mx mod 2 ^ n = 0 -> Zpos M = Zpos mx / 2 ^ n /\ E = ex + n).
Proof.
  intros n Hn Hlo Hhi.
  pose proof (digits_bounds mx) as [Dlo Dhi]. fold n in Hlo.
  assert (P2n : 0 < 2 ^ n) by (apply Z.pow_pos_nonneg; lia).
  assert (Hsplit : 2 ^ digits mx = 2 ^ n * 2 ^ prec).
  { rewrite <- Z.pow_add_r by lia. f_equal. lia. }
  assert (Hsplit1 : 2 ^ (digits mx - 1) = 2 ^ n * 2 ^ (prec - 1)).
  { rewrite <- Z.pow_add_r by lia. f_equal. lia. }
  set (m' := Zpos mx / 2 ^ n).
  assert (Hm' : 2 ^ (prec - 1) <= m' < 2 ^ prec).
  { unfold m'. split.
    - apply Z.div_le_lower_bound; lia.
    - apply Z.div_lt_upper_bound; lia. }
  assert (P2p : 0 < 2 ^ (prec - 1)) by (apply Z.pow_pos_nonneg; lia).
  unfold binary_round_aux, shr_fexp.
  change (Zdigits2 (Z.pos mx)) with (digits mx).
  rewrite fexp_normal by (stdz; lia). stdz.
  replace (digits mx + ex - prec - ex) with n by lia.
  destruct (shr_shifted (shr_record_of_loc (Z.pos mx) lx) ex n Hn) as (y & -> & Hy & Hexact).
  { rewrite shr_m_of_loc. lia. }
  rewrite shr_m_of_loc in Hy, Hexact. fold m' in Hy.
  set (m1 := round_nearest_even (shr_m y) (loc_of_shr_record y)).
  assert (Hm1 : m1 = m' \/ m1 = m' + 1).
  { unfold m1. rewrite <- Hy. apply round_nearest_even_cases. }
  assert (Hm1ex : lx = loc_Exact -> Zpos mx mod 2 ^ n = 0 -> m1 = m').
  { intros -> Hmod. unfold m1. rewrite (loc_of_exact y); [by simpl|].
    apply Hexact; [apply exact_of_loc | done]. }
  clearbody m1. clear Hexact.
  destruct (Z.lt_ge_cases m1 (2 ^ prec)) as [Hsmall|Hbig].
  - (* no carry *)
    destruct m1 as [|q|q]; try lia.
    assert (Hq : digits q = prec) by (apply digits_unique; lia).
    change (Zdigits2 (Z.pos q)) with (digits q). rewrite Hq.
    rewrite fexp_normal by lia.
    replace (prec + (ex + n) - prec - (ex + n)) with 0 by lia.
    cbn [shr shr_record_of_loc shr_m].
    replace (ex + n <=? emax - prec) with true by (symmetry; apply Z.leb_le; lia).
    exists q, (ex + n). split; [done|]. split; [done|]. split.
    + unfold rounded. fold m'. destruct Hm1 as [-> | ->]; auto.
    + intros Hl Hmod. by rewrite (Hm1ex Hl Hmod).
  - (* carry: the mantissa is 2 ^ prec *)
    assert (Hm1' : m1 = 2 ^ prec) by lia.
    assert (Hup : m' + 1 = 2 ^ prec) by lia.
    assert (Hpow : 2 ^ prec = 2 * 2 ^ (prec - 1)).
    { rewrite <- Z.pow_succ_r by lia. f_equal. lia. }
    assert (P2 : 0 < 2 ^ prec) by lia.
    destruct m1 as [|q|q]; try lia.
    assert (Hq : digits q = prec + 1).
    { apply digits_unique. replace (prec + 1 - 1) with prec by lia.
      rewrite Z.pow_add_r by lia. lia. }
    change (Zdigits2 (Z.pos q)) with (digits q). rewrite Hq.
    rewrite fexp_normal by lia.
    replace (prec + 1 + (ex + n) - prec - (ex + n)) with 1 by lia.
    cbn [shr shr_record_of_loc SpecFloat.iter_pos].
    rewrite shr_1_nonneg by lia. cbn [shr_m].
    rewrite Hm1', Hpow, Z.mul_comm, Z.div_mul by lia.
    destruct (2 ^ (prec - 1)) as [|h|h] eqn:Hh; try lia.
    stdz. replace (ex + n + 1 <=? emax - prec) with true by (symmetry; apply Z.leb_le; lia).
    exists h, (ex + n + 1). split; [done|]. split.
    { apply digits_unique. rewrite <- Hh. lia. }
    split.
    + right. right. fold m'. repeat split; lia.
    + intros Hl Hmod. rewrite (Hm1ex Hl Hmod) in Hm1'. lia.
Qed.
End Round.

(** ** binary32: integers *)

Lemma iter_xO m d : Zpos (Pos.iter xO m d) = Zpos m * 2 ^ Zpos d.
Proof.
  induction d as [|d IH] using Pos.peano_ind.
  - simpl. lia.
  - rewrite Pos.iter_succ, Pos2Z.inj_xO, IH, Pos2Z.inj_succ, Z.pow_succ_r by lia. lia.
Qed.

Lemma shl_align_fst m e e' :
  e' <= e -> Zpos (fst (shl_align m e e')) = Zpos m * 2 ^ (e - e').
Proof.
  intros H. unfold shl_align. stdz.
  destruct (e' - e) as [|d|d] eqn:Hd; try lia; simpl fst.
  - replace (e - e') with 0 by lia. lia.
  - rewrite iter_xO. f_equal. f_equal. lia.
Qed.

Lemma shl_align_snd m e e' : e' <= e -> snd (shl_align m e e') = e'.
Proof.
  intros H. unfold shl_align. stdz.
  destruct (e' - e) as [|d|d] eqn:Hd; try lia; simpl; lia.
Qed.

Lemma shl_align_ge m e e' : e <= e' -> shl_align m e e' = (m, e).
Proof.
  intros H. unfold shl_align. stdz. destruct (e' - e) as [|d|d] eqn:Hd; try lia; done.
Qed.

Lemma norm_spec z : digits z <= 24 -> Zpos (norm z) = Zpos z * 2 ^ (24 - digits z).
Proof.
  intros H. unfold norm. rewrite Z2Pos.id; [done|].
  assert (0 < 2 ^ (24 - digits z)) by (apply Z.pow_pos_nonneg; lia). lia.
Qed.

Lemma norm_digits z : digits z <= 24 -> digits (norm z) = 24.
Proof.
  intros H. apply digits_unique. rewrite norm_spec by done.
  pose proof (digits_bounds z) as [Dlo Dhi]. pose proof (digits_pos z).
  assert (P : 0 < 2 ^ (24 - digits z)) by (apply Z.pow_pos_nonneg; lia).
  replace (2 ^ (24 - 1)) with (2 ^ (digits z - 1) * 2 ^ (24 - digits z)).
  2:{ rewrite <- Z.pow_add_r by lia. f_equal. lia. }
  replace (2 ^ 24) with (2 ^ digits z * 2 ^ (24 - digits z)).
  2:{ rewrite <- Z.pow_add_r by lia. f_equal. lia. }
  split; [apply Z.mul_le_mono_nonneg_r | apply Z.mul_lt_mono_pos_r]; lia.
Qed.

Lemma emin32 : emin 24 128 = -149.
Proof. reflexivity. Qed.

(** Rounding an integer of at most 24 bits, however it is scaled, is exact. *)
Lemma binary_round_exact s m k z :
  0 <= k -> Zpos m = Zpos z * 2 ^ k -> digits z <= 24 ->
  binary_round 24 128 s m (- k) = S754_finite s (norm z) (digits z - 24).
Proof.
  intros Hk Hm Hz.
  pose proof (digits_bounds z) as [Dlo Dhi]. pose proof (digits_pos z).
  assert (P2k : 0 < 2 ^ k) by (apply Z.pow_pos_nonneg; lia).
  assert (Hdm : digits m = digits z + k).
  { apply digits_unique. rewrite Hm.
    replace (digits z + k - 1) with (digits z - 1 + k) by lia.
    rewrite !Z.pow_add_r by lia.
    split; [apply Z.mul_le_mono_nonneg_r | apply Z.mul_lt_mono_pos_r]; lia. }
  unfold binary_round.
  change (Z.pos (digits2_pos m)) with (digits m). stdz. rewrite Hdm.
  rewrite (fexp_normal 24 128) by (rewrite emin32; lia).
  replace (digits z + k + - k - 24) with (digits z - 24) by lia.
  destruct (Z.le_gt_cases (- k) (digits z - 24)) as [Hle|Hgt].
  - (* the mantissa is long enough: the rounding shifts it right *)
    rewrite shl_align_ge by done.
    pose proof (binary_round_aux_normal 24 128 ltac:(lia) s m (- k) loc_Exact) as R.
    cbv zeta in R. rewrite emin32, Hdm in R.
    destruct R as (M & E & -> & _ & _ & Hex); try lia.
    set (n := digits z + k - 24) in *.
    assert (Hsplit : 2 ^ k = 2 ^ (24 - digits z) * 2 ^ n).
    { rewrite <- Z.pow_add_r by lia. f_equal. lia. }
    assert (P2n : 0 < 2 ^ n) by (apply Z.pow_pos_nonneg; lia).
    destruct Hex as [HM HE]; [done| |].
    { rewrite Hm, Hsplit, Z.mul_assoc. apply Z.mod_mul. lia. }
    f_equal; [|lia]. apply Pos2Z.inj. rewrite HM, norm_spec by done.
    rewrite Hm, Hsplit, Z.mul_assoc. apply Z.div_mul. lia.
  - (* the mantissa is short: it is shifted left first *)
    destruct (shl_align m (- k) (digits z - 24)) as [mz ez] eqn:Hal.
    assert (Hmz : Zpos mz = Zpos (norm z)).
    { change mz with (fst (mz, ez)). rewrite <- Hal, shl_align_fst by lia.
      rewrite norm_spec, Hm by done. rewrite <- Z.mul_assoc, <- Z.pow_add_r by lia.
      f_equal. f_equal. lia. }
    assert (Hez : ez = digits z - 24).
    { change ez with (snd (mz, ez)). rewrite <- Hal. apply shl_align_snd. lia. }
    apply Pos2Z.inj in Hmz. subst mz ez.
    pose proof (norm_digits z Hz) as Hnd.
    pose proof (binary_round_aux_normal 24 128 ltac:(lia) s (norm z) (digits z - 24)
                  loc_Exact) as R.
    cbv zeta in R. rewrite emin32, Hnd in R. replace (24 - 24) with 0 in R by lia.
    rewrite Z.pow_0_r, Z.mod_1_r, Z.div_1_r in R.
    destruct R as (M & E & -> & _ & _ & Hex); try lia.
    destruct Hex as [HM HE]; [done|done|].
    f_equal; [|lia]. by apply Pos2Z.inj.
Qed.

Lemma F32_pos z : digits z <= 24 -> F32 (Zpos z) = S754_finite false (norm z) (digits z - 24).
Proof.
  intros H. unfold of_Z, binary_normalize.
  apply (binary_round_exact false z 0 z); [lia | | done]. rewrite Z.pow_0_r. lia.
Qed.

Lemma F32_neg z : digits z <= 24 -> F32 (Zneg z) = S754_finite true (norm z) (digits z - 24).
Proof.
  intros H. unfold of_Z, binary_normalize.
  apply (binary_round_exact true z 0 z); [lia | | done]. rewrite Z.pow_0_r. lia.
Qed.

Lemma digits_le_24 z : Zpos z < 2 ^ 24 -> digits z <= 24.
Proof.
  intros H. pose proof (digits_bounds z) as [Dlo _].
  destruct (Z.le_gt_cases (digits z) 24) as [|Hgt]; [done|].
  assert (2 ^ 24 <= 2 ^ (digits z - 1)) by (apply Z.pow_le_mono_r; lia). lia.
Qed.

Lemma F32_zero : F32 0 = S754_zero false.
Proof. reflexivity. Qed.

Lemma binary_normalize_exact v k z :
  0 <= k -> v = z * 2 ^ k -> Z.abs z < 2 ^ 24 ->
  binary_normalize 24 128 v (- k) false = F32 z.
Proof.
  intros Hk Hv Hz.
  assert (P2k : 0 < 2 ^ k) by (apply Z.pow_pos_nonneg; lia).
  destruct z as [|z|z].
  - by subst v.
  - destruct v as [|m|m]; try lia. rewrite F32_pos by (apply digits_le_24; lia).
    apply binary_round_exact; [done|done|]. apply digits_le_24. lia.
  - destruct v as [|m|m]; try lia. rewrite F32_neg by (apply digits_le_24; lia).
    apply binary_round_exact; [done|lia|]. apply digits_le_24. lia.
Qed.

Lemma aligned z e :
  digits z <= 24 -> e <= digits z - 24 ->
  Zpos (fst (shl_align (norm z) (digits z - 24) e)) = Zpos z * 2 ^ (- e).
Proof.
  intros Hz He. pose proof (digits_pos z).
  rewrite shl_align_fst, norm_spec by done.
  rewrite <- Z.mul_assoc, <- Z.pow_add_r by lia. f_equal. f_equal. lia.
Qed.

(** Subtraction of integers of at most 24 bits is exact when the difference
    has at most 24 bits. *)
Lemma SFsub_F32 x y :
  Z.abs x < 2 ^ 24 -> Z.abs y < 2 ^ 24 -> Z.abs (x - y) < 2 ^ 24 ->
  SFsub 24 128 (F32 x) (F32 y) = F32 (x - y).
Proof.
  intros Hx Hy Hxy.
  destruct x as [|x|x], y as [|y|y];
    rewrite ?F32_zero, ?F32_pos, ?F32_neg by (apply digits_le_24; lia);
    try reflexivity.
  1: change (0 - Z.pos y) with (Z.neg y).
  2: change (0 - Z.neg y) with (Z.pos y).
  1,2: rewrite ?F32_pos, ?F32_neg by (apply digits_le_24; lia); reflexivity.
  all: try (match goal with
            | |- context [F32 (?a - 0)] =>
                rewrite (Z.sub_0_r a), ?F32_pos, ?F32_neg by (apply digits_le_24; lia);
                reflexivity
            end).
  all: unfold SFsub; stdz;
    set (e := Z.min (digits x - 24) (digits y - 24));
    pose proof (digits_pos x); pose proof (digits_pos y);
    assert (Dx : digits x <= 24) by (apply digits_le_24; lia);
    assert (Dy : digits y <= 24) by (apply digits_le_24; lia);
    rewrite !aligned by lia;
    replace e with (- - e) at 3 by lia;
    apply binary_normalize_exact; [lia | unfold cond_Zopp; lia | done].
Qed.

Lemma digits_mono a b : (a <= b)%positive -> digits a <= digits b.
Proof.
  intros H. pose proof (digits_bounds a) as [Alo _]. pose proof (digits_bounds b) as [_ Bhi].
  destruct (Z.le_gt_cases (digits a) (digits b)) as [|Hgt]; [done|].
  assert (2 ^ digits b <= 2 ^ (digits a - 1)).
  { apply Z.pow_le_mono_r; [lia|]. lia. }
  lia.
Qed.

Lemma new_location_exact n : new_location n 0 = loc_Exact.
Proof. unfold new_location, new_location_even, new_location_odd. by destruct (IntDef.Z.even n). Qed.

Lemma div_core_normal m1 e1 m2 e2 :
  digits m1 = 24 -> digits m2 = 24 -> -149 <= e1 - e2 - 24 ->
  SFdiv_core_binary 24 128 (Zpos m1) e1 (Zpos m2) e2
  = (Zpos m1 * 2 ^ 24 / Zpos m2, e1 - e2 - 24,
     new_location (Zpos m2) ((Zpos m1 * 2 ^ 24) mod Zpos m2)).
Proof.
  intros H1 H2 He. unfold SFdiv_core_binary.
  change (Zdigits2 (Z.pos m1)) with (digits m1).
  change (Zdigits2 (Z.pos m2)) with (digits m2).
  rewrite H1, H2. stdz. cbv zeta.
  rewrite (fexp_normal 24 128) by (rewrite emin32; lia).
  replace (24 + e1 - (24 + e2) - 24) with (e1 - e2 - 24) by lia.
  rewrite Z.min_l by lia.
  replace (e1 - e2 - (e1 - e2 - 24)) with 24 by lia.
  rewrite Z.shiftl_mul_pow2 by lia.
  unfold Z.div, Z.modulo. by destruct (Z.div_eucl _ _).
Qed.

Lemma SFdiv_F32 a d :
  (a <= d)%positive -> Zpos d < 2 ^ 24 ->
  unit_float (SFdiv 24 128 (F32 (Zpos a)) (F32 (Zpos d)))
  /\ (a = d -> SFdiv 24 128 (F32 (Zpos a)) (F32 (Zpos d)) = F32 1).
Proof.
  intros Had Hd.
  assert (Da : digits a <= 24) by (apply digits_le_24; lia).
  assert (Dd : digits d <= 24) by (apply digits_le_24; lia).
  pose proof (digits_pos a). pose proof (digits_pos d).
  pose proof (digits_mono a d Had) as Hmono.
  pose proof (norm_digits a Da) as Na. pose proof (norm_digits d Dd) as Nd.
  pose proof (digits_bounds (norm a)) as [Alo Ahi].
  pose proof (digits_bounds (norm d)) as [Dlo Dhi].
  rewrite Na in Alo, Ahi. rewrite Nd in Dlo, Dhi.
  change (2 ^ (24 - 1)) with 8388608 in *. change (2 ^ 24) with 16777216 in *.
  rewrite !F32_pos by done.
  unfold SFdiv. rewrite div_core_normal by (try done; lia).
  change (2 ^ 24) with 16777216.
  set (q := Z.pos (norm a) * 16777216 / Z.pos (norm d)).
  set (r := (Z.pos (norm a) * 16777216) mod Z.pos (norm d)).
  set (e' := digits a - 24 - (digits d - 24) - 24).
  assert (Hq : 8388608 <= q < 33554432).
  { unfold q. split.
    - apply Z.div_le_lower_bound; lia.
    - apply Z.div_lt_upper_bound; lia. }
  destruct q as [|pq|pq] eqn:Eq; try lia.
  assert (Dq : digits pq = 24 \/ digits pq = 25).
  { destruct (Z.lt_ge_cases (Z.pos pq) 16777216).
    - left. apply digits_unique. change (2 ^ (24 - 1)) with 8388608.
      change (2 ^ 24) with 16777216. lia.
    - right. apply digits_unique. change (2 ^ (25 - 1)) with 16777216.
      change (2 ^ 25) with 33554432. lia. }
  assert (He' : -47 <= e' <= -24) by (unfold e'; lia).
  pose proof (binary_round_aux_normal 24 128 ltac:(lia) false pq e'
                (new_location (Z.pos (norm d)) r)) as R.
  cbv zeta in R. rewrite emin32 in R.
  destruct R as (M & E & HR & DM & Hround & Hex); try lia.
  change (xorb false false) with false. rewrite HR.
  set (n := digits pq - 24) in *.
  assert (Hn : n = 0 \/ n = 1) by (unfold n; lia).
  assert (Hnorm : digits a = digits d -> Z.pos (norm a) <= Z.pos (norm d)).
  { intros Heq. rewrite !norm_spec, Heq by done.
    apply Z.mul_le_mono_nonneg_r; [|lia]. apply Z.pow_nonneg. lia. }
  assert (Hsame : Z.pos (norm a) = Z.pos (norm d) ->
                  Z.pos M = 8388608 /\ E = e' + 1).
  { intros Heq. unfold q, r in *. rewrite Heq in *.
    rewrite Z.mul_comm, Z.div_mul in Eq by lia.
    rewrite Z.mul_comm, Z.mod_mul, new_location_exact in Hex by lia.
    injection Eq as <-. change (digits 16777216) with 25 in *.
    destruct Hex as [HM HE]; [done|done|].
    split; [exact HM|]. subst n. lia. }
  assert (Hless : Z.pos (norm a) < Z.pos (norm d) -> n = 0).
  { intros Hlt. assert (Z.pos pq < 16777216).
    { rewrite <- Eq. unfold q. apply Z.div_lt_upper_bound; lia. }
    pose proof (digits_bounds pq) as [Plo _].
    destruct Hn as [|Hn1]; [done|]. unfold n in Hn1.
    replace (digits pq - 1) with 24 in Plo by lia.
    change (2 ^ 24) with 16777216 in Plo. lia. }
  split.
  - exists M, E. split; [done|]. split; [done|].
    change (2 ^ 23) with 8388608.
    destruct (Z.eq_dec (Z.pos (norm a)) (Z.pos (norm d))) as [Heq|Hne].
    { destruct (Hsame Heq) as [-> ->]. lia. }
    unfold rounded in Hround. change (2 ^ (24 - 1)) with 8388608 in Hround.
    destruct (Z.eq_dec (digits a) (digits d)) as [Hdd|Hdd].
    + pose proof (Hnorm Hdd). rewrite Hless in * by lia.
      unfold e' in *. lia.
    + unfold e' in *. lia.
  - intros ->. destruct (Hsame eq_refl) as [HM ->].
    change (digits 1 - 24) with (-23). f_equal; [|unfold e'; lia].
    apply Pos2Z.inj. rewrite HM. reflexivity.
Qed.

Lemma F32_one : F32 1 = S754_finite false 8388608 (-23).
Proof. reflexivity. Qed.

Lemma SFmul_unit q b :
  unit_float q -> digits b <= 24 ->
  (exists M E, SFmul 24 128 q (F32 (Zpos b)) = S754_finite false M E
               /\ le_float M E (norm b) (digits b - 24))
  /\ (q = F32 1 -> SFmul 24 128 q (F32 (Zpos b)) = F32 (Zpos b)).
Proof.
  intros (Mq & Eq & -> & DMq & Elo & Hle) Db.
  pose proof (digits_pos b).
  pose proof (norm_digits b Db) as Nb.
  pose proof (digits_bounds Mq) as [Qlo Qhi].
  pose proof (digits_bounds (norm b)) as [Blo Bhi].
  rewrite DMq in Qlo, Qhi. rewrite Nb in Blo, Bhi.
  change (2 ^ (24 - 1)) with 8388608 in *. change (2 ^ 24) with 16777216 in *.
  change (2 ^ 23) with 8388608 in *.
  rewrite F32_pos by done. unfold SFmul. stdz.
  change (xorb false false) with false.
  set (P := (Mq * norm b)%positive).
  assert (HP : Zpos P = Zpos Mq * Zpos (norm b)) by apply Pos2Z.inj_mul.
  assert (HPb : 70368744177664 <= Zpos P < 281474976710656) by nia.
  assert (DP : digits P = 47 \/ digits P = 48).
  { destruct (Z.lt_ge_cases (Z.pos P) 140737488355328).
    - left. apply digits_unique. change (2 ^ (47 - 1)) with 70368744177664.
      change (2 ^ 47) with 140737488355328. lia.
    - right. apply digits_unique. change (2 ^ (48 - 1)) with 140737488355328.
      change (2 ^ 48) with 281474976710656. lia. }
  pose proof (binary_round_aux_normal 24 128 ltac:(lia) false P (Eq + (digits b - 24))
                loc_Exact) as R.
  cbv zeta in R. rewrite emin32 in R.
  destruct R as (M & E & -> & DM & Hround & Hex); try lia.
  set (n := digits P - 24) in *.
  set (m' := Z.pos P / 2 ^ n) in *.
  assert (Hn : n = 23 \/ n = 24) by (unfold n; lia).
  assert (Hone : Zpos Mq = 8388608 -> Zpos M = Zpos (norm b) /\ E = Eq + (digits b - 24) + 23).
  { intros HMq. rewrite HMq in HP.
    assert (Hn23 : n = 23).
    { destruct Hn as [|Hn24]; [done|]. unfold n in Hn24.
      pose proof (digits_bounds P) as [Plo _].
      replace (digits P - 1) with 47 in Plo by lia.
      change (2 ^ 47) with 140737488355328 in Plo. lia. }
    unfold m' in *. rewrite Hn23 in *. change (2 ^ 23) with 8388608 in *.
    rewrite HP, Z.mul_comm in Hex. rewrite Z.mod_mul, Z.div_mul in Hex by lia.
    destruct Hex as [HM HE]; done. }
  assert (Hm' : n = 24 -> m' < Zpos (norm b)).
  { intros Hn24. unfold m'. rewrite Hn24. change (2 ^ 24) with 16777216.
    apply Z.div_lt_upper_bound; nia. }
  split.
  - exists M, E. split; [done|]. unfold le_float.
    destruct Hle as [Hlt|[-> HMq]].
    + unfold rounded in Hround. fold m' in Hround.
      change (2 ^ (24 - 1)) with 8388608 in Hround.
      change (2 ^ 24) with 16777216 in Hround.
      destruct Hn as [Hn23|Hn24].
      * rewrite Hn23 in *. lia.
      * specialize (Hm' Hn24). rewrite Hn24 in *. lia.
    + destruct (Hone HMq) as [-> ->]. lia.
  - rewrite F32_one. intros [= -> ->]. destruct (Hone eq_refl) as [HM ->].
    f_equal; [|lia]. by apply Pos2Z.inj.
Qed.

(** ** One element of the normalization *)

Lemma rescale_spec mn mx b z :
  Z.abs mn < 2 ^ 24 -> Z.abs mx < 2 ^ 24 -> 0 < mx - mn < 2 ^ 24 ->
  Zpos b < 2 ^ 24 -> mn <= z <= mx ->
  below b (rescale mn (mx - mn) (Zpos b) z)
  /\ (z = mn -> rescale mn (mx - mn) (Zpos b) z = S754_zero false)
  /\ (z = mx -> rescale mn (mx - mn) (Zpos b) z = F32 (Zpos b)).
Proof.
  intros Hmn Hmx Hd Hb Hz. unfold rescale.
  assert (Db : digits b <= 24) by (apply digits_le_24; lia).
  rewrite SFsub_F32 by lia.
  destruct (mx - mn) as [|d|d] eqn:Ed; try lia.
  assert (Dd : digits d <= 24) by (apply digits_le_24; lia).
  destruct (z - mn) as [|a|a] eqn:Ea; try lia.
  - rewrite F32_zero, (F32_pos d), (F32_pos b) by done. simpl.
    split; [by left|]. split; [done|]. intros ->. lia.
  - destruct (SFdiv_F32 a d) as [Hq Hq1]; [lia|lia|].
    destruct (SFmul_unit _ b Hq Db) as [(M & E & HM & Hle) H1].
    split; [right; by exists M, E|]. split; [intros ->; lia|].
    intros ->. apply H1, Hq1. lia.
Qed.

(** ** Maximum and minimum of the result *)

Lemma fold_absorb {A} (f : A -> A -> A) (P : A -> Prop) (t : A) :
  (forall x, P x -> f t x = t) -> (forall x, P x -> f x t = t) ->
  (forall x y, P x -> P y -> P (f x y)) ->
  forall l x0, Forall P (x0 :: l) -> t ∈ x0 :: l -> fold_left f l x0 = t.
Proof.
  intros Hl Hr Hc. induction l as [|y l IH]; intros x0 HP Ht; simpl.
  - apply list_elem_of_singleton in Ht. done.
  - inversion HP as [|? ? Px0 HP']; subst. inversion HP' as [|? ? Py HPl]; subst.
    apply IH; [constructor; auto|].
    apply elem_of_cons in Ht as [->|Ht].
    + rewrite Hl by done. apply elem_of_cons. by left.
    + apply elem_of_cons in Ht as [->|Ht].
      * rewrite Hr by done. apply elem_of_cons. by left.
      * apply elem_of_cons. by right.
Qed.

Lemma SFcompare_pos m1 e1 m2 e2 :
  SFcompare (S754_finite false m1 e1) (S754_finite false m2 e2)
  = Some match e1 ?= e2 with
         | Lt => Lt
         | Gt => Gt
         | Eq => (m1 ?= m2)%positive
         end.
Proof. reflexivity. Qed.

Section Below.
Variable b : positive.

Let B := S754_finite false (norm b) (digits b - 24).

Lemma below_top : below b B.
Proof. right. exists (norm b), (digits b - 24). split; [done|]. right. lia. Qed.

Lemma fmaximum_top_l x : below b x -> fmaximum B x = B.
Proof.
  intros [->|(M & E & -> & Hle)]; [done|].
  unfold fmaximum, B. rewrite SFcompare_pos.
  destruct Hle as [Hlt|[-> HM]].
  - by rewrite (proj2 (Z.compare_gt_iff _ _) Hlt).
  - rewrite Z.compare_refl.
    destruct (Pos.compare_spec (norm b) M) as [Heq|Hlt|Hgt]; try done.
    + by subst.
    + lia.
Qed.

Lemma fmaximum_top_r x : below b x -> fmaximum x B = B.
Proof.
  intros [->|(M & E & -> & Hle)]; [done|].
  unfold fmaximum, B. rewrite SFcompare_pos.
  destruct Hle as [Hlt|[-> HM]].
  - by rewrite (proj2 (Z.compare_lt_iff _ _) Hlt).
  - rewrite Z.compare_refl.
    destruct (Pos.compare_spec M (norm b)) as [Heq|Hlt|Hgt]; try done. lia.
Qed.

Lemma fmaximum_below x y : below b x -> below b y -> below b (fmaximum x y).
Proof.
  intros Hx Hy. unfold fmaximum.
  destruct Hx as [->|(M & E & -> & Hle)], Hy as [->|(M' & E' & -> & Hle')].
  - by left.
  - right. by exists M', E'.
  - right. by exists M, E.
  - rewrite SFcompare_pos.
    destruct (match E ?= E' with Eq => (M ?= M')%positive | Lt => Lt | Gt => Gt end);
      right; eauto.
Qed.

Lemma fold_maximum l x0 :
  Forall (below b) (x0 :: l) -> B ∈ x0 :: l -> fold_left fmaximum l x0 = B.
Proof.
  apply fold_absorb; auto using fmaximum_top_l, fmaximum_top_r, fmaximum_below.
Qed.
End Below.

Lemma below_nonneg b x : below b x -> nonneg x.
Proof. intros [->|(M & E & -> & _)]; [by left | right; eauto]. Qed.

Lemma fold_minimum l x0 :
  Forall nonneg (x0 :: l) -> S754_zero false ∈ x0 :: l ->
  fold_left fminimum l x0 = S754_zero false.
Proof.
  apply fold_absorb.
  - by intros x [->|(M & E & ->)].
  - by intros x [->|(M & E & ->)].
  - intros x y [->|(M & E & ->)] [->|(M' & E' & ->)]; unfold fminimum.
    + by left.
    + by left.
    + by left.
    + rewrite SFcompare_pos.
      destruct (match E ?= E' with Eq => (M ?= M')%positive | Lt => Lt | Gt => Gt end);
        right; eauto.
Qed.

(** * Rounding in general

    What [binary_round_aux], [binary_round] and the operations built on them
    compute, for every precision: the nearest float, ties to even, with
    carry, underflow to subnormal numbers and overflow. *)

(** ** The nearest integer *)

Lemma locate_exact N D : N mod D = 0 -> locate N D = loc_Exact.
Proof. intros H. unfold locate. by rewrite H. Qed.

Lemma shr_rec_m N D : shr_m (shr_rec N D) = N / D.
Proof. apply shr_m_of_loc. Qed.

Lemma loc_of_shr_rec N D : loc_of_shr_record (shr_rec N D) = locate N D.
Proof. unfold shr_rec. by destruct (locate N D) as [|[]]. Qed.

Ltac zbool :=
  repeat match goal with
         | |- context [?a <=? ?b] => destruct (Z.leb_spec a b)
         | |- context [?a <? ?b] => destruct (Z.ltb_spec a b)
         | |- context [?a =? ?b] => destruct (Z.eqb_spec a b)
         end;
  simpl; try done; try lia.

Lemma shr_rec_bits N D :
  0 < D ->
  shr_rec N D
  = Build_shr_record (N / D) (D <=? 2 * (N mod D))
      (negb (N mod D =? 0) && negb (2 * (N mod D) =? D)).
Proof.
  intros HD. unfold shr_rec, locate.
  pose proof (Z.mod_pos_bound N D HD) as Hr.
  destruct (Z.eqb_spec (N mod D) 0) as [H0|H0].
  - rewrite H0. simpl. f_equal. zbool.
  - destruct (Z.compare_spec (2 * (N mod D)) D) as [H|H|H]; simpl; f_equal; zbool.
Qed.

Lemma shr_1_rec N D : 0 <= N -> 0 < D -> shr_1 (shr_rec N D) = shr_rec N (2 * D).
Proof.
  intros HN HD.
  rewrite (shr_rec_bits N D HD), (shr_rec_bits N (2 * D)) by lia.
  rewrite shr_1_nonneg by (apply Z.div_pos; lia).
  pose proof (Z.mod_pos_bound N D HD) as Hr.
  assert (Hq : N / (2 * D) = N / D / 2).
  { rewrite (Z.mul_comm 2 D). symmetry. apply Z.div_div; lia. }
  assert (Hm : N mod (2 * D) = N mod D + D * ((N / D) mod 2)).
  { rewrite (Z.mul_comm 2 D). apply Z.rem_mul_r; lia. }
  rewrite Hq, Hm.
  pose proof (Z.mod_pos_bound (N / D) 2 ltac:(lia)) as Hb.
  rewrite (Zodd_mod (N / D)).
  assert (Hcase : (N / D) mod 2 = 0 \/ (N / D) mod 2 = 1) by lia.
  destruct Hcase as [-> | ->]; f_equal; zbool.
Qed.

Lemma iter_shr_rec p N D :
  0 <= N -> 0 < D -> SpecFloat.iter_pos shr_1 p (shr_rec N D) = shr_rec N (D * 2 ^ Zpos p).
Proof.
  intros HN. revert D. induction p as [p IH|p IH|]; intros D HD; simpl SpecFloat.iter_pos.
  - assert (0 < 2 ^ Zpos p) by (apply Z.pow_pos_nonneg; lia).
    rewrite shr_1_rec, IH, IH by nia.
    f_equal. replace (Z.pos p~1) with (1 + Z.pos p + Z.pos p) by lia.
    rewrite !Z.pow_add_r, Z.pow_1_r by lia. ring.
  - assert (0 < 2 ^ Zpos p) by (apply Z.pow_pos_nonneg; lia).
    rewrite IH, IH by nia.
    f_equal. replace (Z.pos p~0) with (Z.pos p + Z.pos p) by lia.
    rewrite !Z.pow_add_r by lia. ring.
  - rewrite shr_1_rec by done. f_equal. rewrite Z.pow_1_r. lia.
Qed.

Lemma shr_shr_rec N D e n :
  0 <= N -> 0 < D -> 0 <= n -> shr (shr_rec N D) e n = (shr_rec N (D * 2 ^ n), e + n).
Proof.
  intros HN HD Hn. destruct n as [|p|p]; [| |lia].
  - simpl. by rewrite Z.mul_1_r, Z.add_0_r.
  - unfold shr. by rewrite iter_shr_rec.
Qed.

(** The nearest integer, by the remainder. *)
Lemma rne_unfold N D :
  0 < D ->
  rne N D = N / D + (if (D <? 2 * (N mod D)) || ((2 * (N mod D) =? D) && Z.odd (N / D))
                     then 1 else 0).
Proof.
  intros HD. unfold rne, locate.
  pose proof (Z.mod_pos_bound N D HD) as Hr.
  destruct (Z.eqb_spec (N mod D) 0) as [H0|H0].
  - rewrite H0. simpl round_nearest_even.
    destruct (Z.ltb_spec D (2 * 0)); [lia|]. destruct (Z.eqb_spec (2 * 0) D); [lia|].
    simpl. lia.
  - destruct (Z.compare_spec (2 * (N mod D)) D) as [H|H|H]; simpl round_nearest_even; stdz.
    + rewrite H, Z.ltb_irrefl, Z.eqb_refl. simpl. rewrite <- Z.negb_odd.
      destruct (Z.odd (N / D)); simpl; lia.
    + destruct (Z.ltb_spec D (2 * (N mod D))); [lia|].
      destruct (Z.eqb_spec (2 * (N mod D)) D); [lia|]. simpl. lia.
    + destruct (Z.ltb_spec D (2 * (N mod D))); [|lia]. simpl. lia.
Qed.

Lemma rne_bounds N D : 0 < D -> N / D <= rne N D <= N / D + 1.
Proof.
  intros HD. rewrite rne_unfold by done.
  destruct ((D <? 2 * (N mod D)) || _); lia.
Qed.

Lemma rne_exact N D : 0 < D -> N mod D = 0 -> rne N D = N / D.
Proof. intros HD H. unfold rne. by rewrite locate_exact. Qed.

Lemma rne_mul k D : 0 < D -> rne (k * D) D = k.
Proof.
  intros HD. rewrite rne_exact by (try apply Z.mod_mul; lia). apply Z.div_mul. lia.
Qed.

Lemma rne_1 N : rne N 1 = N.
Proof. rewrite <- (Z.mul_1_r N) at 1. by apply rne_mul. Qed.

Lemma rne_le N D k : 0 < D -> N <= k * D -> rne N D <= k.
Proof.
  intros HD H. destruct (Z.eq_dec (N mod D) 0) as [H0|H0].
  - rewrite rne_exact by done. apply Z.div_le_upper_bound; lia.
  - pose proof (rne_bounds N D HD) as [_ Hup].
    assert (N / D < k); [|lia].
    apply Z.div_lt_upper_bound; [done|].
    assert (N <> k * D); [|lia].
    intros ->. by rewrite Z.mod_mul in H0 by lia.
Qed.

Lemma rne_ge N D k : 0 < D -> k * D <= N -> k <= rne N D.
Proof.
  intros HD H. pose proof (rne_bounds N D HD) as [Hlo _].
  assert (k <= N / D); [|lia]. apply Z.div_le_lower_bound; lia.
Qed.

Lemma rne_mono N N' D : 0 < D -> N <= N' -> rne N D <= rne N' D.
Proof.
  intros HD H.
  pose proof (Z.div_le_mono N N' D HD H) as Hq.
  destruct (Z.eq_dec (N / D) (N' / D)) as [Heq|Hne].
  - rewrite !rne_unfold by done. rewrite <- Heq.
    pose proof (Z.div_mod N D ltac:(lia)) as E1.
    pose proof (Z.div_mod N' D ltac:(lia)) as E2.
    assert (Hr : N mod D <= N' mod D) by nia.
    destruct (Z.ltb_spec D (2 * (N mod D))) as [H1|H1]; simpl.
    + destruct (Z.ltb_spec D (2 * (N' mod D))); [simpl; lia|lia].
    + destruct (Z.eqb_spec (2 * (N mod D)) D) as [H2|H2]; simpl.
      * destruct (Z.odd (N / D)); [|destruct (_ || _); lia].
        destruct (Z.ltb_spec D (2 * (N' mod D))); simpl; [lia|].
        destruct (Z.eqb_spec (2 * (N' mod D)) D); simpl; lia.
      * destruct (_ || _); lia.
  - pose proof (rne_bounds N D HD). pose proof (rne_bounds N' D HD). lia.
Qed.

Lemma rne_scale N D c : 0 < D -> 0 < c -> rne (N * c) (D * c) = rne N D.
Proof.
  intros HD Hc. rewrite !rne_unfold by (try apply Z.mul_pos_pos; lia).
  rewrite Z.div_mul_cancel_r, Zmult_mod_distr_r by lia.
  rewrite !Z.mul_assoc.
  assert (H1 : (D * c <? 2 * (N mod D) * c) = (D <? 2 * (N mod D))).
  { destruct (Z.ltb_spec (D * c) (2 * (N mod D) * c)) as [H|H],
      (Z.ltb_spec D (2 * (N mod D))) as [H'|H']; try done.
    - apply Z.mul_lt_mono_pos_r in H; lia.
    - apply (Z.mul_lt_mono_pos_r c) in H'; lia. }
  assert (H2 : (2 * (N mod D) * c =? D * c) = (2 * (N mod D) =? D)).
  { destruct (Z.eqb_spec (2 * (N mod D) * c) (D * c)) as [H|H],
      (Z.eqb_spec (2 * (N mod D)) D) as [H'|H']; try done.
    - apply Z.mul_cancel_r in H; lia.
    - rewrite H' in H. done. }
  by rewrite H1, H2.
Qed.

Lemma rne_nonneg N D : 0 <= N -> 0 < D -> 0 <= rne N D.
Proof.
  intros HN HD. pose proof (rne_bounds N D HD) as [Hlo _].
  pose proof (Z.div_pos N D HN HD). lia.
Qed.

(** ** Binary digits of an integer *)

Lemma Zdigits2_pos p : Zdigits2 (Zpos p) = digits p.
Proof. done. Qed.

Lemma Zdigits2_nonneg m : 0 <= Zdigits2 m.
Proof. destruct m; simpl; lia. Qed.

Lemma Zdigits2_upper m : 0 <= m -> m < 2 ^ Zdigits2 m.
Proof.
  intros Hm. destruct m as [|p|p]; [done| |lia].
  rewrite Zdigits2_pos. apply digits_bounds.
Qed.

Lemma Zdigits2_lower m : 0 < m -> 2 ^ (Zdigits2 m - 1) <= m.
Proof.
  intros Hm. destruct m as [|p|p]; [lia| |lia].
  rewrite Zdigits2_pos. apply digits_bounds.
Qed.

Lemma Zdigits2_unique m d : 2 ^ (d - 1) <= m < 2 ^ d -> 0 < m -> Zdigits2 m = d.
Proof.
  intros H Hm. destruct m as [|p|p]; [lia| |lia].
  rewrite Zdigits2_pos. by apply digits_unique.
Qed.

Lemma Zdigits2_mono a b : 0 <= a <= b -> Zdigits2 a <= Zdigits2 b.
Proof.
  intros [Ha Hab]. destruct a as [|p|p]; [apply Zdigits2_nonneg| |lia].
  destruct b as [|q|q]; [lia| |lia]. rewrite !Zdigits2_pos. apply digits_mono. lia.
Qed.

Lemma Zdigits2_shift m k : 0 < m -> 0 <= k -> Zdigits2 (m * 2 ^ k) = Zdigits2 m + k.
Proof.
  intros Hm Hk. pose proof (Zdigits2_upper m ltac:(lia)). pose proof (Zdigits2_lower m Hm).
  pose proof (Zdigits2_nonneg m).
  assert (0 < 2 ^ k) by (apply Z.pow_pos_nonneg; lia).
  assert (1 <= Zdigits2 m).
  { destruct m; try lia. rewrite Zdigits2_pos. apply digits_pos. }
  apply Zdigits2_unique; [|nia].
  replace (Zdigits2 m + k - 1) with (Zdigits2 m - 1 + k) by lia.
  rewrite !Z.pow_add_r by lia. nia.
Qed.

(** ** The last step of a rounding *)

Section Rounding.
Variables prec emax : Z.
Hypothesis Hprec : 0 < prec.
Hypothesis Hemax : prec < emax.

Local Abbreviation fexp prec emax := (fexp prec emax).
Local Abbreviation emin prec emax := (emin prec emax).
Local Abbreviation finish prec emax := (finish prec emax).

Lemma emin_le_fexp e : emin prec emax <= fexp prec emax e.
Proof. unfold fexp, emin. stdz. lia. Qed.

Lemma fexp_ge e : e - prec <= fexp prec emax e.
Proof. unfold fexp, emin. stdz. lia. Qed.

Lemma fexp_cases e :
  (fexp prec emax e = e - prec /\ emin prec emax <= e - prec)
  \/ (fexp prec emax e = emin prec emax /\ e - prec <= emin prec emax).
Proof. unfold fexp, emin. stdz. lia. Qed.

Lemma fexp_mono e e' : e <= e' -> fexp prec emax e <= fexp prec emax e'.
Proof. unfold fexp, emin. stdz. lia. Qed.

Lemma pow_prec_pos : 0 < 2 ^ (prec - 1).
Proof. apply Z.pow_pos_nonneg; lia. Qed.

Lemma pow_prec_double : 2 ^ prec = 2 * 2 ^ (prec - 1).
Proof.
  replace prec with (1 + (prec - 1)) at 1 by lia.
  by rewrite Z.pow_add_r, Z.pow_1_r by lia.
Qed.

(** What [binary_round_aux] computes: the nearest multiple of [2 ^ E] of
    the quotient [N / D * 2 ^ ex], at the exponent [E] its digits ask for. *)
Lemma round_aux_spec s N D ex :
  0 <= N -> 0 < D ->
  ex <= fexp prec emax (Zdigits2 (N / D) + ex) ->
  binary_round_aux prec emax s (N / D) ex (locate N D)
  = finish prec emax s
      (rne N (D * 2 ^ (fexp prec emax (Zdigits2 (N / D) + ex) - ex)))
      (fexp prec emax (Zdigits2 (N / D) + ex)).
Proof.
  intros HN HD Hex.
  set (E := fexp prec emax (Zdigits2 (N / D) + ex)) in *.
  set (n := E - ex).
  assert (Hn : 0 <= n) by (unfold n; lia).
  assert (H2n : 0 < 2 ^ n) by (apply Z.pow_pos_nonneg; lia).
  assert (HE : emin prec emax <= E) by apply emin_le_fexp.
  set (m2 := rne N (D * 2 ^ n)).
  assert (Hm2 : 0 <= m2 <= 2 ^ prec).
  { split; [apply rne_nonneg; nia|].
    pose proof (rne_bounds N (D * 2 ^ n) ltac:(nia)) as [_ Hup]. fold m2 in Hup.
    assert (N / (D * 2 ^ n) < 2 ^ prec); [|lia].
    rewrite <- Z.div_div by lia.
    apply Z.div_lt_upper_bound; [done|].
    pose proof (Zdigits2_upper (N / D) ltac:(apply Z.div_pos; lia)) as Hd.
    pose proof (fexp_ge (Zdigits2 (N / D) + ex)) as Hf. fold E in Hf.
    eapply Z.lt_le_trans; [exact Hd|].
    rewrite <- Z.pow_add_r by lia. apply Z.pow_le_mono_r; lia. }
  unfold binary_round_aux, shr_fexp. stdz. fold E. fold n.
  change (shr_record_of_loc (N / D) (locate N D)) with (shr_rec N D).
  rewrite shr_shr_rec by done.
  rewrite shr_rec_m, loc_of_shr_rec. fold (rne N (D * 2 ^ n)). fold m2.
  replace (ex + n) with E by (unfold n; lia).
  unfold finish.
  destruct (Z.eqb_spec m2 0) as [H0|H0].
  - rewrite H0. change (Zdigits2 0) with 0. rewrite Z.add_0_l.
    destruct (fexp_cases E) as [[-> _]|[-> _]].
    + destruct (E - prec - E) as [|p|p] eqn:Hs; try lia; done.
    + destruct (emin prec emax - E) as [|p|p] eqn:Hs; try lia; done.
  - destruct (Z.eqb_spec m2 (2 ^ prec)) as [Hc|Hc].
    + rewrite Hc.
      assert (Hd : Zdigits2 (2 ^ prec) = prec + 1).
      { apply Zdigits2_unique; [|apply Z.pow_pos_nonneg; lia].
        replace (prec + 1 - 1) with prec by lia. split; [lia|].
        apply Z.pow_lt_mono_r; lia. }
      rewrite Hd.
      destruct (fexp_cases (prec + 1 + E)) as [[-> _]|[Hf1 Hf2]]; [|lia].
      replace (prec + 1 + E - prec - E) with 1 by lia.
      unfold shr.
      change (SpecFloat.iter_pos shr_1 1 (shr_record_of_loc (2 ^ prec) loc_Exact))
        with (shr_1 (Build_shr_record (2 ^ prec) false false)).
      rewrite shr_1_nonneg by lia. cbn [shr_m].
      rewrite pow_prec_double, Z.mul_comm, Z.div_mul by lia.
      pose proof pow_prec_pos as Hp.
      destruct (2 ^ (prec - 1)) as [|p|p] eqn:Hpw; try lia.
      by rewrite Pos2Z.id.
    + destruct m2 as [|p|p] eqn:Hm; try lia.
      rewrite Zdigits2_pos.
      assert (Hdp : digits p <= prec).
      { pose proof (digits_bounds p) as [Hlo _].
        destruct (Z.le_gt_cases (digits p) prec) as [|Hgt]; [done|].
        assert (2 ^ prec <= 2 ^ (digits p - 1)) by (apply Z.pow_le_mono_r; lia). lia. }
      assert (Hs : fexp prec emax (digits p + E) - E <= 0).
      { destruct (fexp_cases (digits p + E)) as [[-> _]|[-> _]]; lia. }
      destruct (fexp prec emax (digits p + E) - E) as [|q|q] eqn:Hq; try lia;
        unfold shr; by rewrite shr_m_of_loc.
Qed.

Lemma round_aux_range N D ex :
  0 <= N -> 0 < D ->
  ex <= fexp prec emax (Zdigits2 (N / D) + ex) ->
  in_format prec emax (rne N (D * 2 ^ (fexp prec emax (Zdigits2 (N / D) + ex) - ex)))
    (fexp prec emax (Zdigits2 (N / D) + ex)).
Proof.
  intros HN HD Hex.
  set (E := fexp prec emax (Zdigits2 (N / D) + ex)) in *.
  set (n := E - ex).
  assert (Hn : 0 <= n) by (unfold n; lia).
  assert (H2n : 0 < 2 ^ n) by (apply Z.pow_pos_nonneg; lia).
  pose proof (rne_bounds N (D * 2 ^ n) ltac:(nia)) as [Hlo Hup].
  assert (Hq : N / (D * 2 ^ n) = N / D / 2 ^ n) by (symmetry; apply Z.div_div; lia).
  pose proof (Z.div_pos N D HN HD) as Hmx.
  split; [split|split].
  - apply rne_nonneg; nia.
  - assert (N / (D * 2 ^ n) < 2 ^ prec); [|lia].
    rewrite Hq. apply Z.div_lt_upper_bound; [done|].
    pose proof (Zdigits2_upper (N / D) Hmx) as Hd.
    pose proof (fexp_ge (Zdigits2 (N / D) + ex)) as Hf. fold E in Hf.
    eapply Z.lt_le_trans; [exact Hd|].
    rewrite <- Z.pow_add_r by lia. apply Z.pow_le_mono_r; lia.
  - apply emin_le_fexp.
  - destruct (fexp_cases (Zdigits2 (N / D) + ex)) as [[Hf Hge]|[Hf _]];
      fold E in Hf; [|by left].
    right. assert (2 ^ (prec - 1) <= N / (D * 2 ^ n)); [|lia].
    rewrite Hq. apply Z.div_le_lower_bound; [done|].
    assert (Hnd : n = Zdigits2 (N / D) - prec) by (unfold n; lia).
    assert (0 < N / D).
    { destruct (Z.eq_dec (N / D) 0) as [H0|]; [|lia].
      rewrite H0 in Hnd. change (Zdigits2 0) with 0 in Hnd. lia. }
    pose proof (Zdigits2_lower (N / D) ltac:(lia)) as Hd.
    eapply Z.le_trans; [|exact Hd].
    rewrite Z.mul_comm, <- Z.pow_add_r by lia.
    apply Z.pow_le_mono_r; lia.
Qed.

(** What [binary_round] computes. *)
Lemma binary_round_spec s m e :
  binary_round prec emax s m e
  = finish prec emax s (rnd_shift (Zpos m) (fexp prec emax (digits m + e) - e)) (fexp prec emax (digits m + e))
  /\ in_format prec emax (rnd_shift (Zpos m) (fexp prec emax (digits m + e) - e)) (fexp prec emax (digits m + e)).
Proof.
  set (E := fexp prec emax (digits m + e)).
  unfold binary_round. fold (digits m). stdz. fold E. unfold rnd_shift.
  destruct (Z.leb_spec 0 (E - e)) as [Hle|Hgt].
  - rewrite shl_align_ge by lia.
    pose proof (round_aux_spec s (Zpos m) 1 e) as H.
    pose proof (round_aux_range (Zpos m) 1 e) as R.
    rewrite Z.div_1_r, Zdigits2_pos, Z.mul_1_l in H, R. fold E in H, R.
    rewrite locate_exact in H by apply Z.mod_1_r.
    split; [apply H; lia | apply R; lia].
  - pose proof (shl_align_fst m e E ltac:(lia)) as Hfst.
    pose proof (shl_align_snd m e E ltac:(lia)) as Hsnd.
    destruct (shl_align m e E) as [mz ez]. simpl in Hfst, Hsnd. subst ez.
    assert (H2 : 0 < 2 ^ (e - E)) by (apply Z.pow_pos_nonneg; lia).
    assert (Hd : Zdigits2 (Zpos mz) = digits m + (e - E)).
    { rewrite Hfst. rewrite Zdigits2_shift by lia. done. }
    pose proof (round_aux_spec s (Zpos mz) 1 E) as H.
    pose proof (round_aux_range (Zpos mz) 1 E) as R.
    rewrite Z.div_1_r, Hd in H, R.
    replace (digits m + (e - E) + E) with (digits m + e) in H, R by lia.
    fold E in H, R. rewrite Z.sub_diag, Z.pow_0_r, Z.mul_1_l, rne_1 in H, R.
    rewrite locate_exact in H by apply Z.mod_1_r.
    replace (- (E - e)) with (e - E) by lia. rewrite <- Hfst.
    split; [apply H; lia | apply R; lia].
Qed.

(** ** Canonical pairs *)

Lemma digits_le_prec (M : positive) : Zpos M < 2 ^ prec <-> digits M <= prec.
Proof.
  pose proof (digits_bounds M) as [Hlo Hhi]. split; intros H.
  - destruct (Z.le_gt_cases (digits M) prec) as [|Hgt]; [done|].
    assert (2 ^ prec <= 2 ^ (digits M - 1)) by (apply Z.pow_le_mono_r; lia). lia.
  - eapply Z.lt_le_trans; [exact Hhi|]. apply Z.pow_le_mono_r; lia.
Qed.

Lemma digits_eq_prec (M : positive) : 2 ^ (prec - 1) <= Zpos M < 2 ^ prec <-> digits M = prec.
Proof.
  split; intros H.
  - by apply digits_unique.
  - rewrite <- H. apply digits_bounds.
Qed.

Lemma canonical_canon m e :
  canonical_mantissa prec emax m e = true <-> canon prec emax (Zpos m) e.
Proof.
  unfold canonical_mantissa, canon. fold (digits m). stdz.
  rewrite Z.eqb_eq.
  pose proof (digits_bounds m) as [Hlo Hhi]. pose proof (digits_pos m).
  split.
  - intros H0. destruct (fexp_cases (digits m + e)) as [[Hf Hge]|[Hf Hge]];
      rewrite Hf in H0.
    + assert (Hd : digits m = prec) by lia.
      apply digits_eq_prec in Hd. split; [lia|]. split; [lia|]. right. lia.
    + assert (Hd : digits m <= prec) by lia.
      apply digits_le_prec in Hd. split; [lia|]. split; [lia|]. by left.
  - intros ([_ Hup] & He & Hcase). apply digits_le_prec in Hup.
    destruct Hcase as [->|Hlow].
    + unfold fexp. stdz. lia.
    + assert (Hd : digits m = prec) by (apply digits_eq_prec; split; [done|]; by apply digits_le_prec).
      unfold fexp. stdz. lia.
Qed.

Lemma valid_finite s m e :
  valid_binary prec emax (S754_finite s m e) = true
  <-> canon prec emax (Zpos m) e /\ e <= emax - prec.
Proof.
  unfold valid_binary, bounded. rewrite andb_true_iff, canonical_canon. stdz.
  by rewrite Z.leb_le.
Qed.

Lemma carry_canon M E :
  in_format prec emax M E -> 0 < M -> canon prec emax (carry prec M E).1 (carry prec M E).2.
Proof.
  intros ([_ Hup] & HE & Hcase) HM. unfold carry.
  pose proof pow_prec_pos as Hp.
  pose proof pow_prec_double as Hp2.
  destruct (Z.eqb_spec M (2 ^ prec)) as [->|Hne]; cbn [fst snd]; unfold canon.
  - split; [lia|]. split; [lia|]. right. lia.
  - split; [lia|]. split; [lia|]. done.
Qed.

Lemma carry_value M E e0 :
  0 < prec -> e0 <= E ->
  (carry prec M E).1 * 2 ^ ((carry prec M E).2 - e0) = M * 2 ^ (E - e0).
Proof.
  intros _ He. unfold carry.
  destruct (Z.eqb_spec M (2 ^ prec)) as [->|Hne]; cbn [fst snd]; [|done].
  replace (E + 1 - e0) with (1 + (E - e0)) by lia.
  rewrite Z.pow_add_r, Z.pow_1_r by lia.
  rewrite pow_prec_double. ring.
Qed.

Lemma finish_carry s M E :
  finish prec emax s M E
  = if M =? 0 then S754_zero s
    else if (carry prec M E).2 <=? emax - prec
         then S754_finite s (Z.to_pos (carry prec M E).1) (carry prec M E).2
         else S754_infinity s.
Proof.
  unfold finish, carry.
  destruct (M =? 0); [done|]. by destruct (M =? 2 ^ prec).
Qed.

(** A rounded float is a value of the format. *)
Lemma finish_valid s M E : in_format prec emax M E -> valid_binary prec emax (finish prec emax s M E) = true.
Proof.
  intros HF. rewrite finish_carry.
  destruct (Z.eqb_spec M 0) as [|HM]; [done|].
  assert (HM' : 0 < M) by (destruct HF as ([? _] & _); lia).
  pose proof (carry_canon M E HF HM') as HC.
  destruct (Z.leb_spec (carry prec M E).2 (emax - prec)) as [Hle|]; [|done].
  apply valid_finite. split; [|done].
  destruct HC as ([? ?] & ?). by rewrite Z2Pos.id.
Qed.

Lemma binary_round_valid s m e : valid_binary prec emax (binary_round prec emax s m e) = true.
Proof.
  destruct (binary_round_spec s m e) as [-> HF]. by apply finish_valid.
Qed.

Lemma binary_normalize_valid v e sz :
  valid_binary prec emax (binary_normalize prec emax v e sz) = true.
Proof. destruct v; [done| |]; apply binary_round_valid. Qed.

(** ** The operations stay in the format *)

Lemma emin_neg : emin prec emax <= 0.
Proof. unfold emin. stdz. lia. Qed.

Lemma digits_mul (a b : positive) : digits a + digits b - 1 <= digits (a * b).
Proof.
  pose proof (digits_bounds a) as [Alo Ahi]. pose proof (digits_bounds b) as [Blo Bhi].
  pose proof (digits_bounds (a * b)) as [_ Phi].
  pose proof (digits_pos a). pose proof (digits_pos b).
  destruct (Z.le_gt_cases (digits a + digits b - 1) (digits (a * b))) as [|Hgt]; [done|].
  assert (Hp : 2 ^ digits (a * b) <= 2 ^ (digits a - 1 + (digits b - 1)))
    by (apply Z.pow_le_mono_r; lia).
  rewrite Z.pow_add_r in Hp by lia. rewrite Pos2Z.inj_mul in Phi. nia.
Qed.

Lemma SFmul_finite sx mx ex sy my ey :
  canon prec emax (Zpos mx) ex -> canon prec emax (Zpos my) ey ->
  SFmul prec emax (S754_finite sx mx ex) (S754_finite sy my ey)
  = finish prec emax (xorb sx sy)
      (rne (Zpos (mx * my)) (2 ^ (fexp prec emax (digits (mx * my) + (ex + ey)) - (ex + ey))))
      (fexp prec emax (digits (mx * my) + (ex + ey)))
    /\ in_format prec emax
         (rne (Zpos (mx * my)) (2 ^ (fexp prec emax (digits (mx * my) + (ex + ey)) - (ex + ey))))
         (fexp prec emax (digits (mx * my) + (ex + ey)))
    /\ ex + ey <= fexp prec emax (digits (mx * my) + (ex + ey)).
Proof.
  intros (Hx & Hex & Cx) (Hy & Hey & Cy).
  pose proof (digits_mul mx my) as Hd. pose proof emin_neg as Hneg.
  pose proof (digits_pos mx). pose proof (digits_pos my).
  assert (Hpre : ex + ey <= fexp prec emax (digits (mx * my) + (ex + ey))).
  { destruct Cx as [->|Cx].
    - destruct Cy as [->|Cy].
      + pose proof (emin_le_fexp (digits (mx * my) + (emin prec emax + emin prec emax))). lia.
      + assert (digits my = prec) by (apply digits_eq_prec; lia).
        pose proof (fexp_ge (digits (mx * my) + (emin prec emax + ey))). lia.
    - assert (digits mx = prec) by (apply digits_eq_prec; lia).
      pose proof (fexp_ge (digits (mx * my) + (ex + ey))). lia. }
  pose proof (round_aux_spec (xorb sx sy) (Zpos (mx * my)) 1 (ex + ey)) as H1.
  pose proof (round_aux_range (Zpos (mx * my)) 1 (ex + ey)) as H2.
  rewrite Z.div_1_r, Zdigits2_pos, Z.mul_1_l in H1, H2.
  rewrite locate_exact in H1 by apply Z.mod_1_r.
  split; [apply H1; lia|]. split; [apply H2; lia | done].
Qed.

Lemma SFmul_valid x y :
  valid_binary prec emax x = true -> valid_binary prec emax y = true ->
  valid_binary prec emax (SFmul prec emax x y) = true.
Proof.
  destruct x as [sx|sx| |sx mx ex], y as [sy|sy| |sy my ey]; try done.
  intros Hx Hy. apply valid_finite in Hx as [Hx _]. apply valid_finite in Hy as [Hy _].
  destruct (SFmul_finite sx mx ex sy my ey Hx Hy) as (-> & HF & _).
  by apply finish_valid.
Qed.

Lemma SFsub_valid x y :
  valid_binary prec emax x = true -> valid_binary prec emax y = true ->
  valid_binary prec emax (SFsub prec emax x y) = true.
Proof.
  destruct x as [sx|sx| |sx mx ex], y as [sy|sy| |sy my ey]; try done;
    try (by destruct sx, sy).
  intros _ _. apply binary_normalize_valid.
Qed.

(** The quotient and the place of the remainder, as [SFdiv] computes them. *)
Lemma new_location_locate D r :
  0 < D -> 0 <= r < D ->
  new_location D r = if r =? 0 then loc_Exact else loc_Inexact (2 * r ?= D).
Proof.
  intros HD Hr. unfold new_location, new_location_even, new_location_odd. stdz.
  destruct (Z.even D) eqn:Hev; [done|].
  destruct (Z.eqb_spec r 0) as [->|Hr0]; [done|].
  f_equal.
  assert (Hodd : Z.odd D = true) by (rewrite <- Z.negb_even, Hev; done).
  apply Z.odd_spec in Hodd as [k Hk].
  destruct (Z.compare_spec (2 * r + 1) D), (Z.compare_spec (2 * r) D); try done; lia.
Qed.

Lemma div_core_spec mx ex my ey :
  let s := ex - ey - Z.min (fexp prec emax (digits mx + ex - (digits my + ey))) (ex - ey) in
  let N := Zpos mx * 2 ^ s in
  SFdiv_core_binary prec emax (Zpos mx) ex (Zpos my) ey
  = (N / Zpos my, ex - ey - s, locate N (Zpos my))
  /\ 0 <= s
  /\ ex - ey - s <= fexp prec emax (Zdigits2 (N / Zpos my) + (ex - ey - s)).
Proof.
  intros s N. unfold SFdiv_core_binary. rewrite !Zdigits2_pos. stdz.
  set (e' := Z.min (fexp prec emax (digits mx + ex - (digits my + ey))) (ex - ey)).
  fold e' in s.
  assert (Hs : 0 <= s) by (unfold s, e'; lia).
  assert (Hm : match ex - ey - e' with
               | 0 => Zpos mx
               | Zpos _ => Z.shiftl (Zpos mx) (ex - ey - e')
               | Zneg _ => 0
               end = N).
  { unfold N. change s with (ex - ey - e') in Hs |- *.
    destruct (ex - ey - e') as [|p|p] eqn:Hsp; try lia.
    rewrite Z.shiftl_mul_pow2 by lia. done. }
  rewrite Hm.
  assert (H2s : 0 < 2 ^ s) by (apply Z.pow_pos_nonneg; lia).
  assert (HN : 0 < N) by (unfold N; nia).
  pose proof (Z_div_mod N (Zpos my) ltac:(lia)) as Hdm.
  unfold Z.div, Z.modulo in *.
  destruct (Z.div_eucl N (Zpos my)) as [q r]. destruct Hdm as [HNq Hr].
  rewrite (new_location_locate _ r) by lia.
  assert (Hq : q = N / Zpos my).
  { apply (Z.div_unique_pos N (Zpos my) q r); lia. }
  assert (Hrm : r = N mod Zpos my).
  { apply (Z.mod_unique_pos N (Zpos my) q r); lia. }
  split.
  - f_equal; [f_equal; unfold s; lia | unfold locate; by rewrite <- Hrm].
  - split; [done|].
    replace (ex - ey - s) with e' by (unfold s; lia).
    assert (Hdig : digits mx + s - digits my <= Zdigits2 q).
    { pose proof (Zdigits2_nonneg q).
      destruct (Z.le_gt_cases (digits mx + s - digits my) 0) as [|Hpos]; [lia|].
      pose proof (digits_bounds mx) as [Alo _]. pose proof (digits_bounds my) as [_ Bhi].
      assert (Hlow : 2 ^ (digits mx + s - digits my - 1) <= q).
      { rewrite Hq. apply Z.div_le_lower_bound; [lia|].
        assert (Zpos my * 2 ^ (digits mx + s - digits my - 1)
                <= 2 ^ digits my * 2 ^ (digits mx + s - digits my - 1)).
        { apply Z.mul_le_mono_nonneg_r; [apply Z.pow_nonneg|]; lia. }
        rewrite <- Z.pow_add_r in H0 by (pose proof (digits_pos my); lia).
        replace (digits my + (digits mx + s - digits my - 1)) with (digits mx - 1 + s) in H0 by lia.
        rewrite Z.pow_add_r in H0 by (pose proof (digits_pos mx); lia).
        unfold N. nia. }
      assert (0 < q).
      { assert (0 < 2 ^ (digits mx + s - digits my - 1)) by (apply Z.pow_pos_nonneg; lia). lia. }
      destruct (Z.le_gt_cases (digits mx + s - digits my) (Zdigits2 q)) as [|Hgt]; [done|].
      pose proof (Zdigits2_upper q ltac:(lia)) as Hup.
      assert (2 ^ Zdigits2 q <= 2 ^ (digits mx + s - digits my - 1))
        by (apply Z.pow_le_mono_r; lia).
      lia. }
    eapply Z.le_trans; [|apply (fexp_mono (digits mx + ex - (digits my + ey)))].
    + unfold e'. lia.
    + unfold s, e' in *. lia.
Qed.

Lemma SFdiv_finite sx mx ex sy my ey :
  let s := ex - ey - Z.min (fexp prec emax (digits mx + ex - (digits my + ey))) (ex - ey) in
  let N := Zpos mx * 2 ^ s in
  let E := fexp prec emax (Zdigits2 (N / Zpos my) + (ex - ey - s)) in
  SFdiv prec emax (S754_finite sx mx ex) (S754_finite sy my ey)
  = finish prec emax (xorb sx sy) (rne N (Zpos my * 2 ^ (E - (ex - ey - s)))) E
  /\ in_format prec emax (rne N (Zpos my * 2 ^ (E - (ex - ey - s)))) E
  /\ 0 <= s /\ ex - ey - s <= E.
Proof.
  intros s N E.
  destruct (div_core_spec mx ex my ey) as (Hcore & Hs & Hpre).
  fold s in Hcore, Hs, Hpre. fold N in Hcore, Hpre. fold E in Hpre.
  assert (H2s : 0 < 2 ^ s) by (apply Z.pow_pos_nonneg; lia).
  assert (HN : 0 <= N) by (unfold N; nia).
  unfold SFdiv. rewrite Hcore.
  split; [apply round_aux_spec; lia|].
  split; [apply round_aux_range; lia | done].
Qed.

Lemma SFdiv_valid x y :
  valid_binary prec emax (SFdiv prec emax x y) = true.
Proof.
  destruct x as [sx|sx| |sx mx ex], y as [sy|sy| |sy my ey]; try done.
  destruct (SFdiv_finite sx mx ex sy my ey) as (-> & HF & _).
  by apply finish_valid.
Qed.


(** ** Rounding a number of the format, and the same number written twice *)

Lemma binary_round_canon s m e :
  valid_binary prec emax (S754_finite s m e) = true ->
  binary_round prec emax s m e = S754_finite s m e.
Proof.
  intros Hv. pose proof Hv as Hc. apply valid_finite in Hc as [(HM & HE & Hc) Hle].
  destruct (binary_round_spec s m e) as [-> _].
  unfold valid_binary, bounded in Hv. apply andb_true_iff in Hv as [Hcan _].
  unfold canonical_mantissa in Hcan. fold (digits m) in Hcan. stdz.
  apply Z.eqb_eq in Hcan. rewrite Hcan, Z.sub_diag.
  unfold rnd_shift. change (0 <=? 0) with true. cbv iota. rewrite Z.pow_0_r, rne_1.
  unfold finish. destruct (Z.eqb_spec (Zpos m) 0) as [|_]; [lia|].
  destruct (Z.eqb_spec (Zpos m) (2 ^ prec)) as [|_]; [lia|].
  destruct (Z.leb_spec e (emax - prec)); [done|lia].
Qed.

Lemma binary_round_shift s m m' e k :
  0 <= k -> Zpos m' = Zpos m * 2 ^ k ->
  binary_round prec emax s m' (e - k) = binary_round prec emax s m e.
Proof.
  intros Hk Hm'.
  destruct (binary_round_spec s m' (e - k)) as [-> _].
  destruct (binary_round_spec s m e) as [-> _].
  assert (Hd : digits m' + (e - k) = digits m + e).
  { rewrite <- !Zdigits2_pos, Hm', Zdigits2_shift by lia. lia. }
  rewrite Hd. set (E := fexp prec emax (digits m + e)).
  f_equal. unfold rnd_shift. rewrite Hm'.
  assert (H2k : 0 < 2 ^ k) by (apply Z.pow_pos_nonneg; lia).
  destruct (Z.leb_spec 0 (E - e)) as [H1|H1].
  - destruct (Z.leb_spec 0 (E - (e - k))) as [_|]; [|lia].
    replace (E - (e - k)) with (E - e + k) by lia.
    rewrite Z.pow_add_r by lia. apply rne_scale; [apply Z.pow_pos_nonneg|]; lia.
  - destruct (Z.leb_spec 0 (E - (e - k))) as [H2|H2].
    + replace (Zpos m * 2 ^ k) with (Zpos m * 2 ^ (- (E - e)) * 2 ^ (E - (e - k))).
      * apply rne_mul. apply Z.pow_pos_nonneg; lia.
      * rewrite <- Z.mul_assoc, <- Z.pow_add_r by lia. do 2 f_equal. lia.
    + rewrite <- Z.mul_assoc, <- Z.pow_add_r by lia. do 2 f_equal. lia.
Qed.

Lemma binary_round_same s m1 e1 m2 e2 e0 :
  e0 <= e1 -> e0 <= e2 -> Zpos m1 * 2 ^ (e1 - e0) = Zpos m2 * 2 ^ (e2 - e0) ->
  binary_round prec emax s m1 e1 = binary_round prec emax s m2 e2.
Proof.
  intros H1 H2 Heq.
  assert (Hp : 0 < Zpos m1 * 2 ^ (e1 - e0)).
  { apply Z.mul_pos_pos; [lia|]. apply Z.pow_pos_nonneg; lia. }
  destruct (Zpos m1 * 2 ^ (e1 - e0)) as [|m0|] eqn:Hm0; try lia.
  rewrite <- (binary_round_shift s m1 m0 e1 (e1 - e0)) by (try done; lia).
  rewrite <- (binary_round_shift s m2 m0 e2 (e2 - e0)) by (try done; lia).
  f_equal. lia.
Qed.
End Rounding.

(** * The output is float32 *)

Lemma fprec_pos k : 0 < fprec k.
Proof. by destruct k. Qed.

Lemma fprec_femax k : fprec k < femax k.
Proof. by destruct k. Qed.

Ltac format := first [apply fprec_pos | apply fprec_femax].

Lemma of_Z_valid k z : is_valid k (of_Z k z).
Proof. apply binary_normalize_valid; format. Qed.

Lemma fcast_nearest k x : fcast k x = nearest k x.
Proof.
  destruct x as [| | |s m e]; try done.
  apply binary_round_spec; format.
Qed.

Lemma fcast_is_valid k x : is_valid k (fcast k x).
Proof.
  destruct x as [| | |s m e]; try done.
  apply binary_round_valid; format.
Qed.

(** A float32 value is kept by the cast to float32. *)
Lemma fcast_kept k x : is_valid k x -> fcast k x = x.
Proof.
  destruct x as [| | |s m e]; try done.
  apply binary_round_canon; format.
Qed.

Lemma fconv_valid k k' x : is_valid k x -> is_valid k' (fconv k k' x).
Proof. destruct k, k'; try done; intros _; apply fcast_is_valid. Qed.

Lemma fop_valid o k x y : is_valid k x -> is_valid k y -> is_valid k (fop o k x y).
Proof.
  intros Hx Hy. destruct o; simpl.
  - apply SFsub_valid; (format || done).
  - apply SFdiv_valid; (format || done).
  - apply SFmul_valid; (format || done).
Qed.

Lemma operand_float_valid k y : operand_valid y -> is_valid k (operand_float k y).
Proof.
  destruct y as [[i z|k' f]|z]; simpl.
  - intros _. apply of_Z_valid.
  - apply fconv_valid.
  - intros _. apply of_Z_valid.
Qed.

Lemma elem_op_valid o k fy x :
  is_valid float32 x -> is_valid k fy -> is_valid float32 (elem_op o k fy x).
Proof.
  intros Hx Hy. destruct k; simpl.
  - by apply (fop_valid o float32).
  - apply fcast_is_valid.
Qed.

Lemma array_op_valid o y xs ys :
  array_op o y xs = Some ys -> operand_valid y ->
  Forall (is_valid float32) xs -> Forall (is_valid float32) ys.
Proof.
  unfold array_op. destruct (array_loop y) as [k|]; [|done].
  intros [= <-] Hy Hxs. apply Forall_fmap.
  eapply Forall_impl; [exact Hxs|]. intros x Hx. simpl.
  apply elem_op_valid; [done | by apply operand_float_valid].
Qed.

Lemma astype_downcast b : astype_float32 b = downcast b.
Proof.
  destruct b as [k l|[] l]; try done. simpl.
  apply map_ext. intros x. apply fcast_nearest.
Qed.

Lemma downcast_valid b : float_wf b -> Forall (is_valid float32) (downcast b).
Proof.
  destruct b as [k l|[] l]; simpl.
  - intros _. apply Forall_fmap, Forall_true. intros z. apply of_Z_valid.
  - done.
  - intros _. apply Forall_fmap, Forall_true. intros x. simpl.
    rewrite <- fcast_nearest. apply fcast_is_valid.
Qed.

Lemma scalar_sub_valid x y :
  scalar_valid x -> scalar_valid y -> scalar_valid (scalar_op Sub x y).
Proof.
  destruct x as [i a|k f], y as [j b|k' g]; simpl; try done.
  - intros _ Hg. apply (fop_valid Sub); [apply of_Z_valid | by apply fconv_valid].
  - intros Hf _. apply (fop_valid Sub); [by apply fconv_valid | apply of_Z_valid].
  - intros Hf Hg. apply (fop_valid Sub); by apply fconv_valid.
Qed.

Lemma is_max_valid b r : float_wf b -> is_max b r -> scalar_valid r.
Proof.
  destruct b as [k l|k l], r as [k' z|k' f]; try done. simpl.
  intros Hwf (-> & Hin & _). by apply (proj1 (Forall_forall _ _) Hwf).
Qed.

Lemma is_min_valid b r : float_wf b -> is_min b r -> scalar_valid r.
Proof.
  destruct b as [k l|k l], r as [k' z|k' f]; try done. simpl.
  intros Hwf (-> & Hin & _). by apply (proj1 (Forall_forall _ _) Hwf).
Qed.

Lemma rescaled_valid bins max_val min_val b ys :
  float_wf b -> scalar_valid max_val -> scalar_valid min_val ->
  rescaled bins max_val min_val b = Some ys -> Forall (is_valid float32) ys.
Proof.
  intros Hwf Hmx Hmn. unfold rescaled, steps.
  destruct (array_op Sub _ _) as [xs1|] eqn:H1; [|done]. simpl.
  destruct (array_op Div _ _) as [xs2|] eqn:H2; [|done]. simpl.
  intros H3.
  eapply array_op_valid; [exact H3 | done |].
  eapply array_op_valid; [exact H2 | by apply scalar_sub_valid |].
  eapply array_op_valid; [exact H1 | done |].
  rewrite astype_downcast. by apply downcast_valid.
Qed.

Lemma helper_cast_result s sh b ys :
  (buffer_length b <= size_of sh)%nat ->
  read_array (helper_final s sh b ys) (cast_result s)
  = Some (sh, FloatBuf float32 (astype_float32 b)).
Proof.
  intros Hlen. unfold helper_final, cast_result.
  unfold fresh_array at 1. apply read_array_grow, read_fresh_array.
  simpl. by rewrite astype_float32_length.
Qed.

(** C9: whatever the dtype of the input array — integers of its dtype, or
    floats that are values of its dtype, at least one element, [bins - 1] an
    integer NumPy takes — the helper returns a float32 array of the same
    shape, and every element of it is a float32 value: a number of 24 bits
    of mantissa in the exponent range of binary32, an infinity or NaN.  The
    input is taken to float32 before it is rescaled: the array that [astype]
    allocates holds, for a float64 input, the float32 nearest to each
    element (ties to even), and the result is the three steps — minus the
    minimum, divided by the range, times [bins - 1] — applied to these
    float32 elements, with a maximum and a minimum of the input. *)
Theorem C9_output_is_float32 s l sh b kwargs :
  read_array s (VRef l) = Some (sh, b) ->
  buffer_wf b -> float_wf b -> buffer_length b <> 0%nat ->
  int_operand (helper_bins kwargs - 1) ->
  exists v s' max_val min_val ys,
    _minmax_helper (VRef l) kwargs s = Ok v s'
    /\ read_array s' v = Some (sh, FloatBuf float32 ys)
    /\ Forall (is_valid float32) ys
    /\ read_array s' (cast_result s) = Some (sh, FloatBuf float32 (downcast b))
    /\ Forall (is_valid float32) (downcast b)
    /\ is_max b max_val /\ is_min b min_val
    /\ steps (helper_bins kwargs) max_val min_val (downcast b) = Some ys.
Proof.
  intros Hread Hwf Hfl Hlen Hbins.
  destruct (normalize_total _ _ Hwf Hlen Hbins) as [ys Hys].
  destruct (helper_array s l sh b kwargs ys Hread Hys) as [Hrun Hout].
  destruct (normalize_normalized _ _ _ Hys) as (max_val & min_val & Hmax & Hmin & Hsteps).
  exists (helper_result s), (helper_final s sh b ys), max_val, min_val, ys.
  split; [done|]. split; [done|]. split.
  { eapply rescaled_valid; [exact Hfl | | | exact Hsteps].
    - by eapply is_max_valid.
    - by eapply is_min_valid. }
  split.
  { rewrite <- astype_downcast. apply helper_cast_result.
    destruct (read_array_header _ _ _ _ Hread) as (a & buf & _ & _ & _ & <-).
    apply window_length. }
  split; [by apply downcast_valid|].
  split; [done|]. split; [done|].
  unfold rescaled in Hsteps. by rewrite <- astype_downcast.
Qed.

Lemma C9_output_is_float32_witness :
  let b := FloatBuf float64 [S754_finite false 7205759403792794 (-56);
                             S754_finite false 7205759403792794 (-55);
                             S754_finite false 7205759403792794 (-54)] in
  downcast b = [S754_finite false 13421773 (-27);
                S754_finite false 13421773 (-26);
                S754_finite false 13421773 (-25)]
  /\ exists ys,
       run_helper [3%nat] b ∅ = Some ([3%nat], FloatBuf float32 ys)
       /\ Forall (is_valid float32) ys.
Proof.
  intros b. split; [reflexivity|].
  destruct (C9_output_is_float32 (one_array [3%nat] b) 1%nat [3%nat] b ∅ eq_refl)
    as (v & s' & max_val & min_val & ys & Hrun & Hout & Hvalid & _).
  - exact I.
  - repeat constructor.
  - simpl. discriminate.
  - vm_compute. split; discriminate.
  - exists ys. unfold run_helper. rewrite Hrun. split; [exact Hout | exact Hvalid].
Defined.

(** ** The range of the helper on 8 and 16 bit integers *)

Lemma int_value_loop_small z : -32768 <= z <= 65535 -> int_value_loop z = Some float32.
Proof.
  intros H. unfold int_value_loop.
  replace ((-32768 <=? z) && (z <=? 65535)) with true; [done|].
  symmetry. apply andb_true_iff. split; apply Z.leb_le; lia.
Qed.

Lemma wrap_id k z : 0 <= z <= imax k -> wrap k z = z.
Proof.
  unfold wrap, imax. destruct k; cbn [isigned ibits]; intros H;
    rewrite Z.mod_small; lia.
Qed.

Lemma rescale_elem mn d b z :
  elem_op Mul float32 (F32 b) (elem_op Div float32 (F32 d) (elem_op Sub float32 (F32 mn) (F32 z)))
  = rescale mn d b z.
Proof. reflexivity. Qed.

(** The elements the helper computes from integers in [-32768, 65535] whose
    range fits the dtype and 16 bits: all three loops are float32 loops. *)
Lemma normalize_small k x0 l bins :
  let mx := fold_left Z.max l x0 in
  let mn := fold_left Z.min l x0 in
  Forall (fun z => -32768 <= z <= 65535) (x0 :: l) ->
  0 <= mx - mn <= imax k -> mx - mn <= 65535 -> 1 <= bins <= 65536 ->
  normalize bins (IntBuf k (x0 :: l))
  = Some (map (rescale mn (mx - mn) (bins - 1)) (x0 :: l)).
Proof.
  intros mx mn Hall Hd Hd16 Hbins.
  destruct (fold_min_spec l x0) as [Hin _]. fold mn in Hin.
  assert (Hmn : -32768 <= mn <= 65535).
  { rewrite Forall_forall in Hall. by apply Hall. }
  unfold normalize. cbn [amax amin]. fold mx mn.
  unfold array_op. cbn [array_loop operand_float scalar_op].
  rewrite wrap_id by lia.
  rewrite !int_value_loop_small by lia. cbn [mbind option_bind].
  f_equal. cbn [astype_float32]. rewrite !map_map.
  apply map_ext. intros z. apply rescale_elem.
Qed.


(** The range of the elements the helper computes from small integers. *)
Lemma normalize_range_small k zs bins max_val min_val :
  Forall (fun z => -32768 <= z <= 65535) zs ->
  amax (IntBuf k zs) = Some (IntS k max_val) ->
  amin (IntBuf k zs) = Some (IntS k min_val) ->
  min_val <> max_val ->
  max_val - min_val <= imax k -> max_val - min_val <= 65535 ->
  1 < bins <= 65536 ->
  exists ys,
    normalize bins (IntBuf k zs) = Some ys
    /\ amin (FloatBuf float32 ys) = Some (FloatS float32 (S754_zero false))
    /\ amax (FloatBuf float32 ys) = Some (FloatS float32 (of_Z float32 (bins - 1))).
Proof.
  intros Hall Hmax Hmin Hne Hd Hd16 Hbins.
  destruct zs as [|x0 zs]; [discriminate|].
  cbn [amax amin] in Hmax, Hmin.
  injection Hmax as Hmax. injection Hmin as Hmin.
  destruct (fold_max_spec zs x0) as [Hmax_in Hmax_all].
  destruct (fold_min_spec zs x0) as [Hmin_in Hmin_all].
  rewrite Hmax in Hmax_in, Hmax_all. rewrite Hmin in Hmin_in, Hmin_all.
  assert (Hle : min_val <= max_val).
  { rewrite Forall_forall in Hmin_all. by apply Hmin_all. }
  assert (Hmn : -32768 <= min_val <= 65535)
    by (rewrite Forall_forall in Hall; by apply Hall).
  assert (Hmx : -32768 <= max_val <= 65535)
    by (rewrite Forall_forall in Hall; by apply Hall).
  pose proof (normalize_small k x0 zs bins) as Hnorm.
  cbv zeta in Hnorm. rewrite Hmax, Hmin in Hnorm.
  specialize (Hnorm Hall ltac:(lia) Hd16 ltac:(lia)).
  eexists. split; [exact Hnorm|].
  destruct (bins - 1) as [|b|b] eqn:Hb; try lia.
  assert (Hb24 : Z.pos b < 2 ^ 24) by (change (2 ^ 24) with 16777216; lia).
  assert (Db : digits b <= 24) by (by apply digits_le_24).
  set (g := rescale min_val (max_val - min_val) (Z.pos b)).
  assert (Hg : forall z, z ∈ x0 :: zs ->
             below b (g z) /\ (z = min_val -> g z = S754_zero false)
             /\ (z = max_val -> g z = F32 (Z.pos b))).
  { intros z Hz. apply rescale_spec; change (2 ^ 24) with 16777216; try lia.
    rewrite Forall_forall in Hmax_all, Hmin_all.
    specialize (Hmax_all z Hz). specialize (Hmin_all z Hz). lia. }
  assert (Hbelow : Forall (below b) (g x0 :: map g zs)).
  { change (g x0 :: map g zs) with (map g (x0 :: zs)).
    apply Forall_map, Forall_forall. intros z Hz. by apply Hg. }
  change (map g (x0 :: zs)) with (g x0 :: map g zs). cbn [amin amax]. split.
  - do 2 f_equal. apply fold_minimum.
    + eapply Forall_impl; [exact Hbelow|]. apply below_nonneg.
    + change (g x0 :: map g zs) with (g <$> x0 :: zs).
      apply list_elem_of_fmap. exists min_val. split; [|done].
      symmetry. by apply Hg.
  - do 2 f_equal. rewrite (F32_pos b Db). apply (fold_maximum b); [done|].
    rewrite <- (F32_pos b Db).
    change (g x0 :: map g zs) with (g <$> x0 :: zs).
    apply list_elem_of_fmap. exists max_val. split; [|done].
    symmetry. by apply Hg.
Qed.

(** For uint8 and uint16 arrays nothing is asked of the range. *)
Lemma normalize_range_unsigned k zs bins max_val min_val :
  k = uint8 \/ k = uint16 ->
  buffer_wf (IntBuf k zs) ->
  amax (IntBuf k zs) = Some (IntS k max_val) ->
  amin (IntBuf k zs) = Some (IntS k min_val) ->
  min_val <> max_val ->
  1 < bins <= 65536 ->
  exists ys,
    normalize bins (IntBuf k zs) = Some ys
    /\ amin (FloatBuf float32 ys) = Some (FloatS float32 (S754_zero false))
    /\ amax (FloatBuf float32 ys) = Some (FloatS float32 (of_Z float32 (bins - 1))).
Proof.
  intros Hk Hwf Hmax Hmin Hne Hbins.
  assert (Hrange : Forall (fun z => 0 <= z <= imax k /\ imax k <= 65535) zs).
  { eapply Forall_impl; [exact Hwf|]. unfold in_range, imin, imax.
    intros z. destruct Hk as [-> | ->]; cbn; lia. }
  assert (Hin : max_val ∈ zs /\ min_val ∈ zs).
  { destruct zs as [|x0 zs]; [discriminate|].
    cbn [amax amin] in Hmax, Hmin.
    injection Hmax as <-. injection Hmin as <-.
    split; [apply fold_max_spec | apply fold_min_spec]. }
  rewrite Forall_forall in Hrange.
  pose proof (Hrange _ (proj1 Hin)). pose proof (Hrange _ (proj2 Hin)).
  apply (normalize_range_small k zs bins max_val min_val); try done; try lia.
  apply Forall_forall. intros z Hz. specialize (Hrange z Hz). lia.
Qed.



(** * [extract_pixels]: what the list holds *)

Lemma extract_one_selects s ext image p :
  pixels_of s image = Some p ->
  extract_one image (grow s ext) = Ok p (grow s ext).
Proof.
  destruct image as [| | | |l]; try discriminate. unfold pixels_of.
  destruct (heap s !! l) as [o|] eqn:Hl; [|discriminate].
  intros Hp. unfold extract_one, type_of.
  rewrite bind_unfold, (bind_ok _ _ _ _ _ (load_grow_old _ _ _ _ Hl)), ret_unfold.
  destruct o as [| |a| |attrs|pa]; try discriminate.
  - by injection Hp as <-.
  - unfold get_pixels. rewrite (bind_ok _ _ _ _ _ (load_grow_old _ _ _ _ Hl)).
    by rewrite Hp.
  - unfold get_pixel_array. rewrite (bind_ok _ _ _ _ _ (load_grow_old _ _ _ _ Hl)).
    by rewrite Hp.
Qed.

(** The loop of [extract_pixels] on images it accepts: their pixels are
    appended to [pixels] in order. *)
Lemma extract_loop_selects s items ps acc :
  selects s items ps ->
  exists us,
    mapM (fun image => p ← extract_one image; list_append (VRef (length (heap s))) p)
      items (grow s [OList acc])
    = Ok us (grow s [OList (acc ++ ps)]).
Proof.
  intros Hsel. revert acc.
  induction Hsel as [|image p items ps Hp _ IH]; intros acc; simpl.
  - exists []. by rewrite app_nil_r.
  - rewrite bind_unfold, (bind_ok _ _ _ _ _ (extract_one_selects _ _ _ _ Hp)).
    rewrite list_append_last, bind_unfold.
    destruct (IH (acc ++ [p])) as [us Hus]. rewrite Hus.
    exists (() :: us). by rewrite <- app_assoc.
Qed.

(** The loop stops at the first image that [extract_one] rejects. *)
Lemma extract_loop_stops s pre ps bad post acc e :
  selects s pre ps ->
  (forall ext, extract_one bad (grow s ext) = Raise e (grow s ext)) ->
  mapM (fun image => p ← extract_one image; list_append (VRef (length (heap s))) p)
    (pre ++ bad :: post) (grow s [OList acc])
  = Raise e (grow s [OList (acc ++ ps)]).
Proof.
  intros Hsel Hbad. revert acc.
  induction Hsel as [|image p items ps Hp _ IH]; intros acc; simpl.
  - rewrite bind_unfold, (bind_raise _ _ _ _ _ (Hbad _)). by rewrite app_nil_r.
  - rewrite bind_unfold, (bind_ok _ _ _ _ _ (extract_one_selects _ _ _ _ Hp)).
    rewrite list_append_last, bind_unfold, IH. by rewrite <- app_assoc.
Qed.

Lemma type_of_list s ext l items :
  heap s !! l = Some (OList items) ->
  type_of (VRef l) (grow s ext) = Ok TList (grow s ext)
  /\ list_items (VRef l) (grow s ext) = Ok items (grow s ext).
Proof.
  intros Hl. split.
  - unfold type_of. by rewrite (bind_ok _ _ _ _ _ (load_grow_old _ _ _ _ Hl)).
  - unfold list_items. by rewrite (bind_ok _ _ _ _ _ (load_grow_old _ _ _ _ Hl)).
Qed.

Lemma grow_with_log s ext msgs :
  with_log (grow s ext) msgs = {| heap := heap s ++ ext; log := log s ++ msgs |}.
Proof. reflexivity. Qed.

Lemma with_log_nil s : with_log s [] = s.
Proof. destruct s. unfold with_log. simpl. by rewrite app_nil_r. Qed.

Lemma extends_with_log s msgs : extends s (with_log s msgs).
Proof. exists [], msgs. split; [by rewrite app_nil_r | done]. Qed.

Lemma lookup_grow_last s o : heap (grow s [o]) !! length (heap s) = Some o.
Proof. unfold grow. cbn [heap]. rewrite lookup_app_r by lia. by rewrite Nat.sub_diag. Qed.

Lemma when_timing timing msg s :
  when timing (logger_info msg) s = Ok tt (with_log s (if timing then [msg] else [])).
Proof. destruct timing; simpl; [done|]. by rewrite with_log_nil. Qed.

(** [extract_pixels] on a list of supported images. *)
Lemma extract_pixels_list_ok s l items ps timing :
  heap s !! l = Some (OList items) ->
  selects s items ps ->
  extract_pixels (VRef l) timing s
  = Ok (VRef (length (heap s)))
       (with_log (grow s [OList ps]) (if timing then ["Extract pixels: %s"%string] else [])).
Proof.
  intros Hl Hsel.
  destruct (type_of_list s [OList []] l items Hl) as [Ht Hi].
  destruct (extract_loop_selects s items ps [] Hsel) as [us Hloop].
  unfold extract_pixels.
  rewrite bind_unfold, alloc_grow, bind_unfold, bind_unfold, Ht, bind_unfold, Hi.
  rewrite bind_unfold, Hloop, ret_unfold, bind_unfold, when_timing.
  reflexivity.
Qed.

(** X1: on a list of supported images (arrays, namespaces with a [pixels]
    attribute, datasets with a [pixel_array], in any mix) [extract_pixels]
    returns a new list that holds, in the order of the images and one for
    one, the array itself, the value of [.pixels], or the value of
    [.pixel_array]: references to the objects it was given, not copies.  A
    dataset is accepted here, though not on its own.  With [timing] one
    record is logged. *)
Theorem X1_extract_pixels_list s l items ps timing :
  heap s !! l = Some (OList items) ->
  selects s items ps ->
  extract_pixels (VRef l) timing s
  = Ok (VRef (length (heap s)))
       (with_log (grow s [OList ps]) (if timing then ["Extract pixels: %s"%string] else []))
  /\ length ps = length items
  /\ forall i image, items !! i = Some image -> ps !! i = pixels_of s image.
Proof.
  intros Hl Hsel.
  split; [by apply (extract_pixels_list_ok s l items)|].
  split; [symmetry; by eapply Forall2_length|].
  intros i image Hi.
  destruct (Forall2_lookup_l _ _ _ _ _ Hsel Hi) as (p & Hp & Hpix).
  by rewrite Hp, Hpix.
Qed.

Lemma X1_extract_pixels_list_witness :
  extract_pixels (VRef 5%nat) true two_arrays
  = Ok (VRef 6%nat)
       (with_log (grow two_arrays [OList [VRef 1%nat; VRef 3%nat]]) ["Extract pixels: %s"%string])
  /\ length [VRef 1%nat; VRef 3%nat] = length [VRef 1%nat; VRef 4%nat]
  /\ forall i image,
       [VRef 1%nat; VRef 4%nat] !! i = Some image ->
       [VRef 1%nat; VRef 3%nat] !! i = pixels_of two_arrays image.
Proof.
  apply (X1_extract_pixels_list two_arrays 5%nat [VRef 1%nat; VRef 4%nat]
           [VRef 1%nat; VRef 3%nat] true).
  - reflexivity.
  - repeat constructor.
Defined.

Lemma extract_one_unsupported s ext bad t :
  type_of bad s = Ok t s -> t = TList \/ t = TOther ->
  extract_one bad (grow s ext) = Raise TypeError (grow s ext).
Proof.
  intros Ht Hbad. unfold extract_one.
  rewrite (bind_ok _ _ _ _ _ (type_of_grow _ _ ext _ Ht)).
  by destruct Hbad as [-> | ->].
Qed.

(** X2: a list with an item of an unsupported type (a nested list, a tuple,
    [None], a number, a string) after items that are supported makes
    [extract_pixels] raise [TypeError]; nothing is returned and nothing is
    logged, whatever [timing] is. *)
Theorem X2_extract_pixels_unsupported_item s l pre bad post ps t timing :
  heap s !! l = Some (OList (pre ++ bad :: post)) ->
  selects s pre ps ->
  type_of bad s = Ok t s -> t = TList \/ t = TOther ->
  extract_pixels (VRef l) timing s = Raise TypeError (grow s [OList ps]).
Proof.
  intros Hl Hsel Ht Hbad.
  destruct (type_of_list s [OList []] l _ Hl) as [Htl Hi].
  unfold extract_pixels.
  rewrite bind_unfold, alloc_grow, bind_unfold, bind_unfold, Htl, bind_unfold, Hi.
  rewrite bind_unfold.
  rewrite (extract_loop_stops s pre ps bad post [] TypeError Hsel); [done|].
  intros ext. by eapply extract_one_unsupported.
Qed.

Lemma X2_extract_pixels_unsupported_item_witness :
  extract_pixels (VRef 2%nat) true
    (grow (one_array [1%nat] (IntBuf uint16 [7])) [OList [VRef 1%nat; VRef 2%nat; VRef 1%nat]])
  = Raise TypeError
      (grow (grow (one_array [1%nat] (IntBuf uint16 [7]))
                  [OList [VRef 1%nat; VRef 2%nat; VRef 1%nat]])
            [OList [VRef 1%nat]]).
Proof.
  apply (X2_extract_pixels_unsupported_item _ 2%nat [VRef 1%nat] (VRef 2%nat) [VRef 1%nat]
           [VRef 1%nat] TList true).
  - reflexivity.
  - repeat constructor.
  - reflexivity.
  - by left.
Defined.

Lemma extract_one_no_pixels s ext l attrs :
  heap s !! l = Some (ONamespace attrs) -> attrs !! "pixels"%string = None ->
  extract_one (VRef l) (grow s ext) = Raise AttributeError (grow s ext).
Proof.
  intros Hl Hp. unfold extract_one, type_of.
  rewrite bind_unfold, (bind_ok _ _ _ _ _ (load_grow_old _ _ _ _ Hl)), ret_unfold.
  unfold get_pixels. rewrite (bind_ok _ _ _ _ _ (load_grow_old _ _ _ _ Hl)).
  by rewrite Hp.
Qed.

(** X3: a single array is wrapped in a new one-element list that holds the
    array itself (the same object, not a copy); a single namespace gives the
    one-element list of the value of its [pixels] attribute, whatever that
    value is: it is not checked to be an array. *)
Theorem X3_extract_pixels_single s l o p timing :
  heap s !! l = Some o ->
  (exists a, o = ONdarray a) \/ (exists attrs, o = ONamespace attrs) ->
  pixels_of s (VRef l) = Some p ->
  extract_pixels (VRef l) timing s
  = Ok (VRef (S (length (heap s))))
       (with_log (grow s [OList []; OList [p]])
          (if timing then ["Extract pixels: %s"%string] else [])).
Proof.
  intros Hl Ho Hp. unfold extract_pixels.
  rewrite bind_unfold, alloc_grow, bind_unfold, bind_unfold.
  assert (Hload : load l (grow s [OList []]) = Ok o (grow s [OList []]))
    by (by apply load_grow_old).
  assert (Hlen : length (heap (grow s [OList []])) = S (length (heap s))).
  { unfold grow. cbn [heap]. rewrite length_app. simpl. lia. }
  unfold pixels_of in Hp. rewrite Hl in Hp.
  destruct Ho as [[a ->]|[attrs ->]].
  - injection Hp as <-.
    unfold type_of. rewrite (bind_ok _ _ _ _ _ Hload), ret_unfold.
    rewrite bind_unfold, alloc_grow, ret_unfold, bind_unfold, when_timing.
    by rewrite Hlen, grow_grow.
  - unfold type_of. rewrite (bind_ok _ _ _ _ _ Hload), ret_unfold.
    unfold get_pixels. rewrite bind_unfold, (bind_ok _ _ _ _ _ Hload), Hp.
    cbn [of_option]. rewrite ret_unfold.
    rewrite bind_unfold, alloc_grow, ret_unfold, bind_unfold, when_timing.
    by rewrite Hlen, grow_grow.
Qed.

Lemma X3_extract_pixels_single_witness :
  extract_pixels (VRef 0%nat) false
    {| heap := [ONamespace (<["pixels"%string := VInt 42]> ∅)]; log := [] |}
  = Ok (VRef 2%nat)
       {| heap := [ONamespace (<["pixels"%string := VInt 42]> ∅); OList []; OList [VInt 42]];
          log := [] |}.
Proof.
  apply (X3_extract_pixels_single
           {| heap := [ONamespace (<["pixels"%string := VInt 42]> ∅)]; log := [] |}
           0%nat (ONamespace (<["pixels"%string := VInt 42]> ∅)) (VInt 42) false).
  - reflexivity.
  - right. by eexists.
  - reflexivity.
Defined.

(** X4: a namespace without a [pixels] attribute makes [extract_pixels] raise
    [AttributeError], passed on its own or in a list after supported images. *)
Theorem X4_extract_pixels_no_pixels s l attrs timing :
  heap s !! l = Some (ONamespace attrs) -> attrs !! "pixels"%string = None ->
  extract_pixels (VRef l) timing s = Raise AttributeError (grow s [OList []])
  /\ forall lst pre post ps,
       heap s !! lst = Some (OList (pre ++ VRef l :: post)) -> selects s pre ps ->
       extract_pixels (VRef lst) timing s = Raise AttributeError (grow s [OList ps]).
Proof.
  intros Hl Hp. split.
  - unfold extract_pixels.
    rewrite bind_unfold, alloc_grow, bind_unfold, bind_unfold.
    unfold type_of.
    rewrite (bind_ok _ _ _ _ _ (load_grow_old _ [OList []] _ _ Hl)), ret_unfold.
    unfold get_pixels.
    rewrite bind_unfold, (bind_ok _ _ _ _ _ (load_grow_old _ [OList []] _ _ Hl)), Hp.
    reflexivity.
  - intros lst pre post ps Hlst Hsel.
    destruct (type_of_list s [OList []] lst _ Hlst) as [Htl Hi].
    unfold extract_pixels.
    rewrite bind_unfold, alloc_grow, bind_unfold, bind_unfold, Htl, bind_unfold, Hi.
    rewrite bind_unfold.
    rewrite (extract_loop_stops s pre ps (VRef l) post [] AttributeError Hsel); [done|].
    intros ext. by eapply extract_one_no_pixels.
Qed.

Lemma X4_extract_pixels_no_pixels_witness :
  extract_pixels (VRef 0%nat) true {| heap := [ONamespace ∅]; log := [] |}
  = Raise AttributeError (grow {| heap := [ONamespace ∅]; log := [] |} [OList []]).
Proof.
  apply (X4_extract_pixels_no_pixels {| heap := [ONamespace ∅]; log := [] |} 0%nat ∅ true).
  - reflexivity.
  - reflexivity.
Defined.

Lemma selects_arrays s s' ps :
  extends s s' -> Forall (is_ndarray s) ps -> selects s' ps ps.
Proof.
  intros E Hps. induction Hps as [|p ps (l & a & -> & Hl) _ IH]; constructor; [|done].
  unfold pixels_of. by rewrite (extends_lookup _ _ _ _ E Hl).
Qed.

(** X17: [extract_pixels] can be applied to its own result.  When the
    pixels of the images are arrays, the list it returned is itself a list
    of supported images, and a second call returns another new list with
    the same arrays in the same order. *)
Theorem X17_extract_pixels_twice s l items ps timing timing' :
  heap s !! l = Some (OList items) ->
  selects s items ps ->
  Forall (is_ndarray s) ps ->
  exists p1 s1 p2 s2,
    extract_pixels (VRef l) timing s = Ok p1 s1
    /\ extract_pixels p1 timing' s1 = Ok p2 s2
    /\ read_list s2 p1 = Some ps
    /\ read_list s2 p2 = Some ps
    /\ p1 <> p2.
Proof.
  intros Hl Hsel Hps.
  pose proof (extract_pixels_list_ok s l items ps timing Hl Hsel) as H1.
  set (s1 := with_log (grow s [OList ps]) _) in H1.
  assert (E1 : extends s s1).
  { exists [OList ps], (if timing then ["Extract pixels: %s"%string] else []). done. }
  assert (Hl1 : heap s1 !! length (heap s) = Some (OList ps)).
  { unfold s1, with_log. cbn [heap]. apply lookup_grow_last. }
  pose proof (extract_pixels_list_ok s1 _ ps ps timing' Hl1 (selects_arrays _ _ _ E1 Hps))
    as H2.
  set (s2 := with_log (grow s1 [OList ps]) _) in H2.
  assert (E2 : extends s1 s2).
  { exists [OList ps], (if timing' then ["Extract pixels: %s"%string] else []). done. }
  exists (VRef (length (heap s))), s1, (VRef (length (heap s1))), s2.
  split; [exact H1|]. split; [exact H2|].
  assert (Hlen : length (heap s1) = S (length (heap s))).
  { unfold s1, with_log, grow. cbn [heap]. rewrite length_app. simpl. lia. }
  split; [|split].
  - unfold read_list. by rewrite (extends_lookup _ _ _ _ E2 Hl1).
  - unfold read_list, s2, with_log. cbn [heap]. by rewrite lookup_grow_last.
  - rewrite Hlen. intros [= Heq]. lia.
Qed.

Lemma X17_extract_pixels_twice_witness :
  exists p1 s1 p2 s2,
    extract_pixels (VRef 5%nat) false two_arrays = Ok p1 s1
    /\ extract_pixels p1 true s1 = Ok p2 s2
    /\ read_list s2 p1 = Some [VRef 1%nat; VRef 3%nat]
    /\ read_list s2 p2 = Some [VRef 1%nat; VRef 3%nat]
    /\ p1 <> p2.
Proof.
  apply (X17_extract_pixels_twice two_arrays 5%nat [VRef 1%nat; VRef 4%nat]
           [VRef 1%nat; VRef 3%nat] false true).
  - reflexivity.
  - repeat constructor.
  - repeat constructor; eexists _, _; split; reflexivity.
Defined.

(** * [timing]: what is logged *)

Lemma quiet_ret {A} (a : A) : quiet (mret a : M A).
Proof. done. Qed.

Lemma quiet_raise {A} e : quiet (raise e : M A).
Proof. done. Qed.

Lemma quiet_bind {A B} (m : M A) (f : A -> M B) :
  quiet m -> (forall a, quiet (f a)) -> quiet (m ≫= f).
Proof.
  intros Hm Hf s. rewrite bind_unfold. specialize (Hm s).
  destruct (m s) as [a s'|e s']; simpl in Hm; [|done].
  rewrite <- Hm. apply Hf.
Qed.

Lemma quiet_still {A} (m : M A) : still m -> quiet m.
Proof. intros Hm s. by rewrite Hm. Qed.

Lemma quiet_alloc o : quiet (alloc o).
Proof. done. Qed.

Lemma quiet_store l o : quiet (store l o).
Proof. done. Qed.

Lemma quiet_of_option {A} e (o : option A) : quiet (of_option e o).
Proof. by destruct o. Qed.

Lemma quiet_mapM {A B} (f : A -> M B) l : (forall x, quiet (f x)) -> quiet (mapM f l).
Proof.
  intros Hf. induction l as [|x l IH]; simpl; [done|].
  apply quiet_bind; [done|]. intros y.
  apply quiet_bind; [done|]. intros ys. done.
Qed.

Lemma quiet_load l : quiet (load l).
Proof. apply quiet_still, still_load. Qed.

Create HintDb quiet.

#[local] Hint Resolve quiet_ret quiet_raise quiet_alloc quiet_store quiet_load
  quiet_of_option quiet_mapM : quiet.

Ltac quiet_step :=
  repeat first
    [ apply quiet_bind; [|intros ?]
    | progress auto with quiet
    | match goal with
      | |- quiet (match ?x with _ => _ end) => destruct x
      end ].

Lemma quiet_load_ndarray v : quiet (load_ndarray v).
Proof. unfold load_ndarray. destruct v; quiet_step. Qed.

Lemma quiet_contents a : quiet (contents a).
Proof. unfold contents, load_buffer. quiet_step. Qed.

Lemma quiet_new_array sh b : quiet (new_array sh b).
Proof. unfold new_array. quiet_step. Qed.

#[local] Hint Resolve quiet_load_ndarray quiet_contents quiet_new_array : quiet.

Lemma quiet_np_reduce red v : quiet (np_reduce red v).
Proof. unfold np_reduce. destruct v; quiet_step. Qed.

Lemma quiet_astype_f32 v : quiet (astype_f32 v).
Proof. unfold astype_f32. destruct v; quiet_step. Qed.

Lemma quiet_copy v : quiet (copy v).
Proof. unfold copy. destruct v; quiet_step. Qed.

Lemma quiet_inplace o v y : quiet (inplace o v y).
Proof. unfold inplace, load_buffer. destruct v; quiet_step. Qed.

#[local] Hint Resolve quiet_np_reduce quiet_astype_f32 quiet_copy quiet_inplace : quiet.

Lemma quiet_helper pixels kwargs : quiet (_minmax_helper pixels kwargs).
Proof. unfold _minmax_helper, np_max, np_min. quiet_step. Qed.

#[local] Hint Resolve quiet_helper : quiet.

Lemma quiet_for_each pixels kwargs :
  quiet (for_each pixels (fun p => _minmax_helper p kwargs)).
Proof.
  unfold for_each. destruct pixels; quiet_step.
  destruct (shape a) as [|d0 [|d1 rest]]; quiet_step.
  all: apply quiet_mapM; intros i; quiet_step.
Qed.

Lemma quiet_list_append lst x : quiet (list_append lst x).
Proof.
  unfold list_append. apply quiet_bind; [apply quiet_still, still_list_items|].
  intros items. destruct lst; quiet_step.
Qed.

Lemma quiet_extract_pixels images : quiet (extract_pixels images false).
Proof.
  unfold extract_pixels. apply quiet_bind; [apply quiet_alloc|]. intros l.
  apply quiet_bind; [|intros p; apply quiet_bind; [apply quiet_ret | intros; apply quiet_ret]].
  apply quiet_bind; [apply quiet_still, still_type_of|]. intros t.
  destruct t; quiet_step.
  - apply quiet_still, still_list_items.
  - apply quiet_mapM. intros image.
    apply quiet_bind; [apply quiet_still, still_extract_one|]. intros p.
    apply quiet_list_append.
  - apply quiet_still, still_get_pixels.
Qed.

Lemma quiet_minmax pixels kwargs : quiet (minmax pixels false kwargs).
Proof.
  unfold minmax, when. apply quiet_bind; [apply quiet_for_each|]. intros ps. quiet_step.
Qed.

Lemma quiet_get_norm pixels norm_type kwargs : quiet (get_norm pixels norm_type false kwargs).
Proof.
  unfold get_norm, when. apply quiet_bind; [apply quiet_extract_pixels|]. intros p.
  destruct (norm_registry !! lower norm_type) as [f|] eqn:Hf; [|apply quiet_raise].
  apply registry_lookup in Hf as ->.
  apply quiet_bind; [apply quiet_minmax|]. intros r. quiet_step.
Qed.

Lemma with_log_app s m1 m2 : with_log (with_log s m1) m2 = with_log s (m1 ++ m2).
Proof. unfold with_log. cbn [heap log]. by rewrite app_assoc. Qed.

Lemma extract_pixels_timed images s :
  extract_pixels images true s
  = timed ["Extract pixels: %s"%string] (extract_pixels images false s).
Proof.
  unfold extract_pixels. rewrite !(bind_unfold (alloc _)), alloc_grow.
  set (inner := type_of images ≫= _).
  rewrite !(bind_unfold inner).
  destruct (inner (grow s [OList []])) as [p s1|e s1]; [|done].
  rewrite !bind_unfold, !when_timing, !ret_unfold. cbn [timed]. by rewrite with_log_nil.
Qed.

Lemma minmax_timed pixels kwargs s :
  minmax pixels true kwargs s = timed ["minmax: %s"%string] (minmax pixels false kwargs s).
Proof.
  unfold minmax. rewrite !(bind_unfold (for_each _ _)).
  destruct (for_each _ _ s) as [ps s1|e s1]; [|done].
  rewrite !bind_unfold, !alloc_grow, !bind_unfold, !when_timing, !ret_unfold.
  cbn [timed]. by rewrite with_log_nil.
Qed.

Lemma get_norm_timed pixels norm_type kwargs s :
  get_norm pixels norm_type true kwargs s
  = timed ["minmax: %s"%string; "get_norm: %s"%string]
      (get_norm pixels norm_type false kwargs s).
Proof.
  unfold get_norm. rewrite !(bind_unfold (extract_pixels _ _)).
  destruct (extract_pixels pixels false s) as [p s1|e s1]; [|done].
  destruct (norm_registry !! lower norm_type) as [f|] eqn:Hf; [|done].
  apply registry_lookup in Hf as ->.
  rewrite !(bind_unfold (minmax _ _ _)), minmax_timed.
  destruct (minmax p false kwargs s1) as [r s2|e s2]; [|done].
  cbn [timed]. rewrite !bind_unfold, !when_timing, !ret_unfold.
  cbn [timed]. by rewrite with_log_nil, with_log_app.
Qed.

(** X5: [timing] changes nothing but the log.  A call with [timing=True]
    returns what the call with [timing=False] returns and leaves the same
    objects; when it returns, it has logged one record ([extract_pixels],
    [minmax]) or two ([get_norm]: the record of [minmax], then its own), and
    when it raises it has logged nothing.  [get_norm] never logs the record
    of [extract_pixels], which it calls without [timing].  With
    [timing=False] nothing is logged at all. *)
Theorem X5_timing_only_logs :
  (forall images s,
      extract_pixels images true s
      = timed ["Extract pixels: %s"%string] (extract_pixels images false s)
      /\ log (final (extract_pixels images false s)) = log s)
  /\ (forall pixels kwargs s,
        minmax pixels true kwargs s
        = timed ["minmax: %s"%string] (minmax pixels false kwargs s)
        /\ log (final (minmax pixels false kwargs s)) = log s)
  /\ (forall pixels norm_type kwargs s,
        get_norm pixels norm_type true kwargs s
        = timed ["minmax: %s"%string; "get_norm: %s"%string]
            (get_norm pixels norm_type false kwargs s)
        /\ log (final (get_norm pixels norm_type false kwargs s)) = log s).
Proof.
  split; [|split].
  - intros images s. split; [apply extract_pixels_timed | apply quiet_extract_pixels].
  - intros pixels kwargs s. split; [apply minmax_timed | apply quiet_minmax].
  - intros pixels norm_type kwargs s.
    split; [apply get_norm_timed | apply quiet_get_norm].
Qed.

(** * [minmax] and [get_norm] on images *)

Lemma is_image_ref s v : is_image s v -> exists l, v = VRef l.
Proof. intros (sh & b & Hread & _). destruct v; try discriminate. by eexists. Qed.

Lemma is_image_extends s s' v : extends s s' -> is_image s v -> is_image s' v.
Proof.
  intros E (sh & b & Hread & Hwf & Hlen). exists sh, b.
  split; [by eapply read_array_extends | done].
Qed.

(** The helper on a list of images, one after the other. *)
Lemma helper_images kwargs s0 items s :
  int_operand (helper_bins kwargs - 1) ->
  extends s0 s -> Forall (is_image s0) items ->
  exists ps s',
    mapM (fun p => _minmax_helper p kwargs) items s = Ok ps s'
    /\ extends s s'
    /\ Forall2 (image_result kwargs s0 s') items ps.
Proof.
  intros Hbins E Hitems. revert s E.
  induction Hitems as [|image items Himage _ IH]; intros s E; simpl.
  - exists [], s. split; [done|]. split; [apply extends_refl | constructor].
  - destruct (is_image_ref _ _ Himage) as [l ->].
    destruct Himage as (sh & b & Hread & Hwf & Hlen).
    destruct (normalize_total (helper_bins kwargs) b Hwf Hlen Hbins) as [ys Hys].
    pose proof (read_array_extends _ _ _ _ E Hread) as Hread'.
    destruct (helper_array s l sh b kwargs ys Hread' Hys) as [Hrun Hout].
    pose proof (helper_final_extends s sh b ys) as E1.
    destruct (IH _ (extends_trans _ _ _ E E1)) as (ps & s2 & Hps & E2 & Hall).
    exists (helper_result s :: ps), s2.
    rewrite (bind_ok _ _ _ _ _ Hrun), (bind_ok _ _ _ _ _ Hps), ret_unfold.
    split; [done|]. split; [by eapply extends_trans|].
    constructor; [|done]. exists sh, b, ys.
    split; [done|]. split; [by apply normalize_normalized|].
    split; [by eapply read_array_extends|].
    eapply fresh_in_mono; [exact E | apply helper_result_fresh | exact E2].
Qed.

Lemma image_result_extends kwargs s0 s s' image p :
  extends s s' -> image_result kwargs s0 s image p -> image_result kwargs s0 s' image p.
Proof.
  intros E (sh & b & ys & H1 & H2 & H3 & H4). exists sh, b, ys.
  split; [done|]. split; [done|]. split; [by eapply read_array_extends|].
  eapply fresh_in_mono; [apply extends_refl | exact H4 | exact E].
Qed.

(** [minmax] on a list of images of an earlier store. *)
Lemma minmax_images kwargs s0 s l items timing :
  int_operand (helper_bins kwargs - 1) ->
  extends s0 s -> heap s !! l = Some (OList items) -> Forall (is_image s0) items ->
  exists lst ps s',
    minmax (VRef l) timing kwargs s = Ok (VRef lst, VNone) s'
    /\ extends s s'
    /\ (length (heap s) <= lst)%nat
    /\ heap s' !! lst = Some (OList ps)
    /\ Forall2 (image_result kwargs s0 s') items ps.
Proof.
  intros Hbins E Hl Hitems.
  destruct (helper_images kwargs s0 items s Hbins E Hitems) as (ps & s1 & Hps & E1 & Hall).
  assert (Hfor : for_each (VRef l) (fun p => _minmax_helper p kwargs) s = Ok ps s1).
  { unfold for_each. by rewrite (bind_ok _ _ _ _ _ (load_some _ _ _ Hl)). }
  unfold minmax.
  rewrite (bind_ok _ _ _ _ _ Hfor), bind_unfold, alloc_grow, bind_unfold, when_timing.
  rewrite ret_unfold.
  set (s2 := with_log (grow s1 [OList ps]) _).
  assert (E2 : extends s1 s2).
  { eapply extends_trans; [apply extends_grow | apply extends_with_log]. }
  exists (length (heap s1)), ps, s2.
  split; [done|]. split; [by eapply extends_trans|].
  split; [by apply extends_length|]. split.
  - apply (extends_lookup (grow s1 [OList ps])); [apply extends_with_log|].
    apply lookup_grow_last.
  - eapply Forall2_impl; [exact Hall|]. intros image p. by apply image_result_extends.
Qed.

(** X8: [minmax] on a list of images normalizes every image on its own.  It
    returns, paired with [None], a new list — allocated by the call, the list
    it was given and the images are left as they were — with one new float32
    array per image, in the order of the images and each of the shape of its
    image.  The array of an image holds the elements of the image as
    float32, minus a minimum of the image, divided by a maximum of the image
    minus that minimum, times [bins - 1]; the minimum is an element of the
    image that no element of the image is below, the maximum one that none
    is above (NaN when the image holds one), whatever the other images
    hold. *)
Theorem X8_minmax_list s l items timing kwargs :
  heap s !! l = Some (OList items) ->
  Forall (is_image s) items ->
  int_operand (helper_bins kwargs - 1) ->
  exists lst ps s',
    minmax (VRef l) timing kwargs s = Ok (VRef lst, VNone) s'
    /\ extends s s'
    /\ (length (heap s) <= lst)%nat
    /\ heap s' !! lst = Some (OList ps)
    /\ length ps = length items
    /\ Forall2 (image_result kwargs s s') items ps.
Proof.
  intros Hl Hitems Hbins.
  destruct (minmax_images kwargs s s l items timing Hbins (extends_refl s) Hl Hitems)
    as (lst & ps & s' & Hrun & E & Hnew & Hlst & Hall).
  exists lst, ps, s'. split; [done|]. split; [done|]. split; [done|]. split; [done|].
  split; [symmetry; by eapply Forall2_length | done].
Qed.

Lemma X8_minmax_list_witness :
  exists lst ps s',
    minmax (VRef 4%nat) true ∅
      (grow (one_array [2%nat] (IntBuf uint8 [3; 4]))
         [OBuffer (IntBuf uint16 [100; 50; 75]);
          ONdarray {| shape := [3%nat]; base := 2%nat; offset := 0 |};
          OList [VRef 1%nat; VRef 3%nat]])
    = Ok (VRef lst, VNone) s'
    /\ extends (grow (one_array [2%nat] (IntBuf uint8 [3; 4]))
                  [OBuffer (IntBuf uint16 [100; 50; 75]);
                   ONdarray {| shape := [3%nat]; base := 2%nat; offset := 0 |};
                   OList [VRef 1%nat; VRef 3%nat]]) s'
    /\ (5 <= lst)%nat
    /\ heap s' !! lst = Some (OList ps)
    /\ length ps = 2%nat
    /\ Forall2 (image_result ∅
                  (grow (one_array [2%nat] (IntBuf uint8 [3; 4]))
                     [OBuffer (IntBuf uint16 [100; 50; 75]);
                      ONdarray {| shape := [3%nat]; base := 2%nat; offset := 0 |};
                      OList [VRef 1%nat; VRef 3%nat]]) s')
         [VRef 1%nat; VRef 3%nat] ps.
Proof.
  apply (X8_minmax_list
           (grow (one_array [2%nat] (IntBuf uint8 [3; 4]))
              [OBuffer (IntBuf uint16 [100; 50; 75]);
               ONdarray {| shape := [3%nat]; base := 2%nat; offset := 0 |};
               OList [VRef 1%nat; VRef 3%nat]])
           4%nat [VRef 1%nat; VRef 3%nat] true ∅).
  - reflexivity.
  - repeat constructor.
    + exists [2%nat], (IntBuf uint8 [3; 4]). split; [reflexivity|].
      split; [|discriminate]. repeat constructor; vm_compute; discriminate.
    + exists [3%nat], (IntBuf uint16 [100; 50; 75]). split; [reflexivity|].
      split; [|discriminate]. repeat constructor; vm_compute; discriminate.
  - vm_compute. split; discriminate.
Defined.

(** [extract_pixels], as [get_norm] calls it, on a list of supported images
    and on a single array. *)
Lemma extract_pixels_selects s l items ps :
  heap s !! l = Some (OList items) -> selects s items ps ->
  extract_pixels (VRef l) false s = Ok (VRef (length (heap s))) (grow s [OList ps]).
Proof.
  intros Hl Hsel. rewrite (extract_pixels_list_ok s l items ps false Hl Hsel).
  by rewrite with_log_nil.
Qed.

Lemma extract_pixels_array s l a :
  heap s !! l = Some (ONdarray a) ->
  extract_pixels (VRef l) false s
  = Ok (VRef (S (length (heap s)))) (grow s [OList []; OList [VRef l]]).
Proof.
  intros Hl. unfold extract_pixels.
  rewrite bind_unfold, alloc_grow, bind_unfold, bind_unfold.
  unfold type_of.
  rewrite (bind_ok _ _ _ _ _ (load_grow_old _ [OList []] _ _ Hl)), ret_unfold.
  rewrite bind_unfold, alloc_grow, ret_unfold, grow_grow. cbn [app].
  rewrite bind_unfold. cbn [when]. rewrite ret_unfold, ret_unfold.
  do 2 f_equal. unfold grow. cbn [heap]. rewrite length_app. simpl. lia.
Qed.

Lemma get_norm_minmax_images kwargs s l timing items p s1 :
  int_operand (helper_bins kwargs - 1) ->
  extract_pixels (VRef l) false s = Ok p s1 ->
  extends s s1 -> read_list s1 p = Some items -> Forall (is_image s) items ->
  exists lst rs s',
    get_norm_minmax (VRef l) timing kwargs s = Ok (VRef lst, VNone) s'
    /\ extends s s'
    /\ (length (heap s) <= lst)%nat
    /\ heap s' !! lst = Some (OList rs)
    /\ Forall2 (image_result kwargs s s') items rs.
Proof.
  intros Hbins Hex E Hp Hitems.
  destruct p as [| | | |lp]; try discriminate.
  assert (Hlp : heap s1 !! lp = Some (OList items)).
  { unfold read_list in Hp. destruct (heap s1 !! lp) as [[]|]; try discriminate.
    by injection Hp as ->. }
  destruct (minmax_images kwargs s s1 lp items timing Hbins E Hlp Hitems)
    as (lst & rs & s2 & Hrun & E2 & Hnew & Hlst & Hall).
  unfold get_norm_minmax.
  rewrite (bind_ok _ _ _ _ _ Hex), (bind_ok _ _ _ _ _ Hrun), bind_unfold, when_timing.
  rewrite ret_unfold. cbn [fst].
  exists lst, rs, (with_log s2 (if timing then ["get_norm: %s"%string] else [])).
  split; [done|].
  split; [eapply extends_trans; [exact E|]; eapply extends_trans;
          [exact E2 | apply extends_with_log]|].
  split; [pose proof (extends_length _ _ E); lia|]. split.
  - by apply (extends_lookup s2); [apply extends_with_log|].
  - eapply Forall2_impl; [exact Hall|]. intros image r.
    apply image_result_extends, extends_with_log.
Qed.

(** X9: [get_norm] on a single array (not in a list) normalizes the array as
    a whole.  It returns, paired with [None], a new one-element list whose
    array is new, has the shape of the argument and holds all its elements
    as float32, minus one minimum, divided by one maximum minus that
    minimum, times [bins - 1]: the minimum is an element of the array that
    no element of the whole array is below, the maximum one that none is
    above (NaN when the array holds one).  The argument is left as it was.
    ([minmax] handed the same array directly normalizes each slice of its
    first axis instead.) *)
Theorem X9_get_norm_single_array s l norm_type timing kwargs :
  is_minmax norm_type ->
  is_image s (VRef l) ->
  int_operand (helper_bins kwargs - 1) ->
  exists lst p s',
    get_norm (VRef l) norm_type timing kwargs s = Ok (VRef lst, VNone) s'
    /\ extends s s'
    /\ (length (heap s) <= lst)%nat
    /\ heap s' !! lst = Some (OList [p])
    /\ image_result kwargs s s' (VRef l) p.
Proof.
  intros Hnt Himage Hbins.
  assert (Ha : exists a, heap s !! l = Some (ONdarray a)).
  { destruct Himage as (sh & b & Hread & _).
    destruct (read_array_header _ _ _ _ Hread) as (a & _ & Ha & _). by exists a. }
  destruct Ha as [a Ha].
  rewrite get_norm_hit by exact Hnt.
  destruct (get_norm_minmax_images kwargs s l timing [VRef l] _ _ Hbins
              (extract_pixels_array s l a Ha))
    as (lst & rs & s' & Hrun & E & Hnew & Hlst & Hall).
  - apply extends_grow.
  - unfold read_list, grow. cbn [heap].
    rewrite lookup_app_r by lia. by replace (S _ - _)%nat with 1%nat by lia.
  - by constructor.
  - inversion Hall as [|? p ? ps Hp Hnil]; subst. inversion Hnil; subst.
    by exists lst, p, s'.
Qed.

Lemma X9_get_norm_single_array_witness :
  exists lst p s',
    get_norm (VRef 1%nat) "MinMax" true ∅ (one_array [2%nat; 2%nat] (IntBuf uint8 [0; 10; 20; 30]))
    = Ok (VRef lst, VNone) s'
    /\ extends (one_array [2%nat; 2%nat] (IntBuf uint8 [0; 10; 20; 30])) s'
    /\ (2 <= lst)%nat
    /\ heap s' !! lst = Some (OList [p])
    /\ image_result ∅ (one_array [2%nat; 2%nat] (IntBuf uint8 [0; 10; 20; 30])) s'
         (VRef 1%nat) p.
Proof.
  apply (X9_get_norm_single_array
           (one_array [2%nat; 2%nat] (IntBuf uint8 [0; 10; 20; 30])) 1%nat "MinMax" true ∅).
  - by left.
  - exists [2%nat; 2%nat], (IntBuf uint8 [0; 10; 20; 30]). split; [reflexivity|].
    split; [|discriminate]. repeat constructor; vm_compute; discriminate.
  - vm_compute. split; discriminate.
Defined.

(** X10: [get_norm] on a list of supported images (arrays, namespaces,
    datasets) normalizes the pixels of every image on their own.  The list
    it returns, paired with [None], is new and has one new float32 array per
    image, in the order of the images, each of the shape of the pixels of
    its image and holding their elements as float32, minus a minimum of
    these pixels, divided by a maximum of these pixels minus that minimum,
    times [bins - 1]; minimum and maximum are elements of these pixels that
    none of them is below, or above (NaN when they hold one), whatever the
    other images hold.  The images are left as they were. *)
Theorem X10_get_norm_list s l items ps norm_type timing kwargs :
  is_minmax norm_type ->
  heap s !! l = Some (OList items) ->
  selects s items ps ->
  Forall (is_image s) ps ->
  int_operand (helper_bins kwargs - 1) ->
  exists lst rs s',
    get_norm (VRef l) norm_type timing kwargs s = Ok (VRef lst, VNone) s'
    /\ extends s s'
    /\ (length (heap s) <= lst)%nat
    /\ heap s' !! lst = Some (OList rs)
    /\ length rs = length items
    /\ Forall2 (image_result kwargs s s') ps rs.
Proof.
  intros Hnt Hl Hsel Hps Hbins.
  rewrite get_norm_hit by exact Hnt.
  destruct (get_norm_minmax_images kwargs s l timing ps _ _ Hbins
              (extract_pixels_selects s l items ps Hl Hsel))
    as (lst & rs & s' & Hrun & E & Hnew & Hlst & Hall).
  - apply extends_grow.
  - unfold read_list. by rewrite lookup_grow_last.
  - done.
  - exists lst, rs, s'. split; [done|]. split; [done|]. split; [done|].
    split; [done|]. split; [|done].
    rewrite <- (Forall2_length _ _ _ Hall). symmetry. by eapply Forall2_length.
Qed.

Lemma X10_get_norm_list_witness :
  exists lst rs s',
    get_norm (VRef 5%nat) "min-max" false ∅ two_arrays = Ok (VRef lst, VNone) s'
    /\ extends two_arrays s'
    /\ (6 <= lst)%nat
    /\ heap s' !! lst = Some (OList rs)
    /\ length rs = 2%nat
    /\ Forall2 (image_result ∅ two_arrays s') [VRef 1%nat; VRef 3%nat] rs.
Proof.
  apply (X10_get_norm_list two_arrays 5%nat [VRef 1%nat; VRef 4%nat]
           [VRef 1%nat; VRef 3%nat] "min-max" false ∅).
  - by right.
  - reflexivity.
  - repeat constructor.
  - repeat constructor.
    + exists [2%nat; 2%nat], (IntBuf uint8 [0; 10; 20; 30]). split; [reflexivity|].
      split; [|discriminate]. repeat constructor; vm_compute; discriminate.
    + exists [2%nat], (IntBuf uint16 [5; 9]). split; [reflexivity|].
      split; [|discriminate]. repeat constructor; vm_compute; discriminate.
  - vm_compute. split; discriminate.
Defined.

(** * Edge cases of the helper *)

(** ** An array without elements *)

Lemma helper_no_elements s l sh b kwargs :
  read_array s (VRef l) = Some (sh, b) -> size_of sh = 0%nat ->
  _minmax_helper (VRef l) kwargs s = Raise ValueError s.
Proof.
  intros Hread Hsize.
  assert (Hlen : buffer_length b = 0%nat).
  { destruct (read_array_header _ _ _ _ Hread) as (a & buf & _ & _ & _ & <-).
    pose proof (window_length (offset a) (size_of sh) buf). lia. }
  rewrite (helper_array_outcome _ _ _ _ _ Hread).
  by destruct b as [k [|]|k [|]].
Qed.

(** The helper stops the loop of [minmax] at an array it rejects. *)
Lemma helper_images_stop kwargs s0 pre bad post s e :
  int_operand (helper_bins kwargs - 1) ->
  extends s0 s -> Forall (is_image s0) pre ->
  (forall s1, extends s0 s1 -> _minmax_helper bad kwargs s1 = Raise e s1) ->
  exists s',
    mapM (fun p => _minmax_helper p kwargs) (pre ++ bad :: post) s = Raise e s'.
Proof.
  intros Hbins E Hpre Hbad. revert s E.
  induction Hpre as [|image pre Himage _ IH]; intros s E; simpl.
  - exists s. by rewrite (bind_raise _ _ _ _ _ (Hbad s E)).
  - destruct (is_image_ref _ _ Himage) as [l ->].
    destruct Himage as (sh & b & Hread & Hwf & Hlen).
    destruct (normalize_total (helper_bins kwargs) b Hwf Hlen Hbins) as [ys Hys].
    pose proof (read_array_extends _ _ _ _ E Hread) as Hread'.
    destruct (helper_array s l sh b kwargs ys Hread' Hys) as [Hrun _].
    pose proof (helper_final_extends s sh b ys) as E1.
    destruct (IH _ (extends_trans _ _ _ E E1)) as [s' Hs'].
    exists s'. by rewrite (bind_ok _ _ _ _ _ Hrun), (bind_raise _ _ _ _ _ Hs').
Qed.

(** X6: an array without elements (a zero in its shape) has no maximum: the
    helper raises [ValueError] before it allocates anything.  So does
    [get_norm] on such an array (the exception it also raises for an unknown
    [norm_type]), and [minmax] on a list that holds one, whatever the other
    images are: no partial result is returned. *)
Theorem X6_empty_array s l sh b kwargs :
  read_array s (VRef l) = Some (sh, b) -> size_of sh = 0%nat ->
  _minmax_helper (VRef l) kwargs s = Raise ValueError s
  /\ (forall norm_type timing,
        is_minmax norm_type ->
        exists s', get_norm (VRef l) norm_type timing kwargs s = Raise ValueError s')
  /\ (forall lst pre post timing,
        heap s !! lst = Some (OList (pre ++ VRef l :: post)) ->
        Forall (is_image s) pre -> int_operand (helper_bins kwargs - 1) ->
        exists s', minmax (VRef lst) timing kwargs s = Raise ValueError s').
Proof.
  intros Hread Hsize.
  assert (Hbad : forall s1, extends s s1 ->
                   _minmax_helper (VRef l) kwargs s1 = Raise ValueError s1).
  { intros s1 E. eapply helper_no_elements; [|exact Hsize].
    by eapply read_array_extends. }
  split; [apply Hbad, extends_refl|]. split.
  - intros norm_type timing Hnt.
    destruct (read_array_header _ _ _ _ Hread) as (a & _ & Ha & _).
    rewrite get_norm_hit by exact Hnt. unfold get_norm_minmax.
    rewrite (bind_ok _ _ _ _ _ (extract_pixels_array s l a Ha)).
    set (s1 := grow s _).
    assert (Hlst : heap s1 !! S (length (heap s)) = Some (OList [VRef l])).
    { unfold s1, grow. cbn [heap].
      rewrite lookup_app_r by lia. by replace (S _ - _)%nat with 1%nat by lia. }
    exists s1. unfold minmax, for_each.
    rewrite bind_unfold, bind_unfold, (bind_ok _ _ _ _ _ (load_some _ _ _ Hlst)).
    cbn [mapM]. rewrite bind_unfold, Hbad by apply extends_grow. done.
  - intros lst pre post timing Hlst Hpre Hbins.
    destruct (helper_images_stop kwargs s pre (VRef l) post s ValueError Hbins
                (extends_refl s) Hpre Hbad) as [s' Hs'].
    exists s'. unfold minmax, for_each.
    by rewrite bind_unfold, (bind_ok _ _ _ _ _ (load_some _ _ _ Hlst)), Hs'.
Qed.

Lemma X6_empty_array_witness :
  _minmax_helper (VRef 1%nat) ∅ (one_array [0%nat; 3%nat] (IntBuf uint8 []))
  = Raise ValueError (one_array [0%nat; 3%nat] (IntBuf uint8 [])).
Proof.
  apply (X6_empty_array (one_array [0%nat; 3%nat] (IntBuf uint8 [])) 1%nat
           [0%nat; 3%nat] (IntBuf uint8 []) ∅).
  - reflexivity.
  - reflexivity.
Defined.

(** ** An array with a NaN *)

Lemma fmaximum_nan_l x : fmaximum S754_nan x = S754_nan.
Proof. reflexivity. Qed.

Lemma fmaximum_nan_r x : fmaximum x S754_nan = S754_nan.
Proof. by destruct x. Qed.

Lemma fminimum_nan_l x : fminimum S754_nan x = S754_nan.
Proof. reflexivity. Qed.

Lemma fminimum_nan_r x : fminimum x S754_nan = S754_nan.
Proof. by destruct x. Qed.

Lemma fold_nan (f : spec_float -> spec_float -> spec_float) l x0 :
  (forall x, f S754_nan x = S754_nan) -> (forall x, f x S754_nan = S754_nan) ->
  S754_nan ∈ x0 :: l -> fold_left f l x0 = S754_nan.
Proof.
  intros Hl Hr Hin.
  apply (fold_absorb f (fun _ => True)); auto.
  apply Forall_forall. done.
Qed.

Lemma fop_nan_r o k x : fop o k x S754_nan = S754_nan.
Proof. destruct o, x as [| | |[] ? ?]; reflexivity. Qed.

Lemma fop_nan_l o k y : fop o k S754_nan y = S754_nan.
Proof. by destruct o. Qed.

(** [a op= nan] turns every element into NaN, in a float32 loop. *)
Lemma array_op_nan o k xs :
  array_op o (NpS (FloatS k S754_nan)) xs = Some (map (fun _ => S754_nan) xs).
Proof.
  unfold array_op.
  assert (Hloop : array_loop (NpS (FloatS k S754_nan)) = Some float32) by (by destruct k).
  rewrite Hloop. f_equal. apply map_ext. intros x.
  replace (operand_float float32 (NpS (FloatS k S754_nan))) with S754_nan
    by (by destruct k).
  apply (fop_nan_r o float32).
Qed.

Lemma elem_op_nan o k fy : elem_op o k fy S754_nan = S754_nan.
Proof. destruct k; cbn [elem_op fcast]; by rewrite fop_nan_l. Qed.

Lemma normalize_nan bins b :
  has_nan b -> int_operand (bins - 1) ->
  normalize bins b = Some (replicate (buffer_length b) S754_nan).
Proof.
  intros Hnan Hbins. destruct b as [|k l]; [done|]. cbn [has_nan] in Hnan.
  destruct l as [|x0 l]; [by apply elem_of_nil in Hnan|].
  unfold normalize. cbn [amax amin].
  rewrite (fold_nan fmaximum), (fold_nan fminimum)
    by auto using fmaximum_nan_l, fmaximum_nan_r, fminimum_nan_l, fminimum_nan_r.
  replace (scalar_op Sub (FloatS k S754_nan) (FloatS k S754_nan))
    with (FloatS k S754_nan) by (by destruct k).
  rewrite array_op_nan. cbn [mbind option_bind]. rewrite array_op_nan.
  cbn [mbind option_bind].
  unfold array_op. cbn [array_loop].
  destruct (int_value_loop_some _ Hbins) as [k' ->]. f_equal.
  rewrite <- (astype_float32_length (FloatBuf k (x0 :: l))).
  generalize (astype_float32 (FloatBuf k (x0 :: l))). intros xs.
  induction xs as [|x xs IH]; [done|]. cbn [map length replicate].
  by rewrite elem_op_nan, IH.
Qed.

(** X7: one NaN among the elements of a float array makes every element of
    the result NaN: [np.max] and [np.min] are both NaN, and so are the
    difference of each element with the minimum, the range, the quotient and
    the product. *)
Theorem X7_nan_spreads s l sh b kwargs :
  read_array s (VRef l) = Some (sh, b) ->
  has_nan b -> int_operand (helper_bins kwargs - 1) ->
  exists v s',
    _minmax_helper (VRef l) kwargs s = Ok v s'
    /\ read_array s' v
       = Some (sh, FloatBuf float32 (replicate (buffer_length b) S754_nan)).
Proof.
  intros Hread Hnan Hbins.
  pose proof (normalize_nan (helper_bins kwargs) b Hnan Hbins) as Hnorm.
  destruct (helper_array s l sh b kwargs _ Hread Hnorm) as [Hrun Hout].
  by eexists _, _.
Qed.

Lemma X7_nan_spreads_witness :
  run_helper [3%nat] (FloatBuf float64 [of_Z float64 1; S754_nan; of_Z float64 5]) ∅
  = Some ([3%nat], FloatBuf float32 [S754_nan; S754_nan; S754_nan]).
Proof.
  destruct (X7_nan_spreads
              (one_array [3%nat] (FloatBuf float64 [of_Z float64 1; S754_nan; of_Z float64 5]))
              1%nat [3%nat] (FloatBuf float64 [of_Z float64 1; S754_nan; of_Z float64 5]) ∅)
    as (v & s' & Hrun & Hout).
  - reflexivity.
  - cbn [has_nan]. apply elem_of_cons. right. apply elem_of_cons. by left.
  - vm_compute. split; discriminate.
  - unfold run_helper. by rewrite Hrun, Hout.
Defined.

(** ** [minmax] handed a 1-d array *)

Lemma helper_scalar_outcome sc kwargs s :
  _minmax_helper (VNp sc) kwargs s =
    match x1 ← scalar_iop Sub (FloatS float32 (scalar_astype_float32 sc)) (NpS sc);
          x2 ← scalar_iop Div x1 (NpS (scalar_op Sub sc sc));
          scalar_iop Mul x2 (PyI (helper_bins kwargs - 1)) with
    | Some r => Ok (VNp r) s
    | None => Raise TypeError s
    end.
Proof.
  unfold _minmax_helper.
  rewrite (bind_ok _ _ s sc s) by reflexivity.
  rewrite (bind_ok _ _ s sc s) by reflexivity.
  rewrite (bind_ok _ _ s (VNp (FloatS float32 (scalar_astype_float32 sc))) s)
    by reflexivity.
  rewrite bind_unfold, inplace_scalar.
  destruct (scalar_iop Sub _ _) as [x1|]; [|done]. cbn [mbind option_bind].
  rewrite bind_unfold, inplace_scalar.
  destruct (scalar_iop Div _ _) as [x2|]; [|done]. cbn [mbind option_bind].
  rewrite bind_unfold, inplace_scalar. fold (helper_bins kwargs).
  by destruct (scalar_iop Mul _ _).
Qed.

Lemma SFsub_diag prec emax f :
  SFsub prec emax f f = S754_nan \/ exists sg, SFsub prec emax f f = S754_zero sg.
Proof.
  destruct f as [sg|sg| |sg m e].
  - right. destruct sg; eexists; reflexivity.
  - left. by destruct sg.
  - by left.
  - right. exists false. unfold SFsub. stdz. rewrite Z.sub_diag. reflexivity.
Qed.

Lemma SFdiv_zero_or_nan prec emax x y :
  (x = S754_nan \/ exists sg, x = S754_zero sg) ->
  (y = S754_nan \/ exists sg, y = S754_zero sg) ->
  SFdiv prec emax x y = S754_nan.
Proof.
  intros [->|[sx ->]] [->|[sy ->]]; reflexivity.
Qed.

Lemma scalar_mul_nan k z :
  nan_scalar (VNp (scalar_op Mul (FloatS k S754_nan) (IntS int64 z)))
  /\ nan_scalar (VNp (scalar_op Mul (FloatS k S754_nan) (IntS uint64 z))).
Proof. split; destruct k; eexists; reflexivity. Qed.

(** The helper on one element of a narrow 1-d array: 0 / 0. *)
Lemma helper_element kwargs s v b :
  narrow b -> v ∈ buffer_scalars b -> int_operand (helper_bins kwargs - 1) ->
  exists p, _minmax_helper v kwargs s = Ok p s /\ nan_scalar p.
Proof.
  intros Hb Hv Hbins.
  assert (Hsc : exists sc x1 d,
             v = VNp sc
             /\ scalar_op Sub (FloatS float32 (scalar_astype_float32 sc)) sc
                = FloatS float32 x1
             /\ (x1 = S754_nan \/ exists sg, x1 = S754_zero sg)
             /\ scalar_op Div (FloatS float32 x1) (scalar_op Sub sc sc)
                = FloatS float32 d
             /\ d = S754_nan).
  { destruct b as [k l|k l]; cbn [narrow buffer_scalars] in Hb, Hv.
    - destruct Hb as [Hk Hall].
      apply list_elem_of_fmap in Hv as (z & -> & Hz).
      rewrite Forall_forall in Hall. specialize (Hall z Hz).
      assert (Hz24 : Z.abs z < 2 ^ 24).
      { unfold in_range, imin, imax in Hall.
        destruct k; cbn [ibits isigned] in Hk, Hall; try lia;
          change (2 ^ 24) with 16777216; lia. }
      assert (Hr : promote_int float32 k = float32).
      { unfold promote_int. by rewrite (proj2 (Z.leb_le _ _) Hk). }
      exists (IntS k z), (S754_zero false), S754_nan.
      split; [done|]. cbn [scalar_op scalar_astype_float32]. rewrite Hr.
      cbn [fconv fop]. rewrite SFsub_F32, Z.sub_diag by (rewrite ?Z.sub_diag; lia).
      split; [done|]. split; [right; by exists false|].
      rewrite wrap_zero. by split.
    - subst k. apply list_elem_of_fmap in Hv as (f & -> & Hf).
      exists (FloatS float32 f), (SFsub 24 128 f f), S754_nan.
      split; [done|]. split; [done|]. split; [apply SFsub_diag|].
      split; [|done]. cbn [scalar_op promote_float fconv fop]. f_equal.
      apply SFdiv_zero_or_nan; apply SFsub_diag. }
  destruct Hsc as (sc & x1 & d & -> & Hx1 & _ & Hd & ->).
  rewrite helper_scalar_outcome. cbn [scalar_iop mbind option_bind].
  rewrite Hx1. cbn [mbind option_bind]. rewrite Hd. cbn [mbind option_bind].
  destruct (scalar_mul_nan float32 (helper_bins kwargs - 1)) as [H64 Hu64].
  unfold int_operand in Hbins.
  destruct ((- 2 ^ 63 <=? helper_bins kwargs - 1) && (helper_bins kwargs - 1 <=? 2 ^ 63 - 1))
    eqn:Hin; [by eexists|].
  replace ((2 ^ 63 <=? helper_bins kwargs - 1) && (helper_bins kwargs - 1 <=? 2 ^ 64 - 1))
    with true; [by eexists|].
  symmetry. apply andb_true_iff. apply andb_false_iff in Hin.
  split; apply Z.leb_le; destruct Hin as [Hin|Hin]; apply Z.leb_gt in Hin; lia.
Qed.

Lemma helper_elements kwargs s vs b :
  narrow b -> Forall (fun v => v ∈ buffer_scalars b) vs ->
  int_operand (helper_bins kwargs - 1) ->
  exists ps, mapM (fun p => _minmax_helper p kwargs) vs s = Ok ps s
             /\ length ps = length vs /\ Forall nan_scalar ps.
Proof.
  intros Hb Hvs Hbins. induction Hvs as [|v vs Hv _ (ps & Hps & Hlen & Hnan)]; simpl.
  - by exists [].
  - destruct (helper_element kwargs s v b Hb Hv Hbins) as (p & Hp & Hpn).
    exists (p :: ps). rewrite (bind_ok _ _ _ _ _ Hp), (bind_ok _ _ _ _ _ Hps).
    split; [done|]. split; [simpl; by rewrite Hlen | by constructor].
Qed.

Lemma buffer_scalars_length b : length (buffer_scalars b) = buffer_length b.
Proof. destruct b; simpl; by rewrite length_map. Qed.

(** X11: [minmax] handed a 1-d array directly (not a list of arrays) walks
    its elements: each one is a NumPy scalar, its own minimum and maximum,
    so the helper computes 0 / 0 on it.  For a float32 array and for an array
    of 8 or 16 bit integers the list returned holds one NaN scalar per
    element, and no array. *)
Theorem X11_minmax_1d_array s l n b timing kwargs :
  read_array s (VRef l) = Some ([n], b) ->
  narrow b -> int_operand (helper_bins kwargs - 1) ->
  exists lst ps s',
    minmax (VRef l) timing kwargs s = Ok (VRef lst, VNone) s'
    /\ heap s' !! lst = Some (OList ps)
    /\ length ps = buffer_length b
    /\ Forall nan_scalar ps.
Proof.
  intros Hread Hb Hbins.
  destruct (load_ndarray_array _ _ _ _ Hread) as (a & Ha & Hsh & Hc).
  destruct (read_array_header _ _ _ _ Hread) as (a' & _ & Hl & _).
  destruct (helper_elements kwargs s (buffer_scalars b) b Hb) as (ps & Hps & Hlen & Hnan);
    [by apply Forall_forall | done |].
  assert (Ha' : a' = a).
  { unfold load_ndarray in Ha. rewrite (bind_ok _ _ _ _ _ (load_some _ _ _ Hl)) in Ha.
    by injection Ha. }
  subst a'.
  assert (Hfor : for_each (VRef l) (fun p => _minmax_helper p kwargs) s = Ok ps s).
  { unfold for_each. rewrite (bind_ok _ _ _ _ _ (load_some _ _ _ Hl)), Hsh.
    by rewrite (bind_ok _ _ _ _ _ Hc). }
  unfold minmax.
  rewrite (bind_ok _ _ _ _ _ Hfor), bind_unfold, alloc_grow, bind_unfold, when_timing.
  rewrite ret_unfold.
  eexists _, ps, _. split; [reflexivity|]. split.
  - apply (extends_lookup (grow s [OList ps])); [apply extends_with_log|].
    apply lookup_grow_last.
  - split; [|done]. by rewrite Hlen, buffer_scalars_length.
Qed.

Lemma X11_minmax_1d_array_witness :
  exists lst ps s',
    minmax (VRef 1%nat) false ∅ (one_array [3%nat] (IntBuf uint8 [0; 10; 20]))
    = Ok (VRef lst, VNone) s'
    /\ heap s' !! lst = Some (OList ps)
    /\ length ps = 3%nat
    /\ Forall nan_scalar ps.
Proof.
  apply (X11_minmax_1d_array (one_array [3%nat] (IntBuf uint8 [0; 10; 20])) 1%nat 3%nat
           (IntBuf uint8 [0; 10; 20]) false ∅).
  - reflexivity.
  - split; [vm_compute; discriminate|].
    repeat constructor; vm_compute; discriminate.
  - vm_compute. split; discriminate.
Defined.

(** * The helper on 8 and 16 bit integers: algebra *)

Lemma helper_returns_normalize s l sh b kwargs ys :
  read_array s (VRef l) = Some (sh, b) ->
  normalize (helper_bins kwargs) b = Some ys ->
  helper_returns s (VRef l) kwargs sh ys.
Proof.
  intros Hread Hnorm.
  destruct (helper_array s l sh b kwargs ys Hread Hnorm) as [Hrun Hout].
  by eexists _, _.
Qed.

Lemma fold_max_shift c l x0 :
  fold_left Z.max (map (Z.add c) l) (c + x0) = c + fold_left Z.max l x0.
Proof.
  revert x0. induction l as [|y l IH]; intros x0; simpl; [done|].
  rewrite <- IH. f_equal. lia.
Qed.

Lemma fold_min_shift c l x0 :
  fold_left Z.min (map (Z.add c) l) (c + x0) = c + fold_left Z.min l x0.
Proof.
  revert x0. induction l as [|y l IH]; intros x0; simpl; [done|].
  rewrite <- IH. f_equal. lia.
Qed.

(** The range of a non-empty list of small integers. *)
Lemma small_range x0 l :
  Forall small (x0 :: l) ->
  small (fold_left Z.max l x0) /\ small (fold_left Z.min l x0)
  /\ Forall (fun z => fold_left Z.min l x0 <= z <= fold_left Z.max l x0) (x0 :: l).
Proof.
  intros Hall.
  destruct (fold_max_spec l x0) as [Hmax_in Hmax_all].
  destruct (fold_min_spec l x0) as [Hmin_in Hmin_all].
  rewrite Forall_forall in Hall.
  split; [by apply Hall|]. split; [by apply Hall|].
  rewrite Forall_forall in Hmax_all, Hmin_all. apply Forall_forall.
  intros z Hz. specialize (Hmax_all z Hz). specialize (Hmin_all z Hz). lia.
Qed.

Lemma rescale_shift c mn d b z :
  Z.abs z < 2 ^ 23 -> Z.abs mn < 2 ^ 23 -> Z.abs (c + z) < 2 ^ 23 -> Z.abs (c + mn) < 2 ^ 23 ->
  rescale (c + mn) d b (c + z) = rescale mn d b z.
Proof.
  intros Hz Hmn Hcz Hcmn. unfold rescale.
  change (2 ^ 23) with 8388608 in *.
  rewrite !SFsub_F32 by (change (2 ^ 24) with 16777216; lia).
  do 3 f_equal. lia.
Qed.

Lemma normalize_shift k k' c x0 l bins :
  let mx := fold_left Z.max l x0 in
  let mn := fold_left Z.min l x0 in
  Forall small (x0 :: l) -> Forall small (map (Z.add c) (x0 :: l)) ->
  mx - mn <= imax k -> mx - mn <= imax k' -> mx - mn <= 65535 -> 1 <= bins <= 65536 ->
  normalize bins (IntBuf k' (map (Z.add c) (x0 :: l))) = normalize bins (IntBuf k (x0 :: l)).
Proof.
  intros mx mn Hall Hall' Hk Hk' Hd Hbins.
  destruct (small_range x0 l Hall) as (Hmx & Hmn & Hbetween). fold mx mn in Hmx, Hmn, Hbetween.
  assert (Hle : mn <= mx).
  { inversion Hbetween; subst. lia. }
  pose proof (normalize_small k x0 l bins) as H1. cbv zeta in H1. fold mx mn in H1.
  rewrite H1 by (unfold small in *; auto; lia).
  change (map (Z.add c) (x0 :: l)) with (c + x0 :: map (Z.add c) l).
  pose proof (normalize_small k' (c + x0) (map (Z.add c) l) bins) as H2. cbv zeta in H2.
  rewrite fold_max_shift, fold_min_shift in H2. fold mx mn in H2.
  replace (c + mx - (c + mn)) with (mx - mn) in H2 by lia.
  rewrite H2 by (unfold small in *; auto; lia).
  f_equal. change (c + x0 :: map (Z.add c) l) with (map (Z.add c) (x0 :: l)).
  rewrite map_map. apply Forall_fmap_ext_1.
  rewrite Forall_forall in Hall, Hall'. apply Forall_forall. intros z Hz.
  assert (Hcz : small (c + z)).
  { apply Hall'. apply list_elem_of_fmap. by exists z. }
  assert (Hcmn : small (c + mn)).
  { apply Hall'. apply list_elem_of_fmap. exists mn. split; [done|].
    apply fold_min_spec. }
  specialize (Hall z Hz). unfold small in *.
  apply rescale_shift; change (2 ^ 23) with 8388608; lia.
Qed.

(** X12: the result depends on the differences between the elements and the
    minimum only.  Two arrays of 8 or 16 bit pixel values, of any integer
    dtypes that hold their range, whose elements differ by one constant
    [c] position by position, are normalized to the same float32 elements:
    a constant offset on every pixel, or another integer dtype for the same
    values ([c = 0]), changes nothing. *)
Theorem X12_offset_invariant s l l' sh sh' k k' c zs kwargs max_val min_val :
  read_array s (VRef l) = Some (sh, IntBuf k zs) ->
  read_array s (VRef l') = Some (sh', IntBuf k' (map (Z.add c) zs)) ->
  Forall small zs -> Forall small (map (Z.add c) zs) ->
  amax (IntBuf k zs) = Some (IntS k max_val) ->
  amin (IntBuf k zs) = Some (IntS k min_val) ->
  max_val - min_val <= imax k -> max_val - min_val <= imax k' ->
  max_val - min_val <= 65535 ->
  1 <= helper_bins kwargs <= 65536 ->
  exists ys,
    helper_returns s (VRef l) kwargs sh ys
    /\ helper_returns s (VRef l') kwargs sh' ys.
Proof.
  intros Hread Hread' Hall Hall' Hmax Hmin Hk Hk' Hd Hbins.
  destruct zs as [|x0 zs]; [discriminate|].
  cbn [amax amin] in Hmax, Hmin. injection Hmax as Hmax. injection Hmin as Hmin.
  pose proof (normalize_shift k k' c x0 zs (helper_bins kwargs)) as Hshift.
  cbv zeta in Hshift. rewrite Hmax, Hmin in Hshift.
  specialize (Hshift Hall Hall' Hk Hk' Hd Hbins).
  destruct (small_range x0 zs Hall) as (_ & _ & Hbetween).
  rewrite Hmax, Hmin in Hbetween.
  assert (Hle : min_val <= max_val) by (inversion Hbetween; subst; lia).
  pose proof (normalize_small k x0 zs (helper_bins kwargs)) as Hnorm.
  cbv zeta in Hnorm. rewrite Hmax, Hmin in Hnorm.
  specialize (Hnorm Hall ltac:(lia) Hd Hbins).
  eexists. split.
  - eapply helper_returns_normalize; [exact Hread | exact Hnorm].
  - eapply helper_returns_normalize; [exact Hread'|]. by rewrite Hshift.
Qed.

Lemma X12_offset_invariant_witness :
  exists ys,
    helper_returns
      (grow (one_array [3%nat] (IntBuf uint8 [10; 60; 200]))
         [OBuffer (IntBuf int16 [-1010; -960; -820]);
          ONdarray {| shape := [3%nat]; base := 2%nat; offset := 0 |}])
      (VRef 1%nat) ∅ [3%nat] ys
    /\ helper_returns
         (grow (one_array [3%nat] (IntBuf uint8 [10; 60; 200]))
            [OBuffer (IntBuf int16 [-1010; -960; -820]);
             ONdarray {| shape := [3%nat]; base := 2%nat; offset := 0 |}])
         (VRef 3%nat) ∅ [3%nat] ys.
Proof.
  apply (X12_offset_invariant _ 1%nat 3%nat [3%nat] [3%nat] uint8 int16 (-1020)
           [10; 60; 200] ∅ 200 10).
  - reflexivity.
  - reflexivity.
  - repeat constructor; unfold small; lia.
  - repeat constructor; unfold small; lia.
  - reflexivity.
  - reflexivity.
  - vm_compute. discriminate.
  - vm_compute. discriminate.
  - lia.
  - vm_compute. split; discriminate.
Defined.

(** ** [bins = 1] *)

Lemma rescale_zero_bins mn mx z :
  Z.abs mn < 2 ^ 24 -> Z.abs mx < 2 ^ 24 -> 0 < mx - mn < 2 ^ 24 -> mn <= z <= mx ->
  rescale mn (mx - mn) 0 z = S754_zero false.
Proof.
  intros Hmn Hmx Hd Hz. unfold rescale.
  rewrite SFsub_F32 by lia.
  destruct (mx - mn) as [|d|d] eqn:Ed; try lia.
  assert (Dd : digits d <= 24) by (apply digits_le_24; lia).
  destruct (z - mn) as [|a|a] eqn:Ea; try lia.
  - by rewrite F32_zero, (F32_pos d).
  - destruct (SFdiv_F32 a d) as [(M & E & -> & _) _]; [lia|lia|]. reflexivity.
Qed.

(** X13: [bins = 1] is accepted: the last step multiplies by [bins - 1 = 0],
    and an array of 8 or 16 bit pixel values that is not constant is
    normalized to zeros (all [+0.0]), whatever its elements. *)
Theorem X13_one_bin s l sh k zs kwargs max_val min_val :
  read_array s (VRef l) = Some (sh, IntBuf k zs) ->
  Forall small zs ->
  amax (IntBuf k zs) = Some (IntS k max_val) ->
  amin (IntBuf k zs) = Some (IntS k min_val) ->
  min_val <> max_val ->
  max_val - min_val <= imax k -> max_val - min_val <= 65535 ->
  helper_bins kwargs = 1 ->
  helper_returns s (VRef l) kwargs sh (replicate (length zs) (S754_zero false)).
Proof.
  intros Hread Hall Hmax Hmin Hne Hk Hd Hbins.
  destruct zs as [|x0 zs]; [discriminate|].
  cbn [amax amin] in Hmax, Hmin. injection Hmax as Hmax. injection Hmin as Hmin.
  destruct (small_range x0 zs Hall) as (Hmx & Hmn & Hbetween).
  rewrite Hmax in Hmx, Hbetween. rewrite Hmin in Hmn, Hbetween.
  unfold small in Hmx, Hmn.
  assert (Hle : min_val <= max_val) by (inversion Hbetween; subst; lia).
  pose proof (normalize_small k x0 zs (helper_bins kwargs)) as Hnorm.
  cbv zeta in Hnorm. rewrite Hmax, Hmin in Hnorm.
  specialize (Hnorm Hall ltac:(lia) Hd ltac:(lia)).
  eapply helper_returns_normalize; [exact Hread|]. rewrite Hnorm, Hbins.
  f_equal. change (1 - 1) with 0.
  clear Hread Hall Hnorm.
  induction Hbetween as [|z zs' Hz _ IH]; [done|]. cbn [map length replicate].
  rewrite IH. f_equal.
  apply rescale_zero_bins; change (2 ^ 24) with 16777216; lia.
Qed.

Lemma X13_one_bin_witness :
  helper_returns (one_array [3%nat] (IntBuf uint8 [10; 60; 200])) (VRef 1%nat)
    (<["bins"%string := 1]> ∅) [3%nat] [S754_zero false; S754_zero false; S754_zero false].
Proof.
  apply (X13_one_bin (one_array [3%nat] (IntBuf uint8 [10; 60; 200])) 1%nat [3%nat] uint8
           [10; 60; 200] (<["bins"%string := 1]> ∅) 200 10).
  - reflexivity.
  - repeat constructor; unfold small; lia.
  - reflexivity.
  - reflexivity.
  - lia.
  - vm_compute. discriminate.
  - lia.
  - reflexivity.
Defined.

(** * binary32 arithmetic on small integers, by value

    The quotient and the product of the helper, each within one unit in the
    last place of the exact result.  The value of a float [(M, E)] is the
    integer [M * 2 ^ (E + 149)] once scaled by [2 ^ 149]. *)

Lemma rounded_value mx ex n M E :
  rounded 24 mx ex n M E -> 0 <= ex + n + 149 ->
  Zpos M * 2 ^ (E + 149) = (Zpos mx / 2 ^ n) * 2 ^ (ex + n + 149)
  \/ Zpos M * 2 ^ (E + 149) = (Zpos mx / 2 ^ n + 1) * 2 ^ (ex + n + 149).
Proof.
  intros [[-> ->]|[[-> ->]|(HM & -> & Hc)]] HK; auto.
  right. rewrite HM, Hc.
  replace (ex + n + 1 + 149) with (1 + (ex + n + 149)) by lia.
  rewrite Z.pow_add_r by lia. change (2 ^ (24 - 1)) with 8388608.
  change (2 ^ 24) with 16777216. change (2 ^ 1) with 2. lia.
Qed.

(** A value [V] that is [m * X] or [(m + 1) * X], next to an exact [T / c]
    between the two. *)
Lemma sandwich m X c T V :
  2 ^ 23 <= m -> 0 < X -> 0 < c ->
  m * X * c <= T < (m + 1) * X * c ->
  V = m * X \/ V = (m + 1) * X ->
  V * c * 2 ^ 23 <= (2 ^ 23 + 1) * T /\ 2 ^ 23 * T < V * c * (2 ^ 23 + 1).
Proof.
  change (2 ^ 23) with 8388608. intros Hm HX Hc [Hlo Hhi] HV.
  assert (HY : 0 < X * c) by lia.
  replace (m * X * c) with (m * (X * c)) in Hlo by lia.
  replace ((m + 1) * X * c) with ((m + 1) * (X * c)) in Hhi by lia.
  assert (Hstep : 8388608 * ((m + 1) * (X * c)) <= 8388609 * (m * (X * c))) by nia.
  destruct HV as [-> | ->].
  - replace (m * X * c) with (m * (X * c)) by lia. nia.
  - replace ((m + 1) * X * c) with ((m + 1) * (X * c)) by lia. nia.
Qed.

Lemma floor_shift q n :
  0 <= q -> 0 <= n -> q / 2 ^ n * 2 ^ n <= q < (q / 2 ^ n + 1) * 2 ^ n.
Proof.
  intros Hq Hn. assert (P : 0 < 2 ^ n) by (apply Z.pow_pos_nonneg; lia).
  pose proof (Z.div_mod q (2 ^ n) ltac:(lia)) as Hdm.
  pose proof (Z.mod_pos_bound q (2 ^ n) P). lia.
Qed.

Lemma normal_bounds M : digits M = 24 -> 8388608 <= Zpos M < 16777216.
Proof.
  intros H. pose proof (digits_bounds M) as [Lo Hi]. rewrite H in Lo, Hi.
  change (2 ^ (24 - 1)) with 8388608 in Lo. change (2 ^ 24) with 16777216 in Hi. lia.
Qed.

(** The quotient of two integers of at most 24 bits. *)
Lemma SFdiv_value sa sd a d :
  Zpos a < 2 ^ 24 -> Zpos d < 2 ^ 24 ->
  exists M E,
    SFdiv 24 128 (S754_finite sa (norm a) (digits a - 24))
                 (S754_finite sd (norm d) (digits d - 24))
    = S754_finite (xorb sa sd) M E
    /\ digits M = 24 /\ -47 <= E <= 1
    /\ Zpos M * 2 ^ (E + 149) * Zpos d * 2 ^ 23 <= (2 ^ 23 + 1) * (Zpos a * 2 ^ 149)
    /\ 2 ^ 23 * (Zpos a * 2 ^ 149) < Zpos M * 2 ^ (E + 149) * Zpos d * (2 ^ 23 + 1).
Proof.
  intros Ha Hd.
  assert (Da : digits a <= 24) by (apply digits_le_24; lia).
  assert (Dd : digits d <= 24) by (apply digits_le_24; lia).
  pose proof (digits_pos a). pose proof (digits_pos d).
  pose proof (norm_digits a Da) as Na. pose proof (norm_digits d Dd) as Nd.
  pose proof (normal_bounds _ Na) as BA. pose proof (normal_bounds _ Nd) as BD.
  unfold SFdiv. rewrite div_core_normal by (try done; lia).
  change (2 ^ 24) with 16777216.
  set (q := Z.pos (norm a) * 16777216 / Z.pos (norm d)).
  set (r := (Z.pos (norm a) * 16777216) mod Z.pos (norm d)).
  set (e' := digits a - 24 - (digits d - 24) - 24).
  assert (Hqr : Z.pos (norm a) * 16777216 = Z.pos (norm d) * q + r
                /\ 0 <= r < Z.pos (norm d)).
  { split; [apply Z.div_mod; lia | apply Z.mod_pos_bound; lia]. }
  assert (Hq : 8388608 <= q < 33554432).
  { unfold q. split.
    - apply Z.div_le_lower_bound; lia.
    - apply Z.div_lt_upper_bound; lia. }
  destruct q as [|pq|pq] eqn:Eq; try lia.
  assert (Dq : digits pq = 24 \/ digits pq = 25).
  { destruct (Z.lt_ge_cases (Z.pos pq) 16777216).
    - left. apply digits_unique. change (2 ^ (24 - 1)) with 8388608.
      change (2 ^ 24) with 16777216. lia.
    - right. apply digits_unique. change (2 ^ (25 - 1)) with 16777216.
      change (2 ^ 25) with 33554432. lia. }
  assert (He' : -47 <= e' <= -1) by (unfold e'; lia).
  pose proof (binary_round_aux_normal 24 128 ltac:(lia) (xorb sa sd) pq e'
                (new_location (Z.pos (norm d)) r)) as R.
  cbv zeta in R. rewrite emin32 in R.
  destruct R as (M & E & HR & DM & Hround & _); try lia.
  set (n := digits pq - 24) in *.
  assert (Hn : 0 <= n <= 1) by (unfold n; lia).
  exists M, E. split; [exact HR|]. split; [exact DM|].
  assert (HE : -47 <= E <= 1).
  { destruct Hround as [[_ ->]|[[_ ->]|(_ & -> & _)]]; lia. }
  split; [exact HE|].
  pose proof (rounded_value _ _ _ _ _ Hround ltac:(lia)) as HV.
  pose proof (floor_shift (Z.pos pq) n ltac:(lia) ltac:(lia)) as Hfl.
  set (m' := Z.pos pq / 2 ^ n) in *.
  assert (P2n : 0 < 2 ^ n) by (apply Z.pow_pos_nonneg; lia).
  assert (Hm' : 2 ^ 23 <= m').
  { change (2 ^ 23) with 8388608. unfold m'.
    apply Z.div_le_lower_bound; [lia|].
    pose proof (digits_bounds pq) as [Plo _]. fold n in Plo.
    replace (digits pq - 1) with (23 + n) in Plo by (unfold n; lia).
    rewrite Z.pow_add_r in Plo by lia. change (2 ^ 23) with 8388608 in Plo. lia. }
  (* the exact quotient lies between the two candidates *)
  set (A := 2 ^ (24 - digits a)). set (D := 2 ^ (24 - digits d)).
  set (G := 2 ^ (digits a + 101)).
  assert (PA : 0 < A) by (apply Z.pow_pos_nonneg; lia).
  assert (PD : 0 < D) by (apply Z.pow_pos_nonneg; lia).
  assert (PG : 0 < G) by (apply Z.pow_pos_nonneg; lia).
  assert (HNa : Z.pos (norm a) = Z.pos a * A) by (by apply norm_spec).
  assert (HNd : Z.pos (norm d) = Z.pos d * D) by (by apply norm_spec).
  assert (HX : 2 ^ (e' + n + 149) = 2 ^ n * D * G).
  { unfold D, G. rewrite <- !Z.pow_add_r by lia. f_equal. unfold e'. lia. }
  assert (H149 : 2 ^ 149 = A * 16777216 * G).
  { unfold A, G. change 16777216 with (2 ^ 24). rewrite <- !Z.pow_add_r by lia.
    f_equal. lia. }
  assert (Hbetween : m' * 2 ^ (e' + n + 149) * Z.pos d <= Z.pos a * 2 ^ 149
                     < (m' + 1) * 2 ^ (e' + n + 149) * Z.pos d).
  { rewrite HX, H149. rewrite HNa, HNd in Hqr.
    assert (H1 : m' * 2 ^ n * (Z.pos d * D) <= Z.pos a * A * 16777216) by nia.
    assert (H2 : Z.pos a * A * 16777216 < (m' + 1) * 2 ^ n * (Z.pos d * D)) by nia.
    split.
    - replace (m' * (2 ^ n * D * G) * Z.pos d) with (m' * 2 ^ n * (Z.pos d * D) * G) by lia.
      replace (Z.pos a * (A * 16777216 * G)) with (Z.pos a * A * 16777216 * G) by lia.
      apply Z.mul_le_mono_nonneg_r; lia.
    - replace ((m' + 1) * (2 ^ n * D * G) * Z.pos d)
        with ((m' + 1) * 2 ^ n * (Z.pos d * D) * G) by lia.
      replace (Z.pos a * (A * 16777216 * G)) with (Z.pos a * A * 16777216 * G) by lia.
      apply Z.mul_lt_mono_pos_r; lia. }
  apply (sandwich m' (2 ^ (e' + n + 149))); try done.
  apply Z.pow_pos_nonneg; lia.
Qed.

(** The product of a normal float by an integer of at most 24 bits. *)
Lemma SFmul_value sq Mq Eq b :
  digits Mq = 24 -> -47 <= Eq <= 1 -> Zpos b < 2 ^ 24 ->
  exists M E,
    SFmul 24 128 (S754_finite sq Mq Eq) (S754_finite false (norm b) (digits b - 24))
    = S754_finite sq M E
    /\ digits M = 24 /\ -70 <= E <= 26
    /\ Zpos M * 2 ^ (E + 149) * 2 ^ 23
       <= (2 ^ 23 + 1) * (Zpos Mq * 2 ^ (Eq + 149) * Zpos b)
    /\ 2 ^ 23 * (Zpos Mq * 2 ^ (Eq + 149) * Zpos b)
       < Zpos M * 2 ^ (E + 149) * (2 ^ 23 + 1).
Proof.
  intros DMq HEq Hb.
  assert (Db : digits b <= 24) by (apply digits_le_24; lia).
  pose proof (digits_pos b).
  pose proof (norm_digits b Db) as Nb.
  pose proof (normal_bounds _ DMq) as BQ. pose proof (normal_bounds _ Nb) as BB.
  unfold SFmul. stdz. rewrite xorb_false_r.
  set (P := (Mq * norm b)%positive).
  assert (HP : Zpos P = Zpos Mq * Zpos (norm b)) by apply Pos2Z.inj_mul.
  assert (HPb : 70368744177664 <= Zpos P < 281474976710656) by nia.
  assert (DP : digits P = 47 \/ digits P = 48).
  { destruct (Z.lt_ge_cases (Z.pos P) 140737488355328).
    - left. apply digits_unique. change (2 ^ (47 - 1)) with 70368744177664.
      change (2 ^ 47) with 140737488355328. lia.
    - right. apply digits_unique. change (2 ^ (48 - 1)) with 140737488355328.
      change (2 ^ 48) with 281474976710656. lia. }
  set (ep := Eq + (digits b - 24)).
  pose proof (binary_round_aux_normal 24 128 ltac:(lia) sq P ep loc_Exact) as R.
  cbv zeta in R. rewrite emin32 in R.
  destruct R as (M & E & HR & DM & Hround & _); try (unfold ep; lia).
  set (n := digits P - 24) in *.
  assert (Hn : 23 <= n <= 24) by (unfold n; lia).
  exists M, E. split; [exact HR|]. split; [exact DM|].
  assert (HE : -70 <= E <= 26).
  { destruct Hround as [[_ ->]|[[_ ->]|(_ & -> & _)]]; unfold ep; lia. }
  split; [exact HE|].
  pose proof (rounded_value _ _ _ _ _ Hround ltac:(unfold ep; lia)) as HV.
  pose proof (floor_shift (Z.pos P) n ltac:(lia) ltac:(lia)) as Hfl.
  set (m' := Z.pos P / 2 ^ n) in *.
  assert (P2n : 0 < 2 ^ n) by (apply Z.pow_pos_nonneg; lia).
  assert (Hm' : 2 ^ 23 <= m').
  { change (2 ^ 23) with 8388608. unfold m'.
    apply Z.div_le_lower_bound; [lia|].
    pose proof (digits_bounds P) as [Plo _]. fold n in Plo.
    replace (digits P - 1) with (23 + n) in Plo by (unfold n; lia).
    rewrite Z.pow_add_r in Plo by lia. change (2 ^ 23) with 8388608 in Plo. lia. }
  set (B := 2 ^ (24 - digits b)).
  set (G := 2 ^ (ep + 149)).
  assert (PB : 0 < B) by (apply Z.pow_pos_nonneg; lia).
  assert (PG : 0 < G) by (apply Z.pow_pos_nonneg; unfold ep; lia).
  assert (HNb : Z.pos (norm b) = Z.pos b * B) by (by apply norm_spec).
  assert (HX : 2 ^ (ep + n + 149) = 2 ^ n * G).
  { unfold G. rewrite <- Z.pow_add_r by (unfold ep; lia). f_equal. lia. }
  assert (HQ : 2 ^ (Eq + 149) = B * G).
  { unfold B, G. rewrite <- Z.pow_add_r by (unfold ep; lia). f_equal. unfold ep. lia. }
  assert (Hbetween : m' * 2 ^ (ep + n + 149) * 1 <= Zpos Mq * 2 ^ (Eq + 149) * Zpos b
                     < (m' + 1) * 2 ^ (ep + n + 149) * 1).
  { rewrite HX, HQ. rewrite HP, HNb in Hfl.
    replace (Z.pos Mq * (B * G) * Z.pos b) with (Z.pos Mq * (Z.pos b * B) * G) by lia.
    split.
    - replace (m' * (2 ^ n * G) * 1) with (m' * 2 ^ n * G) by lia.
      apply Z.mul_le_mono_nonneg_r; lia.
    - replace ((m' + 1) * (2 ^ n * G) * 1) with ((m' + 1) * 2 ^ n * G) by lia.
      apply Z.mul_lt_mono_pos_r; lia. }
  destruct (sandwich m' (2 ^ (ep + n + 149)) 1 _ _ Hm' ltac:(lia) ltac:(lia) Hbetween HV)
    as [S1 S2].
  split; lia.
Qed.

Lemma F32_signed sd d :
  Zpos d < 2 ^ 24 ->
  F32 (cond_Zopp sd (Zpos d)) = S754_finite sd (norm d) (digits d - 24).
Proof.
  intros Hd. destruct sd; cbn [cond_Zopp Z.opp].
  - apply F32_neg. by apply digits_le_24.
  - apply F32_pos. by apply digits_le_24.
Qed.

(** One element above the minimum: the quotient by the range [d] (of either
    sign), then the product by [b], within two roundings of [a * b / d]. *)
Lemma rescale_value sd mn d b z a :
  Z.abs mn < 2 ^ 24 -> Z.abs z < 2 ^ 24 -> z - mn = Zpos a -> Zpos a < 2 ^ 24 ->
  Zpos d < 2 ^ 24 -> Zpos b < 2 ^ 24 ->
  exists M E,
    rescale mn (cond_Zopp sd (Zpos d)) (Zpos b) z = S754_finite sd M E
    /\ digits M = 24 /\ -70 <= E <= 26
    /\ Zpos M * 2 ^ (E + 149) * Zpos d * 2 ^ 46
       <= (2 ^ 23 + 1) ^ 2 * (Zpos a * Zpos b * 2 ^ 149)
    /\ 2 ^ 46 * (Zpos a * Zpos b * 2 ^ 149)
       < Zpos M * 2 ^ (E + 149) * Zpos d * (2 ^ 23 + 1) ^ 2.
Proof.
  intros Hmn Hz Ha Ha24 Hd Hb. unfold rescale.
  rewrite SFsub_F32 by lia. rewrite Ha, F32_signed by done.
  rewrite (F32_pos a), (F32_pos b) by (apply digits_le_24; lia).
  destruct (SFdiv_value false sd a d Ha24 Hd) as (Mq & Eq & -> & DMq & HEq & Q1 & Q2).
  cbn [xorb].
  destruct (SFmul_value sd Mq Eq b DMq HEq Hb) as (M & E & -> & DM & HE & R1 & R2).
  exists M, E. split; [done|]. split; [done|]. split; [done|].
  set (Vq := Zpos Mq * 2 ^ (Eq + 149)) in *.
  set (V := Zpos M * 2 ^ (E + 149)) in *.
  set (W := 2 ^ 149) in *.
  assert (PW : 0 < W) by (unfold W; apply Z.pow_pos_nonneg; lia).
  assert (PVq : 0 < Vq).
  { unfold Vq. apply Z.mul_pos_pos; [lia|]. apply Z.pow_pos_nonneg; lia. }
  assert (PV : 0 < V).
  { unfold V. apply Z.mul_pos_pos; [lia|]. apply Z.pow_pos_nonneg; lia. }
  change (2 ^ 46) with (2 ^ 23 * 2 ^ 23). change ((2 ^ 23 + 1) ^ 2) with ((2 ^ 23 + 1) * (2 ^ 23 + 1)).
  change (2 ^ 23) with 8388608 in *.
  split.
  - assert (S1 : V * 8388608 * (Z.pos d * 8388608)
                 <= 8388609 * (Vq * Z.pos b) * (Z.pos d * 8388608)).
    { apply Z.mul_le_mono_nonneg_r; lia. }
    assert (S2 : Vq * Z.pos d * 8388608 * (8388609 * Z.pos b)
                 <= 8388609 * (Z.pos a * W) * (8388609 * Z.pos b)).
    { apply Z.mul_le_mono_nonneg_r; lia. }
    lia.
  - assert (S1 : 8388608 * (Vq * Z.pos b) * (Z.pos d * 8388609)
                 < V * 8388609 * (Z.pos d * 8388609)).
    { apply Z.mul_lt_mono_pos_r; lia. }
    assert (S2 : 8388608 * (Z.pos a * W) * (8388608 * Z.pos b)
                 < Vq * Z.pos d * 8388609 * (8388608 * Z.pos b)).
    { apply Z.mul_lt_mono_pos_r; lia. }
    lia.
Qed.

(** The element at the minimum. *)
Lemma rescale_min sd mn d b :
  Z.abs mn < 2 ^ 24 -> Zpos d < 2 ^ 24 -> Zpos b < 2 ^ 24 ->
  rescale mn (cond_Zopp sd (Zpos d)) (Zpos b) mn = S754_zero sd.
Proof.
  intros Hmn Hd Hb. unfold rescale.
  rewrite SFsub_F32 by (rewrite ?Z.sub_diag; lia).
  rewrite Z.sub_diag, F32_zero, F32_signed by done.
  rewrite (F32_pos b) by (apply digits_le_24; lia).
  by destruct sd.
Qed.

(** The order of two positive normal floats is the order of their values. *)
Lemma normal_order M E M' E' :
  digits M = 24 -> digits M' = 24 -> -149 <= E -> -149 <= E' ->
  Zpos M * 2 ^ (E + 149) < Zpos M' * 2 ^ (E' + 149) ->
  SFltb (S754_finite false M E) (S754_finite false M' E') = true.
Proof.
  intros DM DM' HE HE' Hlt.
  pose proof (normal_bounds _ DM) as BM. pose proof (normal_bounds _ DM') as BM'.
  unfold SFltb. rewrite SFcompare_pos.
  destruct (Z.compare_spec E E') as [Heq|Hl|Hg]; [|done|].
  - subst E'.
    assert (P : 0 < 2 ^ (E + 149)) by (apply Z.pow_pos_nonneg; lia).
    assert (Zpos M < Zpos M') by nia.
    by rewrite (proj2 (Pos.compare_lt_iff M M')).
  - exfalso.
    replace (E + 149) with (E - E' + (E' + 149)) in Hlt by lia.
    rewrite Z.pow_add_r in Hlt by lia.
    assert (P : 0 < 2 ^ (E' + 149)) by (apply Z.pow_pos_nonneg; lia).
    assert (HU : 2 ^ 1 <= 2 ^ (E - E')) by (apply Z.pow_le_mono_r; lia).
    change (2 ^ 1) with 2 in HU.
    set (U := 2 ^ (E - E')) in *. set (X := 2 ^ (E' + 149)) in *.
    assert (H1 : 16777216 * X <= Z.pos M * U * X)
      by (apply Z.mul_le_mono_nonneg_r; nia).
    assert (H2 : Z.pos M' * X < 16777216 * X) by (apply Z.mul_lt_mono_pos_r; lia).
    lia.
Qed.

(** * The helper on 8 and 16 bit integers: order, accuracy, overflow *)

(** ** Order *)

Lemma rescale_increasing mn d b z1 z2 :
  small mn -> mn <= z1 -> z1 < z2 -> z2 - mn <= 65535 ->
  Zpos d < 2 ^ 24 -> Zpos b < 2 ^ 24 ->
  SFltb (rescale mn (Zpos d) (Zpos b) z1) (rescale mn (Zpos d) (Zpos b) z2) = true.
Proof.
  unfold small. change (2 ^ 24) with 16777216. intros Hmn H1 H12 H2 Hd Hb.
  destruct (z2 - mn) as [|a2|a2] eqn:Ea2; try lia.
  destruct (rescale_value false mn d b z2 a2) as (M2 & E2 & R2 & DM2 & HE2 & _ & L2);
    try (change (2 ^ 24) with 16777216; lia).
  cbn [cond_Zopp] in R2. rewrite R2.
  destruct (Z.eq_dec z1 mn) as [->|Hne].
  - pose proof (rescale_min false mn d b) as R1. cbn [cond_Zopp] in R1.
    rewrite R1 by (change (2 ^ 24) with 16777216; lia). reflexivity.
  - destruct (z1 - mn) as [|a1|a1] eqn:Ea1; try lia.
    destruct (rescale_value false mn d b z1 a1) as (M1 & E1 & R1 & DM1 & HE1 & U1 & _);
      try (change (2 ^ 24) with 16777216; lia).
    cbn [cond_Zopp] in R1. rewrite R1.
    apply normal_order; try done; try lia.
    set (V1 := Zpos M1 * 2 ^ (E1 + 149)) in *.
    set (V2 := Zpos M2 * 2 ^ (E2 + 149)) in *.
    set (T := Z.pos b * 2 ^ 149).
    assert (PT : 0 < T).
    { unfold T. apply Z.mul_pos_pos; [lia|]. apply Z.pow_pos_nonneg; lia. }
    replace (Z.pos a1 * Z.pos b * 2 ^ 149) with (Z.pos a1 * T) in U1 by (unfold T; lia).
    replace (Z.pos a2 * Z.pos b * 2 ^ 149) with (Z.pos a2 * T) in L2 by (unfold T; lia).
    change (2 ^ 46) with 70368744177664 in *.
    change ((2 ^ 23 + 1) ^ 2) with 70368760954881 in *.
    destruct (Z.lt_ge_cases V1 V2) as [|Hge]; [done|]. exfalso.
    assert (HY : V2 * Z.pos d <= V1 * Z.pos d) by (apply Z.mul_le_mono_nonneg_r; lia).
    set (Y1 := V1 * Z.pos d) in *. set (Y2 := V2 * Z.pos d) in *.
    assert (S1 : 70368744177664 * (Z.pos a2 * T) * 70368744177664
                 < 70368760954881 * (Z.pos a1 * T) * 70368760954881) by lia.
    assert (S2 : (70368744177664 * 70368744177664 * Z.pos a2) * T
                 < (70368760954881 * 70368760954881 * Z.pos a1) * T) by lia.
    apply Z.mul_lt_mono_pos_r in S2; lia.
Qed.

(** The elements the helper computes from 8 and 16 bit integers, whether the
    range [max - min] fits the dtype or wraps in it. *)
Lemma normalize_wrap k x0 l bins :
  let mx := fold_left Z.max l x0 in
  let mn := fold_left Z.min l x0 in
  Forall small (x0 :: l) -> small (wrap k (mx - mn)) -> 1 <= bins <= 65536 ->
  normalize bins (IntBuf k (x0 :: l))
  = Some (map (rescale mn (wrap k (mx - mn)) (bins - 1)) (x0 :: l)).
Proof.
  intros mx mn Hall Hd Hbins.
  destruct (small_range x0 l Hall) as (_ & Hmn & _). fold mn in Hmn.
  unfold small in *.
  unfold normalize. cbn [amax amin]. fold mx mn.
  unfold array_op. cbn [array_loop operand_float scalar_op].
  rewrite !int_value_loop_small by lia. cbn [mbind option_bind].
  f_equal. cbn [astype_float32]. rewrite !map_map.
  apply map_ext. intros z. apply rescale_elem.
Qed.

Lemma lookup_map_rescale (g : Z -> spec_float) zs i z y :
  zs !! i = Some z -> map g zs !! i = Some y -> y = g z.
Proof.
  intros Hz Hy. change (map g zs) with (g <$> zs) in Hy.
  rewrite list_lookup_fmap, Hz in Hy. by injection Hy.
Qed.

(** X15: the normalization keeps the order of the pixel values, strictly.
    On an array of 8 or 16 bit pixel values with [min != max] and
    [1 < bins <= 65536], a smaller element is normalized to a smaller float
    ([<] of float32): the roundings of the quotient and of the product never
    merge two different pixel values, nor swap them. *)
Theorem X15_order_preserved s l sh k zs kwargs max_val min_val :
  read_array s (VRef l) = Some (sh, IntBuf k zs) ->
  Forall small zs ->
  amax (IntBuf k zs) = Some (IntS k max_val) ->
  amin (IntBuf k zs) = Some (IntS k min_val) ->
  min_val <> max_val ->
  max_val - min_val <= imax k -> max_val - min_val <= 65535 ->
  1 < helper_bins kwargs <= 65536 ->
  exists ys,
    helper_returns s (VRef l) kwargs sh ys
    /\ forall i j zi zj yi yj,
         zs !! i = Some zi -> zs !! j = Some zj ->
         ys !! i = Some yi -> ys !! j = Some yj ->
         zi < zj -> SFltb yi yj = true.
Proof.
  intros Hread Hall Hmax Hmin Hne Hk Hd Hbins.
  destruct zs as [|x0 zs]; [discriminate|].
  cbn [amax amin] in Hmax, Hmin. injection Hmax as Hmax. injection Hmin as Hmin.
  destruct (small_range x0 zs Hall) as (Hmx & Hmn & Hbetween).
  rewrite Hmax in Hmx, Hbetween. rewrite Hmin in Hmn, Hbetween.
  assert (Hle : min_val <= max_val) by (inversion Hbetween; subst; lia).
  pose proof (normalize_small k x0 zs (helper_bins kwargs)) as Hnorm.
  cbv zeta in Hnorm. rewrite Hmax, Hmin in Hnorm.
  specialize (Hnorm Hall ltac:(lia) Hd ltac:(lia)).
  eexists. split; [eapply helper_returns_normalize; [exact Hread | exact Hnorm]|].
  intros i j zi zj yi yj Hzi Hzj Hyi Hyj Hlt.
  rewrite (lookup_map_rescale _ _ _ _ _ Hzi Hyi), (lookup_map_rescale _ _ _ _ _ Hzj Hyj).
  rewrite Forall_forall in Hbetween.
  pose proof (Hbetween zi (list_elem_of_lookup_2 _ _ _ Hzi)) as Bi.
  pose proof (Hbetween zj (list_elem_of_lookup_2 _ _ _ Hzj)) as Bj.
  destruct (max_val - min_val) as [|d|d] eqn:Ed; try lia.
  destruct (helper_bins kwargs - 1) as [|b|b] eqn:Eb; try lia.
  apply rescale_increasing; try done; try lia; change (2 ^ 24) with 16777216; lia.
Qed.

Lemma X15_order_preserved_witness :
  exists ys,
    helper_returns (one_array [2%nat; 2%nat] (IntBuf uint16 [100; 4000; 65535; 7])) (VRef 1%nat)
      (<["bins"%string := 1024]> ∅) [2%nat; 2%nat] ys
    /\ forall i j zi zj yi yj,
         [100; 4000; 65535; 7] !! i = Some zi -> [100; 4000; 65535; 7] !! j = Some zj ->
         ys !! i = Some yi -> ys !! j = Some yj ->
         zi < zj -> SFltb yi yj = true.
Proof.
  apply (X15_order_preserved
           (one_array [2%nat; 2%nat] (IntBuf uint16 [100; 4000; 65535; 7])) 1%nat
           [2%nat; 2%nat] uint16 [100; 4000; 65535; 7] (<["bins"%string := 1024]> ∅)
           65535 7).
  - reflexivity.
  - repeat constructor; unfold small; lia.
  - reflexivity.
  - reflexivity.
  - lia.
  - vm_compute. discriminate.
  - lia.
  - vm_compute. split; [reflexivity | discriminate].
Defined.

(** ** Accuracy *)

Lemma rescale_approximates mn mx b z :
  small mn -> small mx -> 0 < mx - mn <= 65535 -> 0 <= b <= 65535 -> mn <= z <= mx ->
  approximates (rescale mn (mx - mn) b z) ((z - mn) * b) (mx - mn).
Proof.
  unfold small. intros Hmn Hmx Hd Hb Hz.
  destruct (Z.eq_dec b 0) as [->|Hb0].
  { rewrite rescale_zero_bins by (change (2 ^ 24) with 16777216; lia).
    unfold approximates. cbn [is_finite scaled]. rewrite Z.mul_0_r. lia. }
  destruct b as [|b|b]; try lia.
  destruct (mx - mn) as [|d|d] eqn:Ed; try lia.
  destruct (Z.eq_dec z mn) as [->|Hne].
  { pose proof (rescale_min false mn d b) as R. cbn [cond_Zopp] in R.
    rewrite R by (change (2 ^ 24) with 16777216; lia).
    unfold approximates. cbn [is_finite scaled]. rewrite Z.sub_diag. lia. }
  destruct (z - mn) as [|a|a] eqn:Ea; try lia.
  destruct (rescale_value false mn d b z a) as (M & E & R & DM & HE & U & L);
    try (change (2 ^ 24) with 16777216; lia).
  cbn [cond_Zopp] in R. rewrite R.
  unfold approximates. cbn [is_finite scaled cond_Zopp].
  split; [done|]. split; [lia | exact U].
Qed.

(** X16: every element of the result is the exact quotient
    [(z - min) * (bins - 1) / (max - min)] up to the two roundings of the
    float32 division and multiplication: on an array of 8 or 16 bit pixel
    values with [min != max] and [1 <= bins <= 65536] each result lies
    within a factor [(1 + 2^-23)^2] of the exact value, and is finite. *)
Theorem X16_accuracy s l sh k zs kwargs max_val min_val :
  read_array s (VRef l) = Some (sh, IntBuf k zs) ->
  Forall small zs ->
  amax (IntBuf k zs) = Some (IntS k max_val) ->
  amin (IntBuf k zs) = Some (IntS k min_val) ->
  min_val <> max_val ->
  max_val - min_val <= imax k -> max_val - min_val <= 65535 ->
  1 <= helper_bins kwargs <= 65536 ->
  exists ys,
    helper_returns s (VRef l) kwargs sh ys
    /\ Forall2 (fun z y => approximates y ((z - min_val) * (helper_bins kwargs - 1))
                             (max_val - min_val)) zs ys.
Proof.
  intros Hread Hall Hmax Hmin Hne Hk Hd Hbins.
  destruct zs as [|x0 zs]; [discriminate|].
  cbn [amax amin] in Hmax, Hmin. injection Hmax as Hmax. injection Hmin as Hmin.
  destruct (small_range x0 zs Hall) as (Hmx & Hmn & Hbetween).
  rewrite Hmax in Hmx, Hbetween. rewrite Hmin in Hmn, Hbetween.
  assert (Hle : min_val <= max_val) by (inversion Hbetween; subst; lia).
  pose proof (normalize_small k x0 zs (helper_bins kwargs)) as Hnorm.
  cbv zeta in Hnorm. rewrite Hmax, Hmin in Hnorm.
  specialize (Hnorm Hall ltac:(lia) Hd ltac:(lia)).
  eexists. split; [eapply helper_returns_normalize; [exact Hread | exact Hnorm]|].
  apply Forall2_fmap_r, Forall_Forall2_diag.
  eapply Forall_impl; [exact Hbetween|]. intros z Hz.
  apply rescale_approximates; try done; lia.
Qed.

Lemma X16_accuracy_witness :
  exists ys,
    helper_returns (one_array [3%nat] (IntBuf uint8 [10; 60; 200])) (VRef 1%nat) ∅ [3%nat] ys
    /\ Forall2 (fun z y => approximates y ((z - 10) * (helper_bins ∅ - 1)) (200 - 10))
         [10; 60; 200] ys.
Proof.
  apply (X16_accuracy (one_array [3%nat] (IntBuf uint8 [10; 60; 200])) 1%nat [3%nat] uint8
           [10; 60; 200] ∅ 200 10).
  - reflexivity.
  - repeat constructor; unfold small; lia.
  - reflexivity.
  - reflexivity.
  - lia.
  - vm_compute. discriminate.
  - lia.
  - vm_compute. split; discriminate.
Defined.

(** ** A range that overflows a signed dtype *)

Lemma wrap_overflow k z :
  k = int8 \/ k = int16 -> imax k < z <= imax k - imin k ->
  wrap k z = z - 2 ^ ibits k.
Proof.
  intros [-> | ->]; unfold wrap, imax, imin; cbn [isigned ibits]; intros Hz.
  - change (2 ^ (8 - 1)) with 128 in *. change (2 ^ 8) with 256.
    replace (z + 128) with (z - 128 + 1 * 256) by lia.
    rewrite Z.mod_add, Z.mod_small by lia. lia.
  - change (2 ^ (16 - 1)) with 32768 in *. change (2 ^ 16) with 65536.
    replace (z + 32768) with (z - 32768 + 1 * 65536) by lia.
    rewrite Z.mod_add, Z.mod_small by lia. lia.
Qed.

(** X14: the range [max_val - min_val] is computed in the dtype of the
    array.  On an int8 or int16 array whose range exceeds the largest value
    of the dtype (as [[-128, 127]] in int8) the subtraction wraps around to
    a negative number; the helper divides by it, and with [bins > 1] every
    element above the minimum, the maximum included, comes out negative,
    while the minimum comes out as [-0.0]: no result is above zero. *)
Theorem X14_signed_range_wraps s l sh k zs kwargs max_val min_val :
  read_array s (VRef l) = Some (sh, IntBuf k zs) ->
  k = int8 \/ k = int16 ->
  buffer_wf (IntBuf k zs) ->
  amax (IntBuf k zs) = Some (IntS k max_val) ->
  amin (IntBuf k zs) = Some (IntS k min_val) ->
  imax k < max_val - min_val ->
  1 < helper_bins kwargs <= 65536 ->
  divisor (IntBuf k zs) = Some (IntS k (max_val - min_val - 2 ^ ibits k))
  /\ max_val - min_val - 2 ^ ibits k < 0
  /\ exists ys,
       helper_returns s (VRef l) kwargs sh ys
       /\ Forall2 (fun z y => if z =? min_val then y = S754_zero true else negative y) zs ys.
Proof.
  intros Hread Hk Hwf Hmax Hmin Hover Hbins.
  destruct zs as [|x0 zs]; [discriminate|].
  assert (Hdiv : divisor (IntBuf k (x0 :: zs))
                 = Some (scalar_op Sub (IntS k max_val) (IntS k min_val))).
  { unfold divisor. by rewrite Hmax, Hmin. }
  cbn [amax amin] in Hmax, Hmin. injection Hmax as Hmax. injection Hmin as Hmin.
  cbn [buffer_wf] in Hwf.
  assert (Hrange : Forall (fun z => imin k <= z <= imax k) (x0 :: zs)) by exact Hwf.
  assert (Hlim : imin k = - 2 ^ (ibits k - 1) /\ imax k = 2 ^ (ibits k - 1) - 1
                 /\ 2 ^ ibits k = 2 * 2 ^ (ibits k - 1) /\ -32768 <= imin k
                 /\ imax k <= 32767 /\ 0 < 2 ^ (ibits k - 1)).
  { destruct Hk as [-> | ->]; unfold imin, imax; cbn [isigned ibits];
      repeat split; try reflexivity; try discriminate. }
  destruct Hlim as (Hlo & Hhi & Hpow & Hlo16 & Hhi16 & Hpos).
  assert (Hall : Forall small (x0 :: zs)).
  { eapply Forall_impl; [exact Hrange|]. unfold small. intros z. lia. }
  destruct (small_range x0 zs Hall) as (Hmx & Hmn & Hbetween).
  rewrite Hmax in Hmx, Hbetween. rewrite Hmin in Hmn, Hbetween.
  destruct (fold_max_spec zs x0) as [Hmax_in _]. rewrite Hmax in Hmax_in.
  destruct (fold_min_spec zs x0) as [Hmin_in _]. rewrite Hmin in Hmin_in.
  rewrite Forall_forall in Hrange.
  pose proof (Hrange _ Hmax_in) as Rmx. pose proof (Hrange _ Hmin_in) as Rmn.
  assert (Hwrap : wrap k (max_val - min_val) = max_val - min_val - 2 ^ ibits k).
  { apply wrap_overflow; [done|]. lia. }
  split; [by rewrite Hdiv; cbn [scalar_op]; rewrite Hwrap|].
  split; [lia|].
  pose proof (normalize_wrap k x0 zs (helper_bins kwargs)) as Hnorm.
  cbv zeta in Hnorm. rewrite Hmax, Hmin, Hwrap in Hnorm.
  specialize (Hnorm Hall ltac:(unfold small; lia) ltac:(lia)).
  eexists. split; [eapply helper_returns_normalize; [exact Hread | exact Hnorm]|].
  apply Forall2_fmap_r, Forall_Forall2_diag.
  eapply Forall_impl; [exact Hbetween|]. intros z Hz. cbv beta.
  destruct (helper_bins kwargs - 1) as [|b|b] eqn:Eb; try lia.
  destruct (max_val - min_val - 2 ^ ibits k) as [|d|d] eqn:Ed; try lia.
  change (Z.neg d) with (cond_Zopp true (Z.pos d)).
  unfold small in *.
  destruct (Z.eqb_spec z min_val) as [->|Hne].
  - apply rescale_min; change (2 ^ 24) with 16777216; lia.
  - destruct (z - min_val) as [|a|a] eqn:Ea; try lia.
    destruct (rescale_value true min_val d b z a) as (M & E & R & _);
      try (change (2 ^ 24) with 16777216; lia).
    unfold compose. rewrite R. by exists M, E.
Qed.

Lemma X14_signed_range_wraps_witness :
  divisor (IntBuf int8 [-128; 0; 127]) = Some (IntS int8 (127 - -128 - 2 ^ ibits int8))
  /\ 127 - -128 - 2 ^ ibits int8 < 0
  /\ exists ys,
       helper_returns (one_array [3%nat] (IntBuf int8 [-128; 0; 127])) (VRef 1%nat) ∅
         [3%nat] ys
       /\ Forall2 (fun z y => if z =? -128 then y = S754_zero true else negative y)
            [-128; 0; 127] ys.
Proof.
  apply (X14_signed_range_wraps (one_array [3%nat] (IntBuf int8 [-128; 0; 127])) 1%nat
           [3%nat] int8 [-128; 0; 127] ∅ 127 (-128)).
  - reflexivity.
  - by left.
  - repeat constructor; vm_compute; discriminate.
  - reflexivity.
  - reflexivity.
  - vm_compute. reflexivity.
  - vm_compute. split; [reflexivity | discriminate].
Defined.
